(** * Parlay combination and scoring engine

    A shallow embedding of the parlay generator of the betting research
    tool: [research_engine.py], [advanced_analytics.py],
    [parlay_optimizer.py] and [diverse_parlay_generator.py], with the stake
    computation of [bankroll_manager.py] and the prediction fallbacks of
    [ml_models.py].

    Python floats are read as exact rationals ([Q]); a division whose
    divisor is zero raises [ZeroDivisionError], as Python's [/] does on
    floats and ints.  Exceptions are threaded through a small error monad. *)

From Stdlib Require Import List String Ascii Bool ZArith QArith Qabs Qminmax.
From Stdlib Require Import Lia Lqa Permutation OrderedTypeEx DecimalString Qround.
Import ListNotations.

Local Open Scope string_scope.
Local Open Scope list_scope.
Local Open Scope Z_scope.
Local Open Scope Q_scope.

(** ** Python runtime *)

Module Py.

Inductive exn : Type :=
| ZeroDivisionError
| ValueError
| NotANumber.  (* numpy's mean of an empty slice: nan, outside the rationals *)

Inductive result (A : Type) : Type :=
| Ok (a : A)
| Raise (e : exn).

Arguments Ok {A} a.
Arguments Raise {A} e.

Definition bind {A B} (m : result A) (k : A -> result B) : result B :=
  match m with
  | Ok a => k a
  | Raise e => Raise e
  end.

Fixpoint mapM {A B} (f : A -> result B) (l : list A) : result (list B) :=
  match l with
  | [] => Ok []
  | x :: t =>
      bind (f x) (fun y => bind (mapM f t) (fun ys => Ok (y :: ys)))
  end.

Fixpoint foldM {A S} (f : S -> A -> result S) (l : list A) (s : S) : result S :=
  match l with
  | [] => Ok s
  | x :: t => bind (f s x) (foldM f t)
  end.

Definition Qltb (a b : Q) : bool := negb (Qle_bool b a).
Definition Qgeb (a b : Q) : bool := Qle_bool b a.

(** [a / b] on numbers. *)
Definition div (a b : Q) : result Q :=
  if Qeq_bool b 0 then Raise ZeroDivisionError else Ok (a / b).

(** [len(l)] as a Python int. *)
Definition len {A} (l : list A) : Z := Z.of_nat (List.length l).

(** [range(a, b)]. *)
Definition range (a b : Z) : list Z :=
  map (fun i => (a + Z.of_nat i)%Z) (seq 0 (Z.to_nat (b - a))).

(** [l[:n]]; a negative [n] counts from the end. *)
Definition take {A} (n : Z) (l : list A) : list A :=
  if (n <? 0)%Z then firstn (Z.to_nat (len l + n)) l else firstn (Z.to_nat n) l.

(** [itertools.combinations(l, r)]: the [r]-element sub-sequences of [l] in
    lexicographic order of their positions. *)
Fixpoint combs {A} (l : list A) (r : nat) : list (list A) :=
  match r with
  | O => [[]]
  | S r' =>
      match l with
      | [] => []
      | x :: t => map (cons x) (combs t r') ++ combs t r
      end
  end.

Definition combinations {A} (l : list A) (r : Z) : result (list (list A)) :=
  if (r <? 0)%Z then Raise ValueError else Ok (combs l (Z.to_nat r)).

(** [list.sort(key=..., reverse=True)]: stable, descending.  [lt x y] says
    that the key of [x] is smaller than the key of [y]. *)
Fixpoint insert_desc {A} (lt : A -> A -> bool) (x : A) (l : list A) : list A :=
  match l with
  | [] => [x]
  | y :: t => if lt x y then y :: insert_desc lt x t else x :: y :: t
  end.

Definition sort_desc {A} (lt : A -> A -> bool) (l : list A) : list A :=
  fold_right (insert_desc lt) [] l.

(** [sorted(l)]: stable, ascending. *)
Fixpoint insert_asc {A} (lt : A -> A -> bool) (x : A) (l : list A) : list A :=
  match l with
  | [] => [x]
  | y :: t => if lt y x then y :: insert_asc lt x t else x :: y :: t
  end.

Definition sorted {A} (lt : A -> A -> bool) (l : list A) : list A :=
  fold_right (insert_asc lt) [] l.

(** [set(l)] as a duplicate-free list of ints, and the set operations used. *)
Definition mem (x : Z) (s : list Z) : bool := existsb (Z.eqb x) s.

Fixpoint set_of (l : list Z) : list Z :=
  match l with
  | [] => []
  | x :: t => if mem x t then set_of t else x :: set_of t
  end.

Definition inter (s1 s2 : list Z) : list Z := filter (fun x => mem x s2) s1.

Definition union (s1 s2 : list Z) : list Z :=
  s1 ++ filter (fun x => negb (mem x s1)) s2.

(** Strings: [needle in hay], [s.lower()], [s.startswith(p)] and
    [s.replace(old, new)] on ASCII text. *)
Fixpoint startswith (s p : string) : bool :=
  match p, s with
  | EmptyString, _ => true
  | String a p', String b s' => Ascii.eqb a b && startswith s' p'
  | String _ _, EmptyString => false
  end.

Fixpoint contains (needle hay : string) : bool :=
  startswith hay needle ||
  match hay with
  | EmptyString => false
  | String _ hay' => contains needle hay'
  end.

Definition lower_ascii (c : ascii) : ascii :=
  let n := nat_of_ascii c in
  if (Nat.leb 65 n && Nat.leb n 90)%bool then ascii_of_nat (n + 32) else c.

Fixpoint lower (s : string) : string :=
  match s with
  | EmptyString => EmptyString
  | String c s' => String (lower_ascii c) (lower s')
  end.

Fixpoint replace_from (old new : string) (skip : nat) (s : string) : string :=
  match s with
  | EmptyString => EmptyString
  | String c s' =>
      match skip with
      | S k => replace_from old new k s'
      | O =>
          if startswith s old
          then (new ++ replace_from old new (String.length old - 1) s')%string
          else String c (replace_from old new O s')
      end
  end.

(** [s.replace(old, new)] for a non-empty [old]. *)
Definition replace (old new s : string) : string := replace_from old new O s.

End Py.

Import Py.

Declare Scope py_scope.
Notation "x <- e ;; k" := (bind e (fun x => k))
  (at level 61, e at next level, right associativity) : py_scope.
Notation "' pat <- e ;; k" := (bind e (fun x => match x with pat => k end))
  (at level 61, pat pattern, e at next level, right associativity) : py_scope.
Local Open Scope py_scope.

(** ** config.py *)

(** The three settings the generator reads; each comes from the environment
    with the default below. *)
Record Config : Type := mkConfig {
  MIN_CONFIDENCE : Q;
  MAX_PARLAY_LEGS : Z;
  MIN_PARLAY_LEGS : Z
}.

Definition default_config : Config :=
  {| MIN_CONFIDENCE := 6 # 10; MAX_PARLAY_LEGS := 15; MIN_PARLAY_LEGS := 2 |}.

(** ** models.py *)

(** The columns of [Game] that the engine reads.  A nullable [Float] column is
    an [option Q]; the name columns are taken as populated. *)
Record Game : Type := mkGame {
  id : Z;
  sport : string;
  home_team : string;
  away_team : string;
  fighter1 : option string;
  fighter2 : option string;
  home_moneyline : option Q;
  away_moneyline : option Q;
  spread : option Q;
  spread_home_odds : option Q;
  total : option Q;
  over_odds : option Q
}.

Record PlayerProp : Type := mkPlayerProp {
  pp_game_id : Z;
  player_name : string;
  prop_type : string;
  prop_value : option Q;
  pp_over_odds : option Q;
  pp_under_odds : option Q;
  yes_odds : option Q;
  no_odds : option Q;
  market_key : option string;
  description : option string
}.

(** Values of the display-only keys of a leg dictionary. *)
Inductive PyVal : Type :=
| PNone
| PStr (s : string)
| PNum (q : Q).

(** A leg dictionary as [analyze_game] builds it.  The keys the generator
    computes with are fields; [true_probability] is absent on spread and total
    legs; the remaining keys ([prop_type], [prop_value], [player_name],
    [market_key], [description], [reasoning]) are kept in [extras]. *)
Record Leg : Type := mkLeg {
  game : Game;
  bet_type : string;
  selection : string;
  odds : Q;
  implied_probability : Q;
  true_probability : option Q;
  expected_value : Q;
  confidence_score : Q;
  extras : list (string * PyVal)
}.

(** Truthiness of a nullable number: [None] and [0] are false. *)
Definition truthy (o : option Q) : bool :=
  match o with
  | Some q => negb (Qeq_bool q 0)
  | None => false
  end.

Definition truthy_str (o : option string) : bool :=
  match o with
  | Some s => negb (String.eqb s "")
  | None => false
  end.

(** [x or d] on a nullable number. *)
Definition or_num (o : option Q) (d : Q) : Q :=
  match o with
  | Some q => if Qeq_bool q 0 then d else q
  | None => d
  end.

(** Value of a nullable column known to be truthy. *)
Definition the (o : option Q) : Q := or_num o 0.

Definition opt_eqb {A} (eqb : A -> A -> bool) (a b : option A) : bool :=
  match a, b with
  | Some x, Some y => eqb x y
  | None, None => true
  | _, _ => false
  end.

Definition pyval_eqb (a b : PyVal) : bool :=
  match a, b with
  | PNone, PNone => true
  | PStr s, PStr t => String.eqb s t
  | PNum p, PNum q => Qeq_bool p q
  | _, _ => false
  end.

Fixpoint extras_eqb (a b : list (string * PyVal)) : bool :=
  match a, b with
  | [], [] => true
  | (k, v) :: a', (k', v') :: b' =>
      String.eqb k k' && pyval_eqb v v' && extras_eqb a' b'
  | _, _ => false
  end.

(** Equality of leg dictionaries ([==], as used by [in]): every key agrees.
    A [Game] object is compared by its primary key. *)
Definition leg_eqb (a b : Leg) : bool :=
  (id (game a) =? id (game b))%Z
  && String.eqb (bet_type a) (bet_type b)
  && String.eqb (selection a) (selection b)
  && Qeq_bool (odds a) (odds b)
  && Qeq_bool (implied_probability a) (implied_probability b)
  && opt_eqb Qeq_bool (true_probability a) (true_probability b)
  && Qeq_bool (expected_value a) (expected_value b)
  && Qeq_bool (confidence_score a) (confidence_score b)
  && extras_eqb (extras a) (extras b).

(** The pairs [(l[i], l[j])] visited by
    [for i in range(len(l)): for j in range(i + 1, len(l))]. *)
Definition pairs_by_index {A} (l : list A) : list (A * A) :=
  flat_map
    (fun i =>
       flat_map
         (fun j =>
            match nth_error l (Z.to_nat i), nth_error l (Z.to_nat j) with
            | Some a, Some b => [(a, b)]
            | _, _ => []
            end)
         (range (i + 1) (len l)))
    (range 0 (len l)).

(** ** Parlay dictionaries *)

(** The candidate dictionary of [generate_parlays] and
    [generate_same_game_parlays].  Keys that only some producers set are
    options; [is_sgp] is read with [get("is_sgp", False)].  The same-game
    producer stores the probability under [combined_implied_prob]. *)
Module Parlay.
Record t : Type := mk {
  legs : list Leg;
  num_legs : Z;
  combined_odds : Q;
  implied_probability : Q;
  expected_value : Q;
  confidence_rating : string;
  confidence_score : Q;
  score : Q;
  has_props : bool;
  prop_count : option Z;
  is_sgp : bool;
  game : option Game;
  avg_correlation : option Q;
  adjusted_score : option Q;
  recommended_stake_pct : option Q
}.
End Parlay.

(** ** advanced_analytics.py *)

Module KellyCriterion.

Definition calculate_kelly_fraction (win_prob odds : Q) : result Q :=
  if Qle_bool win_prob 0 || Qle_bool 1 win_prob then Ok 0
  else
    if Qltb odds 0 then
      d <- div 100 (Qabs odds) ;;
      let decimal_odds := d + 1 in
      let b := decimal_odds - 1 in
      let q := 1 - win_prob in
      kelly_fraction <- div (b * win_prob - q) b ;;
      let fractional_kelly := kelly_fraction * (25 # 100) in
      Ok (Qmax 0 (Qmin fractional_kelly (5 # 100)))
    else if Qltb 0 odds then
      d <- div odds 100 ;;
      let decimal_odds := d + 1 in
      let b := decimal_odds - 1 in
      let q := 1 - win_prob in
      kelly_fraction <- div (b * win_prob - q) b ;;
      let fractional_kelly := kelly_fraction * (25 # 100) in
      Ok (Qmax 0 (Qmin fractional_kelly (5 # 100)))
    else Ok 0.

(** [parlay] is read only through its [combined_odds]. *)
Definition calculate_parlay_kelly (combined_odds : Q) (leg_probs : list Q)
  : result Q :=
  let combined_prob := fold_left Qmult leg_probs 1 in
  decimal_odds <-
    (if Qltb combined_odds 0
     then d <- div 100 (Qabs combined_odds) ;; Ok (d + 1)
     else d <- div combined_odds 100 ;; Ok (d + 1)) ;;
  calculate_kelly_fraction combined_prob decimal_odds.

End KellyCriterion.

Module CorrelationMatrix.

Definition _calculate_dict_correlation (leg1 leg2 : Leg) : Q :=
  let game1 := game leg1 in
  let game2 := game leg2 in
  let same_game :=
    if (id game1 =? id game2)%Z then true
    else if String.eqb (home_team game1) (home_team game2)
            && String.eqb (away_team game1) (away_team game2)
    then true else false in
  if same_game then
    let bet_type1 := bet_type leg1 in
    let bet_type2 := bet_type leg2 in
    if String.eqb bet_type1 bet_type2 then 9 # 10
    else if String.eqb bet_type1 "moneyline" && String.eqb bet_type2 "spread"
    then 7 # 10
    else 5 # 10
  else 1 # 10.

(** The [n] x [n] matrix: the identity, with entries [i][j] and [j][i] set to
    the correlation of legs [i] and [j] for [i < j]. *)
Definition build_correlation_matrix (legs : list Leg) : list (list Q) :=
  let n := List.length legs in
  map
    (fun i =>
       map
         (fun j =>
            if Nat.eqb i j then 1
            else
              match nth_error legs (Nat.min i j), nth_error legs (Nat.max i j) with
              | Some leg1, Some leg2 => _calculate_dict_correlation leg1 leg2
              | _, _ => 0
              end)
         (seq 0 n))
    (seq 0 n).

(** [matrix[np.triu_indices_from(matrix, k=1)]]: the entries strictly above
    the diagonal, row by row. *)
Fixpoint triu_from (i : nat) (matrix : list (list Q)) : list Q :=
  match matrix with
  | [] => []
  | row :: rest => skipn (S i) row ++ triu_from (S i) rest
  end.

(** [np.mean]; the mean of no values is nan. *)
Definition mean (l : list Q) : result Q :=
  match l with
  | [] => Raise NotANumber
  | _ => div (fold_left Qplus l 0) (inject_Z (len l))
  end.

Definition parlay_games (parlay : Parlay.t) : list Z :=
  set_of (map (fun l => id (game l)) (Parlay.legs parlay)).

(** The selection loop over the sorted candidates, with its state. *)
Fixpoint select_diverse (scored_parlays selected : list Parlay.t)
  (used_games : list Z) (max_parlays : Z) : list Parlay.t :=
  match scored_parlays with
  | [] => selected
  | parlay :: rest =>
      let overlap := len (inter (parlay_games parlay) used_games) in
      if Qltb (inject_Z overlap) (inject_Z (len (parlay_games parlay)) * (5 # 10))
         || (len selected <? max_parlays)%Z
      then
        let selected' := selected ++ [parlay] in
        let used_games' := union used_games (parlay_games parlay) in
        if (len selected' >=? max_parlays)%Z then selected'
        else select_diverse rest selected' used_games' max_parlays
      else select_diverse rest selected used_games max_parlays
  end.

Definition adjusted_lt (x y : Parlay.t) : bool :=
  match Parlay.adjusted_score x, Parlay.adjusted_score y with
  | Some a, Some b => Qltb a b
  | _, _ => false
  end.

Definition optimize_parlay_selection (parlay_candidates : list Parlay.t)
  (max_parlays : Z) : result (list Parlay.t) :=
  match parlay_candidates with
  | [] => Ok []
  | _ =>
      scored_parlays <-
        mapM
          (fun parlay =>
             let corr_matrix := build_correlation_matrix (Parlay.legs parlay) in
             avg_corr <- mean (triu_from 0 corr_matrix) ;;
             let diversification_bonus := (1 - avg_corr) * (2 # 10) in
             let adjusted_score := Parlay.score parlay + diversification_bonus in
             Ok (Parlay.mk
                   (Parlay.legs parlay) (Parlay.num_legs parlay)
                   (Parlay.combined_odds parlay)
                   (Parlay.implied_probability parlay)
                   (Parlay.expected_value parlay)
                   (Parlay.confidence_rating parlay)
                   (Parlay.confidence_score parlay)
                   (Parlay.score parlay) (Parlay.has_props parlay)
                   (Parlay.prop_count parlay) (Parlay.is_sgp parlay)
                   (Parlay.game parlay)
                   (Some avg_corr) (Some adjusted_score)
                   (Parlay.recommended_stake_pct parlay)))
          parlay_candidates ;;
      let scored_parlays := sort_desc adjusted_lt scored_parlays in
      Ok (select_diverse scored_parlays [] [] max_parlays)
  end.

End CorrelationMatrix.

(** [PortfolioOptimizer]: the object holds its bankroll; a parlay dictionary
    is read through [expected_value], [implied_probability], [combined_odds]
    and [confidence_score].  [calculate_sharpe_ratio] takes a square root and
    is left out. *)
Module PortfolioOptimizer.

Definition calculate_portfolio_ev (parlays : list Parlay.t) (stakes : list Q) : Q :=
  fold_left
    (fun total_ev '(parlay, stake) =>
       let ev := Parlay.expected_value parlay in
       total_ev + ev * stake)
    (combine parlays stakes) 0.

Definition calculate_portfolio_variance (parlays : list Parlay.t)
  (stakes : list Q) : result Q :=
  foldM
    (fun variance '(parlay, stake) =>
       let prob := Parlay.implied_probability parlay in
       let odds := Parlay.combined_odds parlay in
       decimal_odds <-
         (if Qltb odds 0
          then d <- div 100 (Qabs odds) ;; Ok (d + 1)
          else d <- div odds 100 ;; Ok (d + 1)) ;;
       Ok (variance + prob * (1 - prob) * (stake * decimal_odds) ^ 2))
    (combine parlays stakes) 0.

(** [max_total_stake] is [None] when the caller leaves it out. *)
Definition optimize_stakes (bankroll : Q) (parlays : list Parlay.t)
  (max_total_stake : option Q) : result (list Q) :=
  let max_total_stake :=
    match max_total_stake with
    | None => bankroll * (1 # 10)
    | Some m => m
    end in
  let n := len parlays in
  if (n =? 0)%Z then Ok []
  else
    stakes <-
      mapM
        (fun parlay =>
           let true_prob := Parlay.confidence_score parlay in
           kelly_fraction <-
             KellyCriterion.calculate_kelly_fraction true_prob
               (Parlay.combined_odds parlay) ;;
           let stake := bankroll * kelly_fraction in
           Ok stake)
        parlays ;;
    let total := fold_left Qplus stakes 0 in
    if Qltb max_total_stake total then
      mapM (fun s => r <- div max_total_stake total ;; Ok (s * r)) stakes
    else Ok stakes.

End PortfolioOptimizer.

(** [RiskManager]: the object's three attributes, passed explicitly; a method
    that assigns an attribute returns the new object. *)
Module RiskManager.

Record t : Type := mk {
  bankroll : Q;
  max_daily_risk : Q;
  daily_stake : Q
}.






Definition check_drawdown (current_bankroll peak_bankroll : Q) : result (bool * Q) :=
  if Qeq_bool peak_bankroll 0 then Ok (true, 0)
  else
    drawdown <- div (peak_bankroll - current_bankroll) peak_bankroll ;;
    let max_drawdown := 20 # 100 in
    Ok (Qltb drawdown max_drawdown, drawdown).

End RiskManager.

(** The columns of a stored [Parlay] row that the metrics read; [stake] is
    taken as populated. *)
Module ParlayRow.
Record t : Type := mk {
  result : option string;
  sport : option string;
  stake : Q;
  payout : option Q;
  confidence_rating : option string
}.
End ParlayRow.

Module AdvancedMetrics.

(** [parlay.result in ['win', 'loss']]. *)
Definition settled (parlay : ParlayRow.t) : bool :=
  match ParlayRow.result parlay with
  | Some r => String.eqb r "win" || String.eqb r "loss"
  | None => false
  end.

Definition won (parlay : ParlayRow.t) : bool :=
  opt_eqb String.eqb (ParlayRow.result parlay) (Some "win").



(** [confidence_stats[rating]['total'] += 1], and the wins on a win, for a
    rating that is a key of the dictionary. *)
Fixpoint bump (rating : string) (win : bool)
  (confidence_stats : list (string * (Z * Z))) : list (string * (Z * Z)) :=
  match confidence_stats with
  | [] => []
  | (k, (wins, total)) :: rest =>
      if String.eqb k rating
      then (k, (if win then (wins + 1)%Z else wins, (total + 1)%Z)) :: rest
      else (k, (wins, total)) :: bump rating win rest
  end.

Definition calculate_confidence_accuracy (parlays : list ParlayRow.t)
  : result (list (string * Q)) :=
  let confidence_stats :=
    fold_left
      (fun confidence_stats parlay =>
         if negb (settled parlay) then confidence_stats
         else
           match ParlayRow.confidence_rating parlay with
           | Some rating => bump rating (won parlay) confidence_stats
           | None => confidence_stats
           end)
      parlays
      [("High", (0, 0)%Z); ("Moderate", (0, 0)%Z); ("Low", (0, 0)%Z)] in
  mapM
    (fun '(rating, (wins, total)) =>
       if (0 <? total)%Z then
         a <- div (inject_Z wins) (inject_Z total) ;;
         Ok (rating, a)
       else Ok (rating, 0))
    confidence_stats.

End AdvancedMetrics.

(** ** research_engine.py *)

(** The collaborators of the engine: the trained predictor of [ml_models.py],
    the rows of the [player_props] table, and Python's float formatting
    ([str(x)] and the [.1f] format). *)
Record MLPredictor : Type := mkMLPredictor {
  predict_moneyline_probability : Game -> Q * Q;
  predict_spread : Game -> Q;
  predict_total : Game -> Q;
  predict_prop_probability : Game -> PlayerProp -> string -> Q
}.

Record Env : Type := mkEnv {
  ml_predictor : MLPredictor;
  player_props : list PlayerProp;
  str_float : Q -> string;
  fmt_1f : Q -> string
}.

(** [ml_models.py]: the predictor before any model is trained ([is_trained]
    false, [spread_model] and [total_model] None).  Every prediction then
    falls back on the book's numbers. *)
Module Untrained.

Definition _american_to_implied_prob (american_odds : Q) : Q :=
  if Qltb 0 american_odds then 100 / (american_odds + 100)
  else Qabs american_odds / (Qabs american_odds + 100).

Definition predict_moneyline_probability (g : Game) : Q * Q :=
  if truthy (home_moneyline g) && truthy (away_moneyline g) then
    let home_implied := _american_to_implied_prob (the (home_moneyline g)) in
    let away_implied := _american_to_implied_prob (the (away_moneyline g)) in
    let total := home_implied + away_implied in
    if Qltb 0 total then (home_implied / total, away_implied / total)
    else (5 # 10, 5 # 10)
  else (5 # 10, 5 # 10).

Definition predict_spread (g : Game) : Q := or_num (spread g) 0.

Definition predict_total (g : Game) : Q := or_num (total g) 0.

Definition predict_prop_probability (g : Game) (prop : PlayerProp)
  (selection : string) : Q :=
  let boosted o := Qmin (_american_to_implied_prob (the o) * (105 # 100)) (95 # 100) in
  if String.eqb selection "over" && truthy (pp_over_odds prop)
  then boosted (pp_over_odds prop)
  else if String.eqb selection "under" && truthy (pp_under_odds prop)
  then boosted (pp_under_odds prop)
  else if String.eqb selection "yes" && truthy (yes_odds prop)
  then boosted (yes_odds prop)
  else if String.eqb selection "no" && truthy (no_odds prop)
  then boosted (no_odds prop)
  else 5 # 10.

Definition predictor : MLPredictor :=
  mkMLPredictor predict_moneyline_probability predict_spread predict_total
    predict_prop_probability.

End Untrained.

Record Weights : Type := mkWeights {
  w_value : Q;
  w_confidence : Q;
  w_correlation : Q;
  w_diversification : Q
}.

Module ResearchEngine.

(** [self.weights] as [__init__] sets it. *)
Definition default_weights : Weights :=
  {| w_value := 4 # 10; w_confidence := 3 # 10;
     w_correlation := 2 # 10; w_diversification := 1 # 10 |}.

Definition american_to_decimal (american_odds : Q) : result Q :=
  if Qltb 0 american_odds then
    d <- div american_odds 100 ;; Ok (d + 1)
  else
    d <- div 100 (Qabs american_odds) ;; Ok (d + 1).

Definition american_to_implied_prob (american_odds : Q) : result Q :=
  if Qltb 0 american_odds then
    div 100 (american_odds + 100)
  else
    div (Qabs american_odds) (Qabs american_odds + 100).

Definition calculate_expected_value (implied_prob true_prob odds : Q)
  : result Q :=
  decimal_odds <- american_to_decimal odds ;;
  let ev := (true_prob * (decimal_odds - 1)) - (1 - true_prob) in
  Ok ev.

Definition calculate_confidence_score (g : Game) (bet_type selection : string)
  : result Q :=
  score <-
    (if String.eqb bet_type "moneyline" then
       let odds :=
         if String.eqb selection (home_team g) then home_moneyline g
         else away_moneyline g in
       if truthy odds then
         implied_prob <- american_to_implied_prob (the odds) ;;
         if Qle_bool (45 # 100) implied_prob && Qle_bool implied_prob (55 # 100)
         then Ok (65 # 100)
         else if Qle_bool (4 # 10) implied_prob && Qle_bool implied_prob (6 # 10)
         then Ok (6 # 10)
         else Ok (55 # 100)
       else Ok (5 # 10)
     else if String.eqb bet_type "prop" then Ok (62 # 100)
     else if String.eqb bet_type "fighter_moneyline" then Ok (6 # 10)
     else Ok (5 # 10)) ;;
  Ok (Qmin (Qmax score 0) 1).

Section Engine.

Variable cfg : Config.
Variable weights : Weights.
Variable env : Env.

Definition estimate_true_probability (g : Game) (bet_type selection : string)
  (prop : option PlayerProp) : result Q :=
  let ml := ml_predictor env in
  if String.eqb bet_type "moneyline" then
    let '(home_prob, away_prob) := predict_moneyline_probability ml g in
    if String.eqb selection (home_team g) then Ok home_prob
    else if String.eqb selection (away_team g) then Ok away_prob
    else if truthy (home_moneyline g)
    then american_to_implied_prob (the (home_moneyline g))
    else Ok (5 # 10)
  else if String.eqb bet_type "fighter_moneyline" then
    let '(home_prob, away_prob) := predict_moneyline_probability ml g in
    if opt_eqb String.eqb (Some selection) (fighter1 g) then Ok home_prob
    else if opt_eqb String.eqb (Some selection) (fighter2 g) then Ok away_prob
    else Ok (5 # 10)
  else if String.eqb bet_type "spread" then
    let predicted_spread := predict_spread ml g in
    let book_spread := or_num (spread g) 0 in
    let default :=
      if truthy (spread_home_odds g)
      then american_to_implied_prob (the (spread_home_odds g))
      else Ok (5 # 10) in
    if contains "home" (lower selection) || contains (home_team g) selection then
      if Qltb book_spread predicted_spread then Ok (55 # 100)
      else if Qltb predicted_spread book_spread then Ok (45 # 100)
      else default
    else
      if Qltb predicted_spread book_spread then Ok (55 # 100)
      else if Qltb book_spread predicted_spread then Ok (45 # 100)
      else default
  else if String.eqb bet_type "total" then
    let predicted_total := predict_total ml g in
    let book_total := or_num (total g) 0 in
    let default :=
      if truthy (over_odds g)
      then american_to_implied_prob (the (over_odds g))
      else Ok (5 # 10) in
    if contains "over" (lower selection) then
      if Qltb book_total predicted_total then Ok (55 # 100)
      else if Qltb predicted_total book_total then Ok (45 # 100)
      else default
    else
      if Qltb predicted_total book_total then Ok (55 # 100)
      else if Qltb book_total predicted_total then Ok (45 # 100)
      else default
  else
    match prop with
    | Some p =>
        if String.eqb bet_type "prop" then
          if contains "over" (lower selection)
          then Ok (predict_prop_probability ml g p "over")
          else if contains "under" (lower selection)
          then Ok (predict_prop_probability ml g p "under")
          else if contains "yes" (lower selection)
          then Ok (predict_prop_probability ml g p "yes")
          else if contains "no" (lower selection)
          then Ok (predict_prop_probability ml g p "no")
          else Ok (5 # 10)
        else Ok (5 # 10)
    | None => Ok (5 # 10)
    end.

(** [a or b or c] on the nullable strings of a prop row. *)
Definition or_str (a : option string) (b : string) : string :=
  if truthy_str a then match a with Some s => s | None => b end else b.

Definition opt_val (o : option string) : PyVal :=
  match o with Some s => PStr s | None => PNone end.

Definition num_val (o : option Q) : PyVal :=
  match o with Some q => PNum q | None => PNone end.

Definition pct (ev : Q) : string := fmt_1f env (ev * 100).

(** The four game-level blocks: a moneyline leg needs positive EV and the
    configured confidence. *)
Definition moneyline_leg (g : Game) (bt selection : string) (odds : Q)
  (label : string) : result (list Leg) :=
  true_prob <- estimate_true_probability g bt selection None ;;
  implied_prob <- american_to_implied_prob odds ;;
  ev <- calculate_expected_value implied_prob true_prob odds ;;
  confidence <- calculate_confidence_score g bt selection ;;
  if Qltb 0 ev && Qgeb confidence (MIN_CONFIDENCE cfg) then
    Ok [ mkLeg g bt selection odds implied_prob (Some true_prob) ev confidence
           [("reasoning", PStr (label ++ " moneyline with " ++ pct ev ++ "% EV")%string)] ]
  else Ok [].

Definition placeholder_leg (g : Game) (bt conf_selection selection : string)
  (odds : Q) (reasoning : string) : result (list Leg) :=
  confidence <- calculate_confidence_score g bt conf_selection ;;
  if Qgeb confidence (MIN_CONFIDENCE cfg) then
    implied_prob <- american_to_implied_prob odds ;;
    Ok [ mkLeg g bt selection odds implied_prob None (5 # 100) confidence
           [("reasoning", PStr reasoning)] ]
  else Ok [].

Definition game_legs (g : Game) : result (list Leg) :=
  l1 <- (if truthy (home_moneyline g)
         then moneyline_leg g "moneyline" (home_team g) (the (home_moneyline g))
                "Home team"
         else Ok []) ;;
  l2 <- (if truthy (away_moneyline g)
         then moneyline_leg g "moneyline" (away_team g) (the (away_moneyline g))
                "Away team"
         else Ok []) ;;
  l3 <- (if truthy (spread g) && truthy (spread_home_odds g)
         then placeholder_leg g "spread" (home_team g)
                (home_team g ++ " " ++ str_float env (the (spread g)))%string
                (the (spread_home_odds g))
                ("Home team spread " ++ str_float env (the (spread g)))%string
         else Ok []) ;;
  l4 <- (if truthy (total g) && truthy (over_odds g)
         then placeholder_leg g "total" "over"
                ("Over " ++ str_float env (the (total g)))%string
                (the (over_odds g))
                ("Over " ++ str_float env (the (total g)) ++ " total points")%string
         else Ok []) ;;
  l5 <- (if String.eqb (sport g) "UFC" || String.eqb (sport g) "BOXING" then
           a <- (match fighter1 g with
                 | Some f1 =>
                     if truthy_str (fighter1 g) && truthy (home_moneyline g)
                     then moneyline_leg g "fighter_moneyline" f1
                            (the (home_moneyline g)) f1
                     else Ok []
                 | None => Ok []
                 end) ;;
           b <- (match fighter2 g with
                 | Some f2 =>
                     if truthy_str (fighter2 g) && truthy (away_moneyline g)
                     then moneyline_leg g "fighter_moneyline" f2
                            (the (away_moneyline g)) f2
                     else Ok []
                 | None => Ok []
                 end) ;;
           Ok (a ++ b)
         else Ok []) ;;
  Ok (l1 ++ l2 ++ l3 ++ l4 ++ l5).

(** One leg of a prop or market row: the blocks of the two loops over the
    rows differ only in the strings passed here. *)
Definition market_leg (g : Game) (bt conf_selection est_selection selection : string)
  (odds : Q) (prop : PlayerProp) (extra : Q -> list (string * PyVal))
  : result (list Leg) :=
  confidence <- calculate_confidence_score g bt conf_selection ;;
  let prop_min_confidence := MIN_CONFIDENCE cfg * (9 # 10) in
  if Qgeb confidence prop_min_confidence then
    implied_prob <- american_to_implied_prob odds ;;
    true_prob <- estimate_true_probability g bt est_selection (Some prop) ;;
    ev <- calculate_expected_value implied_prob true_prob odds ;;
    if Qltb (- (2 # 100)) ev then
      Ok [ mkLeg g bt selection odds implied_prob (Some true_prob)
             (Qmax ev (1 # 100)) confidence (extra ev) ]
    else Ok []
  else Ok [].

Definition player_prop_legs (g : Game) (prop : PlayerProp) : result (list Leg) :=
  let name := player_name prop in
  let ptype := prop_type prop in
  let described d :=
    or_str (description prop) (or_str (Some ptype) d) in
  let keys d v r :=
    [("prop_type", PStr (or_str (Some ptype) (or_str (market_key prop) d)));
     ("prop_value", v);
     ("player_name", PStr name);
     ("market_key", opt_val (market_key prop));
     ("reasoning", PStr r)] in
  over <-
    (match prop_value prop with
     | Some v =>
         if truthy (pp_over_odds prop) then
           market_leg g "prop" (name ++ " " ++ ptype ++ " over")%string
             ("over " ++ str_float env v)%string
             ("Over " ++ str_float env v)%string
             (the (pp_over_odds prop)) prop
             (fun ev => keys "points" (PNum v)
                (name ++ " " ++ described "points" ++ " over " ++ str_float env v
                 ++ " with " ++ pct ev ++ "% EV")%string)
         else Ok []
     | None => Ok []
     end) ;;
  under <-
    (match prop_value prop with
     | Some v =>
         if truthy (pp_under_odds prop) then
           market_leg g "prop" (name ++ " " ++ ptype ++ " under")%string
             ("under " ++ str_float env v)%string
             ("Under " ++ str_float env v)%string
             (the (pp_under_odds prop)) prop
             (fun ev => keys "points" (PNum v)
                (name ++ " " ++ described "points" ++ " under " ++ str_float env v
                 ++ " with " ++ pct ev ++ "% EV")%string)
         else Ok []
     | None => Ok []
     end) ;;
  yes <-
    (if truthy (yes_odds prop) then
       market_leg g "prop" (name ++ " " ++ ptype ++ " yes")%string
         "yes" "Yes" (the (yes_odds prop)) prop
         (fun ev => keys "anytime_td" PNone
            (name ++ " " ++ described "anytime TD" ++ " - Yes with "
             ++ pct ev ++ "% EV")%string)
     else Ok []) ;;
  Ok (over ++ under ++ yes).

(** A market whose [prop_type] is empty and whose [market_key] is NULL has
    bet type [None] in Python; it is read as the empty string. *)
Definition team_market_legs (g : Game) (market : PlayerProp) : result (list Leg) :=
  let bet_type := or_str (Some (prop_type market)) (or_str (market_key market) "") in
  let selection := replace "TEAM_" "" (player_name market) in
  let keys v r :=
    [("prop_type", PStr bet_type)] ++ v ++
    [("market_key", opt_val (market_key market));
     ("description", PStr (or_str (description market) selection));
     ("reasoning", PStr r)] in
  over <-
    (match prop_value market with
     | Some v =>
         if truthy (pp_over_odds market) then
           market_leg g bet_type (selection ++ " over")%string
             ("over " ++ str_float env v)%string
             ("Over " ++ fmt_1f env v)%string
             (the (pp_over_odds market)) market
             (fun ev => keys [("prop_value", PNum v)]
                (selection ++ " over " ++ fmt_1f env v
                 ++ " with " ++ pct ev ++ "% EV")%string)
         else Ok []
     | None => Ok []
     end) ;;
  under <-
    (match prop_value market with
     | Some v =>
         if truthy (pp_under_odds market) then
           market_leg g bet_type (selection ++ " under")%string
             ("under " ++ str_float env v)%string
             ("Under " ++ fmt_1f env v)%string
             (the (pp_under_odds market)) market
             (fun ev => keys [("prop_value", PNum v)]
                (selection ++ " under " ++ fmt_1f env v
                 ++ " with " ++ pct ev ++ "% EV")%string)
         else Ok []
     | None => Ok []
     end) ;;
  yes <-
    (if truthy (yes_odds market) then
       market_leg g bet_type selection "yes" selection
         (the (yes_odds market)) market
         (fun ev => keys []
            (selection ++ " with " ++ pct ev ++ "% EV")%string)
     else Ok []) ;;
  Ok (over ++ under ++ yes).

(** [session.query(PlayerProp).filter_by(game_id=game.id).all()]. *)
Definition query_props (g : Game) : list PlayerProp :=
  filter (fun p => (pp_game_id p =? id g)%Z) (player_props env).

(** The legs the two loops over the rows append, in order. *)
Definition market_legs (g : Game) : result (list Leg) :=
  let props := query_props g in
  let player_props :=
    filter (fun p => negb (startswith (player_name p) "TEAM_")) props in
  let team_markets :=
    filter (fun p => startswith (player_name p) "TEAM_") props in
  a <- mapM (player_prop_legs g) player_props ;;
  b <- mapM (team_market_legs g) team_markets ;;
  Ok (List.concat a ++ List.concat b).

Definition analyze_game (g : Game) : result (list Leg) :=
  legs <- game_legs g ;;
  more <- market_legs g ;;
  Ok (legs ++ more).

Definition calculate_correlation_penalty (leg1 leg2 : Leg) : Q :=
  if (id (game leg1) =? id (game leg2))%Z then 5 # 10
  else if String.eqb (selection leg1) (selection leg2) then 3 # 10
  else 1 # 10.

(** The three accumulators of the first loop of [build_parlay_score]. *)
Definition accumulate (legs : list Leg) : Q * Q * Q :=
  fold_left
    (fun '(combined_implied_prob, combined_ev, avg_confidence) leg =>
       (combined_implied_prob * implied_probability leg,
        combined_ev + expected_value leg,
        avg_confidence + confidence_score leg))
    legs (1, 0, 0).

(** The correlation penalty of [build_parlay_score]: the pairwise sum, divided
    by the number of pairs and capped at 1. *)
Definition correlation_penalty_of (legs : list Leg) : result Q :=
  let correlation_penalty :=
    fold_left
      (fun acc '(a, b) => acc + calculate_correlation_penalty a b)
      (pairs_by_index legs) 0 in
  let n := inject_Z (len legs) in
  pairs <- div (n * (n - 1)) 2 ;;
  avg <- div correlation_penalty pairs ;;
  Ok (Qmin avg 1).

Definition diversification_of (legs : list Leg) : result Q :=
  d <- div (inject_Z (len legs)) (inject_Z (MAX_PARLAY_LEGS cfg)) ;;
  Ok (Qmin d 1).

Definition build_parlay_score (legs : list Leg) : result Q :=
  if (len legs <? MIN_PARLAY_LEGS cfg)%Z then Ok 0
  else
    let '(_, combined_ev, avg_confidence) := accumulate legs in
    avg_confidence <- div avg_confidence (inject_Z (len legs)) ;;
    correlation_penalty <- correlation_penalty_of legs ;;
    diversification <- diversification_of legs ;;
    avg_ev <- div combined_ev (inject_Z (len legs)) ;;
    let score :=
      w_value weights * avg_ev
      + w_confidence weights * avg_confidence
      - w_correlation weights * correlation_penalty
      + w_diversification weights * diversification in
    Ok score.

(** The loop over the legs of a combination, shared by the two generators:
    the product of the implied probabilities, the product of the decimal odds
    and the sum of the confidences. *)
Definition combine_legs (combo : list Leg) : result (Q * Q * Q) :=
  foldM
    (fun '(combined_implied_prob, combined_odds, avg_confidence) leg =>
       d <- american_to_decimal (odds leg) ;;
       Ok (combined_implied_prob * implied_probability leg,
           combined_odds * d,
           avg_confidence + confidence_score leg))
    combo (1, 1, 0).

(** American odds of a profit multiplier. *)
Definition to_american (combined_odds : Q) : result Q :=
  if Qgeb combined_odds 1 then Ok (combined_odds * 100)
  else div (- (100)) combined_odds.

Definition rate (avg_confidence : Q) : string :=
  if Qgeb avg_confidence (75 # 100) then "High"
  else if Qgeb avg_confidence (65 # 100) then "Moderate"
  else "Low".

Definition count_props (combo : list Leg) : Z :=
  len (filter (fun leg => String.eqb (bet_type leg) "prop") combo).

Definition any_prop (combo : list Leg) : bool :=
  existsb (fun leg => String.eqb (bet_type leg) "prop") combo.

Definition sgp_candidate (g : Game) (combo : list Leg) : result Parlay.t :=
  '(combined_implied_prob, combined_odds, avg_confidence) <- combine_legs combo ;;
  avg_confidence <- div avg_confidence (inject_Z (len combo)) ;;
  let combined_odds := combined_odds - 1 in
  combined_american <- to_american combined_odds ;;
  let combined_ev :=
    (combined_implied_prob * combined_odds) - (1 - combined_implied_prob) in
  let confidence_rating := rate avg_confidence in
  score <- build_parlay_score combo ;;
  let score := score * (12 # 10) in
  let prop_count := count_props combo in
  Ok (Parlay.mk combo (len combo) combined_american combined_implied_prob
        combined_ev confidence_rating avg_confidence score
        (0 <? prop_count)%Z (Some prop_count) true (Some g) None None None).

Definition score_lt (x y : Parlay.t) : bool :=
  Qltb (Parlay.score x) (Parlay.score y).

Definition is_sgp_type (leg : Leg) : bool :=
  String.eqb (bet_type leg) "prop" || String.eqb (bet_type leg) "moneyline"
  || String.eqb (bet_type leg) "spread" || String.eqb (bet_type leg) "total".

Definition generate_same_game_parlays (g : Game) (max_parlays : Z)
  : result (list Parlay.t) :=
  legs <- analyze_game g ;;
  let sgp_legs := filter is_sgp_type legs in
  if (len sgp_legs <? MIN_PARLAY_LEGS cfg)%Z then Ok []
  else
    per_size <-
      mapM
        (fun num_legs =>
           combos <- combinations sgp_legs num_legs ;;
           mapM (sgp_candidate g) combos)
        (range (Z.max (MIN_PARLAY_LEGS cfg) 4) (Z.min 9 (len sgp_legs + 1))) ;;
    let parlay_candidates := List.concat per_size in
    let parlay_candidates := sort_desc score_lt parlay_candidates in
    Ok (take max_parlays parlay_candidates).

Definition cross_candidate (combo : list Leg) : result Parlay.t :=
  '(combined_implied_prob, combined_odds, avg_confidence) <- combine_legs combo ;;
  avg_confidence <- div avg_confidence (inject_Z (len combo)) ;;
  let combined_odds := combined_odds - 1 in
  combined_american <- to_american combined_odds ;;
  let combined_ev :=
    (combined_implied_prob * combined_odds) - (1 - combined_implied_prob) in
  let confidence_rating := rate avg_confidence in
  score <- build_parlay_score combo ;;
  let has_props := any_prop combo in
  let score := if has_props then score * (115 # 100) else score in
  Ok (Parlay.mk combo (len combo) combined_american combined_implied_prob
        combined_ev confidence_rating avg_confidence score
        has_props None false None None None None).

Definition bool_lt (a b : bool) : bool := negb a && b.

(** Keys [(has_props, score)] and [(is_sgp, has_props, score)], compared as
    tuples. *)
Definition props_score_lt (x y : Parlay.t) : bool :=
  bool_lt (Parlay.has_props x) (Parlay.has_props y)
  || (Bool.eqb (Parlay.has_props x) (Parlay.has_props y) && score_lt x y).

Definition final_lt (x y : Parlay.t) : bool :=
  bool_lt (Parlay.is_sgp x) (Parlay.is_sgp y)
  || (Bool.eqb (Parlay.is_sgp x) (Parlay.is_sgp y) && props_score_lt x y).

Definition add_kelly (parlay : Parlay.t) : result Parlay.t :=
  let leg_probs :=
    map (fun l => match true_probability l with
                  | Some p => p
                  | None => implied_probability l
                  end) (Parlay.legs parlay) in
  kelly_fraction <-
    KellyCriterion.calculate_parlay_kelly (Parlay.combined_odds parlay) leg_probs ;;
  Ok (Parlay.mk
        (Parlay.legs parlay) (Parlay.num_legs parlay)
        (Parlay.combined_odds parlay) (Parlay.implied_probability parlay)
        (Parlay.expected_value parlay) (Parlay.confidence_rating parlay)
        (Parlay.confidence_score parlay) (Parlay.score parlay)
        (Parlay.has_props parlay) (Parlay.prop_count parlay)
        (Parlay.is_sgp parlay) (Parlay.game parlay)
        (Parlay.avg_correlation parlay) (Parlay.adjusted_score parlay)
        (Some (kelly_fraction * 100))).

Definition is_nil {A} (l : list A) : bool :=
  match l with [] => true | _ => false end.

Definition generate_parlays (games : list Game) (max_parlays : Z)
  (include_sgp : bool) : result (list Parlay.t) :=
  all_parlays <-
    (if include_sgp then
       sgp <- mapM (fun g => generate_same_game_parlays g 5) games ;;
       Ok (List.concat sgp)
     else Ok []) ;;
  per_game <- mapM analyze_game games ;;
  let all_legs := List.concat per_game in
  if (len all_legs <? MIN_PARLAY_LEGS cfg)%Z then
    Ok (if is_nil all_parlays then [] else take max_parlays all_parlays)
  else
    per_size <-
      mapM
        (fun num_legs =>
           combos <- combinations all_legs num_legs ;;
           mapM cross_candidate combos)
        (range (MIN_PARLAY_LEGS cfg)
           (Z.min (MAX_PARLAY_LEGS cfg + 1) (len all_legs + 1))) ;;
    let parlay_candidates := List.concat per_size in
    let parlay_candidates := sort_desc props_score_lt parlay_candidates in
    optimized <-
      CorrelationMatrix.optimize_parlay_selection parlay_candidates max_parlays ;;
    optimized <- mapM add_kelly optimized ;;
    let all_parlays :=
      all_parlays ++
      (if is_nil optimized then take max_parlays parlay_candidates else optimized) in
    let all_parlays := sort_desc final_lt all_parlays in
    Ok (take max_parlays all_parlays).

End Engine.
End ResearchEngine.

(** ** parlay_optimizer.py *)

Module TargetParlay.
Record t : Type := mk {
  legs : list Leg;
  num_legs : Z;
  combined_odds : Q;
  implied_probability : Q;
  expected_value : Q;
  confidence_score : Q;
  target_diff : Q;
  score : Q
}.
End TargetParlay.

Module RoundRobin.
Record t : Type := mk {
  legs : list Leg;
  num_legs : Z;
  combined_odds : Q;
  implied_probability : Q
}.
End RoundRobin.

(** The candidate dictionary of [maximize_ev]. *)
Module EvParlay.
Record t : Type := mk {
  legs : list Leg;
  num_legs : Z;
  combined_odds : Q;
  implied_probability : Q;
  expected_value : Q;
  confidence_score : Q;
  score : Q
}.
End EvParlay.

Module ParlayOptimizer.
Import ResearchEngine.

Section Optimizer.

Variable cfg : Config.
Variable env : Env.

Definition target_candidate (target_odds tolerance : Q) (num_legs : Z)
  (combo : list Leg) : result (list TargetParlay.t) :=
  '(combined_implied, combined_odds, total_ev, total_confidence) <-
    foldM
      (fun '(combined_implied, combined_odds, total_ev, total_confidence) leg =>
         d <- american_to_decimal (odds leg) ;;
         Ok (combined_implied * implied_probability leg,
             combined_odds * d,
             total_ev + expected_value leg,
             total_confidence + confidence_score leg))
      combo (1, 1, 0, 0) ;;
  let combined_odds := combined_odds - 1 in
  combined_american <- to_american combined_odds ;;
  diff <- div (Qabs (combined_american - target_odds)) target_odds ;;
  if Qle_bool diff tolerance then
    avg_ev <- div total_ev (inject_Z num_legs) ;;
    avg_conf <- div total_confidence (inject_Z num_legs) ;;
    Ok [ TargetParlay.mk combo num_legs combined_american combined_implied
           avg_ev avg_conf diff ((1 - diff) * avg_ev * avg_conf) ]
  else Ok [].

Definition target_score_lt (x y : TargetParlay.t) : bool :=
  Qltb (TargetParlay.score x) (TargetParlay.score y).

Definition optimize_for_target_odds (games : list Game)
  (target_odds tolerance : Q) (min_legs max_legs : Z)
  : result (list TargetParlay.t) :=
  per_game <- mapM (analyze_game cfg env) games ;;
  let all_legs := List.concat per_game in
  if (len all_legs <? min_legs)%Z then Ok []
  else
    per_size <-
      mapM
        (fun num_legs =>
           combos <- combinations all_legs num_legs ;;
           found <- mapM (target_candidate target_odds tolerance num_legs) combos ;;
           Ok (List.concat found))
        (range min_legs (Z.min (max_legs + 1) (len all_legs + 1))) ;;
    let candidates := sort_desc target_score_lt (List.concat per_size) in
    Ok (take 10 candidates).




Definition round_robin (group_size : Z) (combo : list Leg)
  : result RoundRobin.t :=
  '(combined_implied, combined_odds) <-
    foldM
      (fun '(combined_implied, combined_odds) leg =>
         d <- american_to_decimal (odds leg) ;;
         Ok (combined_implied * implied_probability leg, combined_odds * d))
      combo (1, 1) ;;
  let combined_odds := combined_odds - 1 in
  combined_american <- to_american combined_odds ;;
  Ok (RoundRobin.mk combo group_size combined_american combined_implied).

Definition round_robin_generator (legs : list Leg) (group_size : Z)
  : result (list RoundRobin.t) :=
  if (len legs <? group_size)%Z then Ok []
  else
    combos <- combinations legs group_size ;;
    mapM (round_robin group_size) combos.

End Optimizer.
End ParlayOptimizer.

(** ** diverse_parlay_generator.py *)

Module DiverseParlay.
Record t : Type := mk {
  picks : list Leg;
  num_legs : Z;
  sport : string;
  combined_odds : Q;
  decimal_odds : Q;
  combined_confidence : Q;
  potential_payouts : Q * Q * Q * Q;
  bet_types : list string;
  num_games : Z;
  avg_expected_value : Q;
  quality_score : Q;
  legs : list Leg
}.
End DiverseParlay.

Module DiverseParlayGenerator.
Import ResearchEngine.

(** [set.add] on a set of strings, kept in order of first insertion; only
    its size is computed with. *)
Definition add_str (s : string) (l : list string) : list string :=
  if existsb (String.eqb s) l then l else l ++ [s].

(** State of the loop over the legs in [_calculate_parlay_metrics];
    [None] is the early [return None] at a leg whose odds are 0. *)
Fixpoint metrics_loop (legs : list Leg) (st : Q * Q * Q * list string)
  : result (option (Q * Q * Q * list string)) :=
  match legs with
  | [] => Ok (Some st)
  | leg :: rest =>
      let '(combined_odds, combined_confidence, total_ev, bet_types_included) := st in
      let odds := odds leg in
      if Qeq_bool odds 0 then Ok None
      else
        decimal_odds <- american_to_decimal odds ;;
        metrics_loop rest
          (combined_odds * decimal_odds,
           combined_confidence * confidence_score leg,
           total_ev + expected_value leg,
           add_str (bet_type leg) bet_types_included)
  end.

Definition _calculate_parlay_metrics (legs : list Leg) (sport : string)
  : result (option DiverseParlay.t) :=
  if (len legs <? 2)%Z then Ok None
  else
    let game_ids := set_of (map (fun leg => id (game leg)) legs) in
    if Qltb (inject_Z (len game_ids)) (Qmax 2 (inject_Z (len legs) * (5 # 10)))
    then Ok None
    else
      looped <- metrics_loop legs (1, 1, 0, []) ;;
      match looped with
      | None => Ok None
      | Some (combined_odds, combined_confidence, total_ev, bet_types_included) =>
          let combined_odds := combined_odds - 1 in
          combined_american <- to_american combined_odds ;;
          let decimal_odds := combined_odds + 1 in
          let potential_payouts :=
            (10 * decimal_odds, 25 * decimal_odds,
             50 * decimal_odds, 100 * decimal_odds) in
          let variety_bonus :=
            1 + (inject_Z (len bet_types_included) - 1) * (1 # 10) in
          games_per_leg <- div (inject_Z (len game_ids)) (inject_Z (len legs)) ;;
          let diversification_bonus := 1 + games_per_leg * (1 # 10) in
          avg_ev <- div total_ev (inject_Z (len legs)) ;;
          let quality_score :=
            combined_confidence * 100 * variety_bonus * diversification_bonus
            * (1 + avg_ev * 10) in
          Ok (Some (DiverseParlay.mk legs (len legs) sport combined_american
                      decimal_odds combined_confidence potential_payouts
                      bet_types_included (len game_ids) avg_ev quality_score
                      legs))
      end.

(** The signature of a parlay: its (game id, selection) pairs, sorted as
    tuples. *)
Definition pair_lt (a b : Z * string) : bool :=
  (fst a <? fst b)%Z || ((fst a =? fst b)%Z && String.ltb (snd a) (snd b)).

Definition pair_eqb (a b : Z * string) : bool :=
  (fst a =? fst b)%Z && String.eqb (snd a) (snd b).

Definition pairs_of (picks : list Leg) : list (Z * string) :=
  map (fun pick => (id (game pick), selection pick)) picks.

Definition signature (picks : list Leg) : list (Z * string) :=
  sorted pair_lt (pairs_of picks).

Fixpoint sig_eqb (a b : list (Z * string)) : bool :=
  match a, b with
  | [], [] => true
  | x :: a', y :: b' => pair_eqb x y && sig_eqb a' b'
  | _, _ => false
  end.

Fixpoint dedup_loop (parlays unique : list DiverseParlay.t)
  (seen_signatures : list (list (Z * string))) : list DiverseParlay.t :=
  match parlays with
  | [] => unique
  | parlay :: rest =>
      let picks := DiverseParlay.picks parlay in
      let signature := signature picks in
      if negb (existsb (sig_eqb signature) seen_signatures)
      then dedup_loop rest (unique ++ [parlay]) (signature :: seen_signatures)
      else dedup_loop rest unique seen_signatures
  end.

Definition _deduplicate_parlays (parlays : list DiverseParlay.t)
  : list DiverseParlay.t :=
  dedup_loop parlays [] [].

(** The key of [legs_by_type] a leg is filed under, if any. *)
Definition categorize (bet_type : string) : option string :=
  if String.eqb bet_type "moneyline" || String.eqb bet_type "fighter_moneyline"
     || String.eqb bet_type "boxing_moneyline" then Some "moneyline"
  else if contains "alternate_spread" bet_type then Some "alternate_spread"
  else if String.eqb bet_type "spread" then Some "spread"
  else if contains "alternate_total" bet_type then Some "alternate_total"
  else if String.eqb bet_type "total" then Some "total"
  else if String.eqb bet_type "team_total" then Some "team_total"
  else if contains "quarter" bet_type || contains "_q1" bet_type
          || contains "_q2" bet_type || contains "_q3" bet_type
          || contains "_q4" bet_type then Some "quarter"
  else if contains "half" bet_type || contains "_h1" bet_type
          || contains "_h2" bet_type then Some "half"
  else if contains "period" bet_type || contains "_p1" bet_type
          || contains "_p2" bet_type || contains "_p3" bet_type then Some "period"
  else if contains "innings" bet_type then Some "innings"
  else if String.eqb bet_type "prop" then Some "prop"
  else None.

(** [legs_by_type.get(leg_type, [])]. *)
Definition legs_by_type (all_legs : list Leg) (leg_type : string) : list Leg :=
  filter (fun leg => opt_eqb String.eqb (categorize (bet_type leg)) (Some leg_type))
    all_legs.

Definition type_combinations : list (list string) :=
  [ ["moneyline"; "spread"; "total"];
    ["moneyline"; "spread"; "total"; "prop"];
    ["moneyline"; "alternate_spread"; "alternate_total"];
    ["moneyline"; "team_total"; "prop"];
    ["moneyline"; "quarter"; "half"];
    ["prop"; "moneyline"];
    ["alternate_spread"; "alternate_total"; "moneyline"] ].

(** The [while] loop that fills [selected_legs] from [all_legs]; every
    iteration appends one leg, so [fuel] iterations are enough once [fuel]
    reaches [num_legs]. *)
Fixpoint fill (fuel : nat) (all_legs selected_legs : list Leg) (num_legs : Z)
  : list Leg :=
  match fuel with
  | O => selected_legs
  | S fuel' =>
      if (len selected_legs <? num_legs)%Z && (len selected_legs <? len all_legs)%Z
      then
        let remaining :=
          filter (fun l => negb (existsb (leg_eqb l) selected_legs)) all_legs in
        match remaining with
        | r :: _ => fill fuel' all_legs (selected_legs ++ [r]) num_legs
        | [] => selected_legs
        end
      else selected_legs
  end.

(** The loop over the combinations of one type combination, with its
    [break] once five parlays have been collected. *)
Fixpoint collect (combos : list (list Leg)) (sport : string)
  (parlays : list DiverseParlay.t) : result (list DiverseParlay.t) :=
  match combos with
  | [] => Ok parlays
  | combo :: rest =>
      parlay <- _calculate_parlay_metrics combo sport ;;
      match parlay with
      | Some p =>
          let parlays := parlays ++ [p] in
          if (len parlays >=? 5)%Z then Ok parlays else collect rest sport parlays
      | None => collect rest sport parlays
      end
  end.

Definition _generate_varied_parlays (all_legs : list Leg) (target_legs : Z)
  (sport : string) : result (list DiverseParlay.t) :=
  foldM
    (fun parlays type_combo =>
       let num_legs := target_legs in
       let selected_legs :=
         fold_left
           (fun selected_legs leg_type =>
              let legs := legs_by_type all_legs leg_type in
              if is_nil legs then selected_legs
              else
                let num_from_type := Z.max 1 (num_legs / len type_combo) in
                selected_legs ++ take num_from_type legs)
           type_combo [] in
       let selected_legs :=
         fill (Z.to_nat num_legs) all_legs selected_legs num_legs in
       if (len selected_legs >=? num_legs)%Z then
         combos <- combinations (take num_legs selected_legs) num_legs ;;
         collect combos sport parlays
       else Ok parlays)
    type_combinations [].

Section Generator.

Variable cfg : Config.
Variable env : Env.

Definition leg_count_targets : list Z := [2; 3; 4; 5; 6; 7; 8; 10; 12; 15]%Z.

Definition quality_lt (x y : DiverseParlay.t) : bool :=
  Qltb (DiverseParlay.quality_score x) (DiverseParlay.quality_score y).

Definition keep_some {A} (l : list (option A)) : list A :=
  flat_map (fun o => match o with Some a => [a] | None => [] end) l.

(** The candidates with variety: one batch per leg-count target that the
    pool can fill. *)
Definition varied_candidates (all_legs : list Leg) (sport : string)
  : result (list DiverseParlay.t) :=
  per_target <-
    mapM
      (fun target_legs =>
         if (target_legs >? len all_legs)%Z then Ok []
         else _generate_varied_parlays all_legs target_legs sport)
      leg_count_targets ;;
  Ok (List.concat per_target).

(** The candidates without variety: every combination of the first fifty
    legs, of each size in the configured range, that
    [_calculate_parlay_metrics] accepts. *)
Definition simple_candidates (all_legs : list Leg) (sport : string)
  : result (list DiverseParlay.t) :=
  per_size <-
    mapM
      (fun num_legs =>
         combos <- combinations (take 50 all_legs) num_legs ;;
         found <- mapM (fun combo => _calculate_parlay_metrics combo sport)
                    combos ;;
         Ok (keep_some found))
      (range (MIN_PARLAY_LEGS cfg)
         (Z.min (MAX_PARLAY_LEGS cfg + 1) (len all_legs + 1))) ;;
  Ok (List.concat per_size).

Definition generate_diverse_sport_parlays (games : list Game) (sport : string)
  (max_parlays : Z) (ensure_variety : bool) : result (list DiverseParlay.t) :=
  if is_nil games then Ok []
  else
    per_game <- mapM (analyze_game cfg env) games ;;
    let all_legs := List.concat per_game in
    if (len all_legs <? 2)%Z then Ok []
    else
      parlay_candidates <-
        (if ensure_variety then varied_candidates all_legs sport
         else simple_candidates all_legs sport) ;;
      let parlay_candidates := sort_desc quality_lt parlay_candidates in
      let unique_parlays := _deduplicate_parlays parlay_candidates in
      Ok (take max_parlays unique_parlays).




End Generator.
End DiverseParlayGenerator.

(** ** bankroll_manager.py *)

(** The columns of the [Bankroll] row that the stake computation reads. *)
Module Bankroll.
Record t : Type := mk {
  current_balance : Q;
  kelly_fraction : option Q;
  max_bet_size : option Q
}.
End Bankroll.

Module BankrollManager.

(** [bankroll] is the row [get_bankroll] returns. *)
Definition calculate_kelly_stake (bankroll : Bankroll.t)
  (parlay_odds true_probability : Q) : result Q :=
  let kelly_fraction := or_num (Bankroll.kelly_fraction bankroll) (25 # 100) in
  full_kelly <-
    KellyCriterion.calculate_parlay_kelly parlay_odds [true_probability] ;;
  let stake := Bankroll.current_balance bankroll * full_kelly * kelly_fraction in
  Ok (Qmax 0 (Qmin stake (or_num (Bankroll.max_bet_size bankroll) stake))).

End BankrollManager.

(** * Specification vocabulary *)

(** All pairs of a list, first component before second. *)
Fixpoint all_pairs {A} (l : list A) : list (A * A) :=
  match l with
  | [] => []
  | x :: t => map (pair x) t ++ all_pairs t
  end.

Definition Qsum (l : list Q) : Q := fold_right Qplus 0 l.

Definition pair_at {A} (l : list A) (i j : nat) : list (A * A) :=
  match nth_error l i, nth_error l j with
  | Some a, Some b => [(a, b)]
  | _, _ => []
  end.

(** The coefficient [build_parlay_score] charges a pair of legs. *)
Definition coefficient (p : Leg * Leg) : Q :=
  ResearchEngine.calculate_correlation_penalty (fst p) (snd p).

(** The coefficient table and the penalty as the specification words them:
    1.0 for the same selection, 0.9 for the same game and bet type, 0.7 for
    the same game and related bet types (moneyline against spread), 0.5 for
    the same game otherwise, 0.1 for different games; averaged over the
    pairs and capped at 1. *)
Definition related_bet_types (t1 t2 : string) : bool :=
  (String.eqb t1 "moneyline" && String.eqb t2 "spread")
  || (String.eqb t1 "spread" && String.eqb t2 "moneyline").

Definition claimed_coefficient (p : Leg * Leg) : Q :=
  let same_game := (id (game (fst p)) =? id (game (snd p)))%Z in
  if String.eqb (selection (fst p)) (selection (snd p)) then 1
  else if same_game && String.eqb (bet_type (fst p)) (bet_type (snd p)) then 9 # 10
  else if same_game && related_bet_types (bet_type (fst p)) (bet_type (snd p))
  then 7 # 10
  else if same_game then 5 # 10
  else 1 # 10.

Definition claimed_penalty (legs : list Leg) : Q :=
  Qmin (Qsum (map claimed_coefficient (all_pairs legs))
        / inject_Z (len (all_pairs legs))) 1.

(** The ratio the specification ties the diversification bonus to: distinct
    games used over number of legs. *)
Definition games_ratio (legs : list Leg) : Q :=
  inject_Z (len (set_of (map (fun leg => id (game leg)) legs)))
  / inject_Z (len legs).

(** ** Sample data *)

Module Samples.

Definition nba (i : Z) (home away : string) : Game :=
  mkGame i "NBA" home away None None None None None None None None.

Definition g1 : Game := nba 1 "Lakers" "Celtics".
Definition g2 : Game := nba 2 "Bulls" "Knicks".
Definition g3 : Game := nba 3 "Heat" "Nets".
Definition g4 : Game := nba 4 "Suns" "Jazz".
Definition g5 : Game := nba 5 "Kings" "Spurs".

(** A leg at odds -110: implied probability 11/21, estimated 0.55. *)
Definition pick (g : Game) (bt sel : string) : Leg :=
  mkLeg g bt sel (- (110)) (11 # 21) (Some (55 # 100)) (5 # 100) (62 # 100) [].

Definition over_leg : Leg := pick g1 "prop" "Over 25.5".
Definition under_leg : Leg := pick g1 "prop" "Under 7.5".
Definition bulls_leg : Leg := pick g2 "moneyline" "Bulls".
Definition heat_leg : Leg := pick g3 "moneyline" "Heat".

End Samples.

(** Candidates for the selection pass: five three-leg combinations on the
    games 1 and 2, scored 0.90 down to 0.70, and one combination on the games
    3, 4 and 5 scored 0.50. *)
Module SelectionSample.
Import Samples.

Definition a1 : Leg := pick g1 "moneyline" "Lakers".
Definition a2 : Leg := pick g1 "spread" "Lakers -4.5".
Definition a3 : Leg := pick g1 "total" "Over 220.5".
Definition b1 : Leg := pick g2 "moneyline" "Bulls".
Definition b2 : Leg := pick g2 "total" "Over 210.5".
Definition c1 : Leg := pick g3 "moneyline" "Heat".
Definition d1 : Leg := pick g4 "moneyline" "Suns".
Definition e1 : Leg := pick g5 "moneyline" "Kings".

Definition candidate (legs : list Leg) (score : Q) : Parlay.t :=
  Parlay.mk legs (len legs) 600 (1 # 7) 0 "Low" (62 # 100) score false
    None false None None None None.

Definition duplicates : list (list Leg) :=
  [ [a1; a2; b1]; [a1; a3; b1]; [a2; a3; b1]; [a1; a2; b2]; [a1; a3; b2] ].

Definition distinct : list Leg := [c1; d1; e1].

Definition pool : list Parlay.t :=
  [ candidate [a1; a2; b1] (90 # 100);
    candidate [a1; a3; b1] (85 # 100);
    candidate [a2; a3; b1] (80 # 100);
    candidate [a1; a2; b2] (75 # 100);
    candidate [a1; a3; b2] (70 # 100);
    candidate distinct (50 # 100) ].

End SelectionSample.

(** A pool of nine legs with nonzero odds, and a leg whose odds are 0. *)
Module EnumerationSample.
Import Samples.

Definition at_odds (g : Game) (bt sel : string) (o ip : Q) : Leg :=
  mkLeg g bt sel o ip (Some ip) 0 (62 # 100) [].

Definition nine : list Leg :=
  [ at_odds g1 "moneyline" "Lakers" (- (110)) (11 # 21);
    at_odds g1 "total" "Over 220.5" (- (105)) (105 # 205);
    at_odds g2 "moneyline" "Bulls" 120 (100 # 220);
    at_odds g2 "total" "Over 210.5" (- (115)) (115 # 215);
    at_odds g3 "moneyline" "Heat" 150 (100 # 250);
    at_odds g3 "prop" "Over 25.5" (- (120)) (120 # 220);
    at_odds g4 "moneyline" "Suns" (- (130)) (130 # 230);
    at_odds g4 "prop" "Yes" 200 (100 # 300);
    at_odds g5 "moneyline" "Kings" 105 (100 # 205) ].

Definition void_leg : Leg := at_odds g5 "total" "Over 230.5" 0 0.

Definition ten : list Leg := nine ++ [void_leg].

End EnumerationSample.

(** ** Duplicates *)

(** A list in which no element has a smaller key than a later one. *)
Definition descending {A} (lt : A -> A -> bool) (l : list A) : Prop :=
  ForallOrdPairs (fun a b => lt a b = false) l.


(** The first element of each class of [same], in order of appearance. *)
Fixpoint first_of_each {A} (same : A -> A -> bool) (l : list A) : list A :=
  match l with
  | [] => []
  | x :: t => x :: filter (fun y => negb (same x y)) (first_of_each same t)
  end.

Definition pair_dec (a b : Z * string) : {a = b} + {a <> b}.
Proof.
  decide equality; [apply string_dec | apply Z.eq_dec].
Defined.

(** The (game, selection) pairs of two parlays compared as sets, and compared
    as collections in which a repeated pair counts as often as it occurs. *)
Definition set_eqb (a b : list (Z * string)) : bool :=
  forallb (fun x => existsb (DiverseParlayGenerator.pair_eqb x) b) a
  && forallb (fun x => existsb (DiverseParlayGenerator.pair_eqb x) a) b.

Definition bag_eqb (a b : list (Z * string)) : bool :=
  forallb
    (fun x => Nat.eqb (count_occ pair_dec a x) (count_occ pair_dec b x))
    (a ++ b).

Definition parlay_pairs (p : DiverseParlay.t) : list (Z * string) :=
  DiverseParlayGenerator.pairs_of (DiverseParlay.picks p).

Definition same_pairs_as_set (p q : DiverseParlay.t) : bool :=
  set_eqb (parlay_pairs p) (parlay_pairs q).

Definition same_pairs_as_bag (p q : DiverseParlay.t) : bool :=
  bag_eqb (parlay_pairs p) (parlay_pairs q).

(** Two parlays with equal signatures, as the loop of
    [_deduplicate_parlays] tests it. *)
Definition same_signature (p q : DiverseParlay.t) : bool :=
  DiverseParlayGenerator.sig_eqb
    (DiverseParlayGenerator.signature (DiverseParlay.picks p))
    (DiverseParlayGenerator.signature (DiverseParlay.picks q)).

Definition unseen (seen : list (list (Z * string))) (p : DiverseParlay.t) : bool :=
  negb (existsb
          (DiverseParlayGenerator.sig_eqb
             (DiverseParlayGenerator.signature (DiverseParlay.picks p)))
          seen).

(** Three-leg parlays of anytime-scorer props on the games 1 and 2, as
    [_calculate_parlay_metrics] builds them: the first has two legs on game 1,
    the second two legs on game 2, the third the pairs of the first in another
    order and with more confident legs.  Every leg's selection is "Yes". *)
Module DuplicateSample.
Import Samples.

Definition scorer (g : Game) (player : string) (confidence : Q) : Leg :=
  mkLeg g "prop" "Yes" 150 (100 # 250) (Some (42 # 100)) (5 # 100) confidence
    [("player_name", PStr player)].

Definition no_parlay : DiverseParlay.t :=
  DiverseParlay.mk [] 0 "" 0 0 0 (0, 0, 0, 0) [] 0 0 0 [].

Definition built (legs : list Leg) : DiverseParlay.t :=
  match DiverseParlayGenerator._calculate_parlay_metrics legs "NFL" with
  | Ok (Some p) => p
  | _ => no_parlay
  end.

Definition first_legs : list Leg :=
  [scorer g1 "Kelce" (62 # 100); scorer g1 "Rice" (62 # 100);
   scorer g2 "Allen" (62 # 100)].

Definition second_legs : list Leg :=
  [scorer g1 "Kelce" (62 # 100); scorer g2 "Allen" (62 # 100);
   scorer g2 "Cook" (62 # 100)].

Definition stronger_legs : list Leg :=
  [scorer g2 "Kincaid" (70 # 100); scorer g1 "Worthy" (70 # 100);
   scorer g1 "Pacheco" (70 # 100)].

Definition first_parlay : DiverseParlay.t := built first_legs.
Definition second_parlay : DiverseParlay.t := built second_legs.
Definition stronger_parlay : DiverseParlay.t := built stronger_legs.

Definition pool : list DiverseParlay.t := [first_parlay; second_parlay].

Definition contest : list DiverseParlay.t :=
  [first_parlay; second_parlay; stronger_parlay].

End DuplicateSample.

(** ** A sample slate *)

(** One game with five player props, read with the untrained predictor.  The
    float formatters are stand-ins that print tenths, truncated. *)
Module SlateSample.

Definition show_Z (z : Z) : string :=
  DecimalString.NilZero.string_of_int (Z.to_int z).

Definition show_tenths (q : Q) : string :=
  let t := Qfloor (Qabs q * 10) in
  ((if Qltb q 0 then "-" else "")
   ++ show_Z (t / 10) ++ "." ++ show_Z (t mod 10))%string.

Definition over_prop (player : string) (line odds : Q) : PlayerProp :=
  mkPlayerProp 1 player "player_points" (Some line) (Some odds) None None None
    (Some "player_points") None.

Definition props : list PlayerProp :=
  [ over_prop "James" (255 # 10) (- (110));
    over_prop "Davis" (235 # 10) (- (115));
    over_prop "Tatum" (275 # 10) 120;
    over_prop "Brown" (225 # 10) (- (105));
    over_prop "White" (45 # 10) (- (2000)) ].

Definition env : Env := mkEnv Untrained.predictor props show_tenths show_tenths.

(** The same slate with a single prop row. *)
Definition thin_env : Env :=
  mkEnv Untrained.predictor (firstn 1 props) show_tenths show_tenths.

Definition lakers_celtics : Game :=
  mkGame 1 "NBA" "Lakers" "Celtics" None None None None None None None None.

(** Bounds of two to four legs. *)
Definition two_to_four : Config :=
  {| MIN_CONFIDENCE := 6 # 10; MAX_PARLAY_LEGS := 4; MIN_PARLAY_LEGS := 2 |}.

End SlateSample.

(** ** Outcomes *)

(** [m] returns a value, and the value satisfies [P]. *)
Definition returns {A} (m : result A) (P : A -> Prop) : Prop :=
  exists a, m = Ok a /\ P a.

(** The expected value a prop or market leg carries: the value computed from
    the leg's own odds and probabilities is above -0.02, and the field holds
    that value raised to 0.01 when it is lower. *)
Definition ev_floor (l : Leg) : Prop :=
  exists tp ev,
    true_probability l = Some tp
    /\ ResearchEngine.calculate_expected_value (implied_probability l) tp (odds l)
       = Ok ev
    /\ - (2 # 100) < ev
    /\ expected_value l = Qmax ev (1 # 100)
    /\ 1 # 100 <= expected_value l.


(** ** Pools and bounds *)

(** The legs [analyze_game] returns for a game, and the pool of a slate. *)
Definition legs_of (cfg : Config) (env : Env) (g : Game) : list Leg :=
  match ResearchEngine.analyze_game cfg env g with
  | Ok legs => legs
  | Raise _ => []
  end.

Definition pool_of (cfg : Config) (env : Env) (games : list Game) : list Leg :=
  flat_map (legs_of cfg env) games.

(** Leg counts of a candidate of [generate_parlays]: a same-game parlay has
    between [max(MIN_PARLAY_LEGS, 4)] and 8 legs, a cross-game parlay between
    [MIN_PARLAY_LEGS] and [MAX_PARLAY_LEGS]. *)
Definition in_bounds (cfg : Config) (p : Parlay.t) : Prop :=
  Parlay.num_legs p = len (Parlay.legs p)
  /\ if Parlay.is_sgp p
     then (Z.max (MIN_PARLAY_LEGS cfg) 4 <= len (Parlay.legs p) <= 8)%Z
     else (MIN_PARLAY_LEGS cfg <= len (Parlay.legs p) <= MAX_PARLAY_LEGS cfg)%Z.


(** Two candidate dictionaries with the same legs, leg count and same-game
    flag. *)
Definition same_shape (p q : Parlay.t) : Prop :=
  Parlay.legs p = Parlay.legs q
  /\ Parlay.num_legs p = Parlay.num_legs q
  /\ Parlay.is_sgp p = Parlay.is_sgp q.


(** The coefficient [optimize_parlay_selection] reads for a pair of legs. *)
Definition dict_coefficient (p : Leg * Leg) : Q :=
  CorrelationMatrix._calculate_dict_correlation (fst p) (snd p).

(** Two legs on the same game, as [_calculate_dict_correlation] tests it: by
    game id, else by both team names. *)
Definition same_game (leg1 leg2 : Leg) : bool :=
  (id (game leg1) =? id (game leg2))%Z
  || (String.eqb (home_team (game leg1)) (home_team (game leg2))
      && String.eqb (away_team (game leg1)) (away_team (game leg2))).

(** ** Priced legs *)

(** The confidence [calculate_confidence_score] gives a bet type: one of four
    values on a moneyline, 0.62 on a prop, 0.6 on a fighter moneyline and the
    base 0.5 on every other type. *)
Definition confidence_for (bet_type : string) (c : Q) : Prop :=
  if String.eqb bet_type "moneyline"
  then c == 5 # 10 \/ c == 55 # 100 \/ c == 6 # 10 \/ c == 65 # 100
  else if String.eqb bet_type "prop" then c == 62 # 100
  else if String.eqb bet_type "fighter_moneyline" then c == 6 # 10
  else c == 5 # 10.

(** A leg as [analyze_game] builds it for the game [g]: on that game, at
    nonzero odds, carrying the implied probability of its own odds, a positive
    [expected_value], the confidence of its bet type, and a confidence that
    passed the configured threshold or nine tenths of it. *)
Definition priced (cfg : Config) (g : Game) (l : Leg) : Prop :=
  game l = g
  /\ ~ odds l == 0
  /\ ResearchEngine.american_to_implied_prob (odds l) = Ok (implied_probability l)
  /\ 0 < expected_value l
  /\ confidence_for (bet_type l) (confidence_score l)
  /\ (MIN_CONFIDENCE cfg <= confidence_score l
      \/ MIN_CONFIDENCE cfg * (9 # 10) <= confidence_score l).

(** The part of [priced] that does not name the game or the configuration. *)
Definition fairly_priced (l : Leg) : Prop :=
  ~ odds l == 0
  /\ ResearchEngine.american_to_implied_prob (odds l) = Ok (implied_probability l).

Definition Qprod (l : list Q) : Q := fold_right Qmult 1 l.

(** The number of [k]-element sub-sequences of a list of [n] elements. *)
Fixpoint choose (n k : nat) : nat :=
  match k with
  | O => 1
  | S k' =>
      match n with
      | O => 0
      | S n' => choose n' k' + choose n' k
      end
  end.

(** Two candidate dictionaries that agree on every key a generator sets
    when it builds the candidate; the keys [optimize_parlay_selection] and
    the Kelly step add later may differ. *)
Definition same_parlay (p q : Parlay.t) : Prop :=
  Parlay.legs p = Parlay.legs q
  /\ Parlay.num_legs p = Parlay.num_legs q
  /\ Parlay.combined_odds p = Parlay.combined_odds q
  /\ Parlay.implied_probability p = Parlay.implied_probability q
  /\ Parlay.expected_value p = Parlay.expected_value q
  /\ Parlay.confidence_rating p = Parlay.confidence_rating q
  /\ Parlay.confidence_score p = Parlay.confidence_score q
  /\ Parlay.score p = Parlay.score q
  /\ Parlay.has_props p = Parlay.has_props q
  /\ Parlay.prop_count p = Parlay.prop_count q
  /\ Parlay.is_sgp p = Parlay.is_sgp q
  /\ Parlay.game p = Parlay.game q.

(** A leg priced for one of the games of a slate. *)
Definition priced_in (cfg : Config) (games : list Game) (l : Leg) : Prop :=
  exists g, In g games /\ priced cfg g l.

(** What a candidate of priced legs carries: expected value 0, and a
    confidence between 0.5 and 0.65 that is never rated High. *)
Definition candidate_facts (p : Parlay.t) : Prop :=
  Parlay.expected_value p == 0
  /\ 5 # 10 <= Parlay.confidence_score p <= 65 # 100
  /\ Parlay.confidence_rating p <> "High".

(** ** Correlation matrix and selection *)

(** The entry [matrix[i][j]]. *)
Definition entry (matrix : list (list Q)) (i j : nat) : Q :=
  nth j (nth i matrix []) 0.

(** A candidate [c] as [optimize_parlay_selection] scores it: the same
    dictionary with the average correlation of its legs, between 0.1 and
    0.9, and the score raised by a fifth of one minus that average. *)
Definition scored_version (c p : Parlay.t) : Prop :=
  same_parlay p c
  /\ Parlay.recommended_stake_pct p = Parlay.recommended_stake_pct c
  /\ exists avg,
       Parlay.avg_correlation p = Some avg
       /\ 1 # 10 <= avg <= 9 # 10
       /\ Parlay.adjusted_score p
          = Some (Parlay.score c + (1 - avg) * (2 # 10)).

(** ** Diverse parlays *)

(** What [_calculate_parlay_metrics] puts in a parlay it accepts for the
    legs [legs]. *)
Definition accepted (legs : list Leg) (sport : string) (p : DiverseParlay.t)
  : Prop :=
  DiverseParlay.picks p = legs
  /\ DiverseParlay.legs p = legs
  /\ DiverseParlay.sport p = sport
  /\ DiverseParlay.num_legs p = len legs
  /\ (2 <= len legs)%Z
  /\ DiverseParlay.num_games p = len (set_of (map (fun leg => id (game leg)) legs))
  /\ (2 <= DiverseParlay.num_games p)%Z
  /\ (DiverseParlay.num_legs p <= 2 * DiverseParlay.num_games p)%Z
  /\ Forall (fun l => ~ odds l == 0) legs
  /\ 1 < DiverseParlay.decimal_odds p
  /\ (exists d,
        ResearchEngine.american_to_decimal (DiverseParlay.combined_odds p) = Ok d
        /\ d == DiverseParlay.decimal_odds p)
  /\ DiverseParlay.combined_confidence p == Qprod (map confidence_score legs)
  /\ DiverseParlay.avg_expected_value p
     == Qsum (map expected_value legs) / inject_Z (len legs).

(** ** Stakes and metrics *)

(** The total [optimize_stakes] scales the stakes down to: the given
    [max_total_stake], or a tenth of the bankroll. *)
Definition stake_cap (bankroll : Q) (max_total_stake : option Q) : Q :=
  match max_total_stake with
  | None => bankroll * (1 # 10)
  | Some m => m
  end.


(** A settled parlay that carries the rating [r]. *)
Definition rated (r : string) (parlay : ParlayRow.t) : bool :=
  AdvancedMetrics.settled parlay
  && match ParlayRow.confidence_rating parlay with
     | Some x => String.eqb r x
     | None => false
     end.

(** Wins over settled parlays among those rated [r]; 0 when there is none. *)
Definition accuracy_of (r : string) (parlays : list ParlayRow.t) : Q :=
  let total := len (filter (rated r) parlays) in
  let wins :=
    len (filter (fun p => rated r p && AdvancedMetrics.won p) parlays) in
  if (0 <? total)%Z then inject_Z wins / inject_Z total else 0.

(** The probability [predict_prop_probability] gives a selection whose odds
    are set: the implied probability raised by 5%, capped at 0.95. *)
Definition boosted (o : Q) : Q :=
  Qmin (Untrained._american_to_implied_prob o * (105 # 100)) (95 # 100).

(** A prop leg estimated at the boosted probability of its own odds: its
    expected value is at most 5%, and exactly 5% unless the cap applies. *)
Definition boosted_prop (l : Leg) : Prop :=
  bet_type l = "prop"
  /\ true_probability l
     = Some (Qmin (implied_probability l * (105 # 100)) (95 # 100))
  /\ expected_value l <= 5 # 100
  /\ (implied_probability l <= 95 # 105 -> expected_value l == 5 # 100).








(** * Properties *)

(** ** Comparisons and division *)

Lemma Qltb_true (a b : Q) : Qltb a b = true <-> a < b.
Proof.
  unfold Qltb. rewrite negb_true_iff. split; intro H.
  - apply Qnot_le_lt. intro L. apply Qle_bool_iff in L. congruence.
  - destruct (Qle_bool b a) eqn:E; [|reflexivity].
    apply Qle_bool_iff in E. exfalso. eapply Qlt_not_le; eauto.
Qed.

Lemma Qltb_false (a b : Q) : Qltb a b = false <-> b <= a.
Proof.
  unfold Qltb. rewrite negb_false_iff. apply Qle_bool_iff.
Qed.

Lemma div_ok (a b : Q) : ~ b == 0 -> div a b = Ok (a / b).
Proof.
  intro H. unfold div. destruct (Qeq_bool b 0) eqn:E; [|reflexivity].
  apply Qeq_bool_iff in E. contradiction.
Qed.

Lemma div_zero (a b : Q) : b == 0 -> div a b = Raise ZeroDivisionError.
Proof.
  intro H. unfold div. apply Qeq_bool_iff in H. now rewrite H.
Qed.

Lemma Qabs_nonzero (x : Q) : ~ x == 0 -> ~ Qabs x == 0.
Proof.
  intros H A. apply H. revert A. apply Qabs_case; intros; lra.
Qed.

Lemma Qabs_pos_of_nonzero (x : Q) : ~ x == 0 -> 0 < Qabs x.
Proof.
  intro H. pose proof (Qabs_nonneg x). pose proof (Qabs_nonzero x H). lra.
Qed.

(** ** Odds arithmetic *)

Module OddsFacts.
Import ResearchEngine.

Lemma american_to_decimal_pos (o : Q) :
  0 < o -> american_to_decimal o = Ok (o / 100 + 1).
Proof.
  intro H. unfold american_to_decimal. apply Qltb_true in H. rewrite H.
  rewrite div_ok by (intro E; discriminate E). reflexivity.
Qed.

Lemma american_to_decimal_neg (o : Q) :
  o < 0 -> american_to_decimal o = Ok (100 / Qabs o + 1).
Proof.
  intro H. unfold american_to_decimal.
  assert (F : Qltb 0 o = false) by (apply Qltb_false; lra).
  rewrite F. rewrite div_ok; [reflexivity|]. apply Qabs_nonzero. lra.
Qed.

Lemma american_to_decimal_zero (o : Q) :
  o == 0 -> american_to_decimal o = Raise ZeroDivisionError.
Proof.
  intro H. unfold american_to_decimal.
  assert (F : Qltb 0 o = false) by (apply Qltb_false; lra).
  rewrite F. rewrite div_zero; [reflexivity|]. rewrite H. reflexivity.
Qed.

(** C5.  [american_to_decimal] returns [odds/100 + 1] on positive odds and
    [100/abs(odds) + 1] on negative odds; on odds equal to 0 it returns no
    value and raises [ZeroDivisionError]. *)
Theorem american_to_decimal_cases (american_odds : Q) :
  (0 < american_odds ->
     american_to_decimal american_odds = Ok (american_odds / 100 + 1))
  /\ (american_odds < 0 ->
     american_to_decimal american_odds = Ok (100 / Qabs american_odds + 1))
  /\ (american_odds == 0 ->
     american_to_decimal american_odds = Raise ZeroDivisionError).
Proof.
  split; [apply american_to_decimal_pos|].
  split; [apply american_to_decimal_neg|apply american_to_decimal_zero].
Qed.

Lemma american_to_decimal_cases_witness :
  american_to_decimal 150 = Ok (150 / 100 + 1)
  /\ american_to_decimal (- (110)) = Ok (100 / Qabs (- (110)) + 1)
  /\ american_to_decimal 0 = Raise ZeroDivisionError.
Proof.
  split; [|split].
  - apply (american_to_decimal_cases 150). reflexivity.
  - apply (american_to_decimal_cases (- (110))). reflexivity.
  - apply (american_to_decimal_cases 0). reflexivity.
Defined.

Lemma american_to_decimal_nonzero (o : Q) :
  ~ o == 0 -> exists d, american_to_decimal o = Ok d /\ 1 < d.
Proof.
  intro H. destruct (Qlt_le_dec 0 o) as [P|N].
  - exists (o / 100 + 1). split.
    + now apply american_to_decimal_pos.
    + assert (0 < o / 100) by (apply Qlt_shift_div_l; lra). lra.
  - assert (L : o < 0) by lra.
    exists (100 / Qabs o + 1). split.
    + now apply american_to_decimal_neg.
    + pose proof (Qabs_pos_of_nonzero o H).
      assert (0 < 100 / Qabs o) by (apply Qlt_shift_div_l; lra). lra.
Qed.

Lemma american_to_implied_prob_total (o : Q) :
  american_to_implied_prob o
  = Ok (if Qltb 0 o then 100 / (o + 100) else Qabs o / (Qabs o + 100)).
Proof.
  unfold american_to_implied_prob. destruct (Qltb 0 o) eqn:E.
  - apply Qltb_true in E. apply div_ok. lra.
  - apply div_ok. pose proof (Qabs_nonneg o). lra.
Qed.

(** C8.  A leg whose true probability is the probability implied by its
    nonzero odds has expected value 0, for positive and for negative odds. *)
Theorem fair_bet_has_zero_ev (odds : Q) :
  ~ odds == 0 ->
  exists implied ev,
    american_to_implied_prob odds = Ok implied
    /\ calculate_expected_value implied implied odds = Ok ev
    /\ ev == 0.
Proof.
  intro H. rewrite american_to_implied_prob_total.
  unfold calculate_expected_value.
  destruct (Qlt_le_dec 0 odds) as [P|N].
  - rewrite (american_to_decimal_pos odds P).
    apply Qltb_true in P as B. rewrite B.
    eexists; eexists. split; [reflexivity|]. split; [reflexivity|].
    cbn [bind]. field. lra.
  - assert (L : odds < 0) by lra.
    rewrite (american_to_decimal_neg odds L).
    assert (F : Qltb 0 odds = false) by (apply Qltb_false; lra).
    rewrite F.
    eexists; eexists. split; [reflexivity|]. split; [reflexivity|].
    cbn [bind]. pose proof (Qabs_pos_of_nonzero odds H). field. lra.
Qed.

Lemma fair_bet_has_zero_ev_witness :
  exists implied ev,
    american_to_implied_prob (- (110)) = Ok implied
    /\ calculate_expected_value implied implied (- (110)) = Ok ev
    /\ ev == 0.
Proof.
  apply (fair_bet_has_zero_ev (- (110))). intro E. discriminate E.
Defined.

End OddsFacts.

(** ** Index loops *)


Lemma range_nat (a b : nat) :
  range (Z.of_nat a) (Z.of_nat b) = map Z.of_nat (seq a (b - a)).
Proof.
  unfold range. replace (Z.to_nat (Z.of_nat b - Z.of_nat a)) with (b - a)%nat by lia.
  generalize (b - a)%nat as k. intro k.
  assert (G : forall s,
    map (fun i => (Z.of_nat a + Z.of_nat i)%Z) (seq s k)
    = map Z.of_nat (seq (a + s) k)).
  { induction k as [|k IH]; intro s; [reflexivity|].
    cbn [seq map]. f_equal; [lia|].
    replace (S (a + s)) with (a + S s)%nat by lia. apply IH. }
  rewrite G. now rewrite Nat.add_0_r.
Qed.

Lemma flat_map_ext_in {A B} (f g : A -> list B) (l : list A) :
  (forall x, In x l -> f x = g x) -> flat_map f l = flat_map g l.
Proof.
  induction l as [|x t IH]; intro H; [reflexivity|].
  cbn. rewrite (H x) by (now left). f_equal. apply IH. intros; apply H. now right.
Qed.

Lemma pairs_by_index_nat {A} (l : list A) :
  pairs_by_index l
  = flat_map
      (fun i => flat_map (pair_at l i) (seq (S i) (List.length l - S i)))
      (seq 0 (List.length l)).
Proof.
  unfold pairs_by_index, len.
  change 0%Z with (Z.of_nat 0). rewrite range_nat, Nat.sub_0_r.
  rewrite flat_map_concat_map, map_map, <- flat_map_concat_map.
  apply flat_map_ext_in. intros i _.
  replace (Z.of_nat i + 1)%Z with (Z.of_nat (S i)) by lia.
  rewrite range_nat.
  rewrite flat_map_concat_map, map_map, <- flat_map_concat_map.
  apply flat_map_ext_in. intros j _.
  unfold pair_at. now rewrite !Nat2Z.id.
Qed.

Lemma row_pairs {A} (x : A) (t : list A) :
  flat_map (pair_at (x :: t) 0) (seq 1 (List.length t)) = map (pair x) t.
Proof.
  rewrite <- seq_shift, flat_map_concat_map, map_map, <- flat_map_concat_map.
  induction t as [|y t IH] using rev_ind; [reflexivity|].
  rewrite length_app, Nat.add_1_r, seq_S, flat_map_app, map_app. cbn [flat_map].
  rewrite app_nil_r. f_equal.
  - rewrite <- IH. apply flat_map_ext_in. intros j Hj.
    apply in_seq in Hj. unfold pair_at. cbn [nth_error].
    rewrite nth_error_app1 by lia. reflexivity.
  - unfold pair_at. cbn [nth_error Nat.add].
    rewrite nth_error_app2 by lia. rewrite Nat.sub_diag. reflexivity.
Qed.

(** The index loops visit exactly the pairs of the list, in order. *)
Lemma pairs_by_index_all {A} (l : list A) : pairs_by_index l = all_pairs l.
Proof.
  rewrite pairs_by_index_nat.
  induction l as [|x t IH]; [reflexivity|].
  cbn [List.length seq flat_map all_pairs].
  replace (S (List.length t) - 1)%nat with (List.length t) by lia.
  rewrite row_pairs. f_equal.
  rewrite <- IH, <- seq_shift.
  rewrite flat_map_concat_map, map_map, <- flat_map_concat_map.
  apply flat_map_ext_in. intros i _.
  replace (S (List.length t) - S (S i))%nat with (List.length t - S i)%nat by lia.
  rewrite <- seq_shift.
  rewrite flat_map_concat_map, map_map, <- flat_map_concat_map.
  apply flat_map_ext_in. intros j _. reflexivity.
Qed.

(** A list of [k] elements has [k * (k - 1) / 2] pairs. *)
Lemma all_pairs_length {A} (l : list A) :
  (2 * List.length (all_pairs l) = List.length l * (List.length l - 1))%nat.
Proof.
  induction l as [|x t IH]; [reflexivity|].
  cbn [all_pairs List.length]. rewrite length_app, length_map. nia.
Qed.

Lemma fold_left_Qplus_acc {A} (f : A -> Q) (l : list A) (acc : Q) :
  fold_left (fun a x => a + f x) l acc == acc + Qsum (map f l).
Proof.
  revert acc. induction l as [|x t IH]; intro acc; cbn [fold_left map].
  - unfold Qsum. cbn [fold_right]. lra.
  - rewrite IH. change (Qsum (f x :: map f t)) with (f x + Qsum (map f t)). lra.
Qed.

Lemma Qsum_bounds_gen (l : list Q) (lo hi : Q) :
  Forall (fun q => lo <= q <= hi) l ->
  inject_Z (len l) * lo <= Qsum l <= inject_Z (len l) * hi.
Proof.
  unfold len. induction 1 as [|q t Hq Ht IH].
  - unfold Qsum. cbn [List.length fold_right Z.of_nat].
    change (inject_Z 0) with 0. lra.
  - change (Qsum (q :: t)) with (q + Qsum t).
    cbn [List.length]. rewrite Nat2Z.inj_succ. unfold Z.succ.
    rewrite inject_Z_plus. change (inject_Z 1) with 1. nra.
Qed.

(** ** Correlation matrix *)

Module MatrixFacts.
Import CorrelationMatrix.

Lemma triu_from_rows (row : nat -> list Q) (k m : nat) :
  triu_from k (map row (seq k m)) = flat_map (fun i => skipn (S i) (row i)) (seq k m).
Proof.
  revert k. induction m as [|m IH]; intro k; [reflexivity|].
  cbn [seq map triu_from flat_map]. now rewrite IH.
Qed.

Lemma entries_of_row (legs : list Leg) (i : nat) (js : list nat) :
  Forall (fun j => (i < j)%nat) js ->
  map
    (fun j =>
       if Nat.eqb i j then 1
       else
         match nth_error legs (Nat.min i j), nth_error legs (Nat.max i j) with
         | Some leg1, Some leg2 => _calculate_dict_correlation leg1 leg2
         | _, _ => 0
         end) js
  = map
      (fun j =>
         match nth_error legs i, nth_error legs j with
         | Some leg1, Some leg2 => _calculate_dict_correlation leg1 leg2
         | _, _ => 0
         end) js.
Proof.
  intro H. apply map_ext_in. intros j Hj. rewrite Forall_forall in H.
  specialize (H j Hj).
  rewrite (proj2 (Nat.eqb_neq i j)) by lia.
  rewrite Nat.min_l, Nat.max_r by lia. reflexivity.
Qed.

Lemma entries_are_pairs (legs : list Leg) (i : nat) (js : list nat) :
  (i < List.length legs)%nat ->
  Forall (fun j => (j < List.length legs)%nat) js ->
  map
    (fun j =>
       match nth_error legs i, nth_error legs j with
       | Some leg1, Some leg2 => _calculate_dict_correlation leg1 leg2
       | _, _ => 0
       end) js
  = map dict_coefficient (flat_map (pair_at legs i) js).
Proof.
  intros Hi. induction 1 as [|j js Hj _ IH]; [reflexivity|].
  cbn [map flat_map]. rewrite map_app, <- IH. unfold pair_at.
  destruct (nth_error legs i) as [a|] eqn:Ei;
    [|apply nth_error_None in Ei; lia].
  destruct (nth_error legs j) as [b|] eqn:Ej;
    [|apply nth_error_None in Ej; lia].
  reflexivity.
Qed.

(** The entries above the diagonal are the coefficients of the pairs of
    legs, in order. *)
Lemma triu_is_pairs (legs : list Leg) :
  triu_from 0 (build_correlation_matrix legs)
  = map dict_coefficient (all_pairs legs).
Proof.
  unfold build_correlation_matrix. rewrite triu_from_rows.
  rewrite <- pairs_by_index_all, pairs_by_index_nat.
  rewrite flat_map_concat_map, (flat_map_concat_map _ (seq 0 (List.length legs))).
  rewrite concat_map, map_map. f_equal.
  apply map_ext_in. intros i Hi. apply in_seq in Hi.
  rewrite skipn_map, skipn_seq. cbn [Nat.add].
  rewrite entries_of_row.
  - apply entries_are_pairs; [lia|].
    apply Forall_forall. intros j Hj. apply in_seq in Hj. lia.
  - apply Forall_forall. intros j Hj. apply in_seq in Hj. lia.
Qed.

(** The table of [_calculate_dict_correlation]. *)
Lemma dict_coefficient_cases (leg1 leg2 : Leg) :
  dict_coefficient (leg1, leg2)
  = if same_game leg1 leg2 then
      if String.eqb (bet_type leg1) (bet_type leg2) then 9 # 10
      else if String.eqb (bet_type leg1) "moneyline"
              && String.eqb (bet_type leg2) "spread" then 7 # 10
      else 5 # 10
    else 1 # 10.
Proof.
  unfold dict_coefficient, _calculate_dict_correlation, same_game. cbn [fst snd].
  destruct (id (game leg1) =? id (game leg2))%Z; cbn [orb]; [reflexivity|].
  destruct (String.eqb (home_team (game leg1)) (home_team (game leg2))
            && String.eqb (away_team (game leg1)) (away_team (game leg2)));
    reflexivity.
Qed.

End MatrixFacts.

(** ** Composite score *)

Module ScoreFacts.
Import ResearchEngine.

Lemma coefficient_cases (leg1 leg2 : Leg) :
  (id (game leg1) = id (game leg2) ->
     calculate_correlation_penalty leg1 leg2 = 5 # 10)
  /\ (id (game leg1) <> id (game leg2) -> selection leg1 = selection leg2 ->
     calculate_correlation_penalty leg1 leg2 = 3 # 10)
  /\ (id (game leg1) <> id (game leg2) -> selection leg1 <> selection leg2 ->
     calculate_correlation_penalty leg1 leg2 = 1 # 10).
Proof.
  unfold calculate_correlation_penalty. repeat split.
  - intro E. apply Z.eqb_eq in E. now rewrite E.
  - intros N E. apply Z.eqb_neq in N. rewrite N.
    apply String.eqb_eq in E. now rewrite E.
  - intros N D. apply Z.eqb_neq in N. rewrite N.
    apply String.eqb_neq in D. now rewrite D.
Qed.

Lemma coefficient_range (p : Leg * Leg) : 1 # 10 <= coefficient p <= 5 # 10.
Proof.
  unfold coefficient, calculate_correlation_penalty.
  destruct (id (game (fst p)) =? id (game (snd p)))%Z;
    [|destruct (String.eqb (selection (fst p)) (selection (snd p)))];
    split; discriminate.
Qed.

Lemma penalty_loop_sum (ps : list (Leg * Leg)) (acc : Q) :
  fold_left (fun acc '(a, b) => acc + calculate_correlation_penalty a b) ps acc
  == acc + Qsum (map coefficient ps).
Proof.
  revert acc. induction ps as [|[a b] t IH]; intro acc; cbn [fold_left map].
  - unfold Qsum. cbn [fold_right]. lra.
  - rewrite IH.
    change (Qsum (coefficient (a, b) :: map coefficient t))
      with (coefficient (a, b) + Qsum (map coefficient t)).
    unfold coefficient at 2. cbn [fst snd]. lra.
Qed.

Lemma pair_count (legs : list Leg) :
  inject_Z (len legs) * (inject_Z (len legs) - 1) / 2
  == inject_Z (len (all_pairs legs)).
Proof.
  pose proof (all_pairs_length legs) as H. unfold len.
  assert (Hz : (2 * Z.of_nat (List.length (all_pairs legs))
                = Z.of_nat (List.length legs) * (Z.of_nat (List.length legs) - 1))%Z)
    by nia.
  assert (E : inject_Z (Z.of_nat (List.length legs))
               * (inject_Z (Z.of_nat (List.length legs)) - 1)
               == 2 * inject_Z (Z.of_nat (List.length (all_pairs legs)))).
  { change 2 with (inject_Z 2). change 1 with (inject_Z 1).
    unfold Qminus. rewrite <- inject_Z_opp, <- inject_Z_plus, <- !inject_Z_mult.
    rewrite Hz. reflexivity. }
  rewrite E. field.
Qed.

Lemma Qsum_bounds_map (ps : list (Leg * Leg)) :
  inject_Z (len ps) * (1 # 10) <= Qsum (map coefficient ps)
  <= inject_Z (len ps) * (5 # 10).
Proof.
  replace (len ps) with (len (map coefficient ps))
    by (unfold len; now rewrite length_map).
  apply Qsum_bounds_gen. apply Forall_forall. intros q Hq.
  apply in_map_iff in Hq as [p [<- _]]. apply coefficient_range.
Qed.

Lemma inject_len_pos {A} (l : list A) (k : Z) :
  (k <= len l)%Z -> (0 < k)%Z -> 0 < inject_Z (len l).
Proof.
  intros H K. change 0 with (inject_Z 0). rewrite <- Zlt_Qlt. lia.
Qed.

Lemma two_legs_have_a_pair (legs : list Leg) :
  (2 <= List.length legs)%nat -> 0 < inject_Z (len (all_pairs legs)).
Proof.
  intro H. pose proof (all_pairs_length legs) as P.
  change 0 with (inject_Z 0). rewrite <- Zlt_Qlt. unfold len. nia.
Qed.

(** The value of the penalty: the mean coefficient of the pairs. *)
Lemma correlation_penalty_value (legs : list Leg) :
  (2 <= List.length legs)%nat ->
  exists q,
    correlation_penalty_of legs = Ok q
    /\ q == Qsum (map coefficient (all_pairs legs))
            / inject_Z (len (all_pairs legs))
    /\ 1 # 10 <= q <= 5 # 10.
Proof.
  intro H.
  pose proof (two_legs_have_a_pair legs H) as Hpos.
  pose proof (pair_count legs) as Hcount.
  set (total := Qsum (map coefficient (all_pairs legs))).
  assert (Hsum : fold_left
                   (fun acc '(a, b) => acc + calculate_correlation_penalty a b)
                   (pairs_by_index legs) 0 == total).
  { rewrite pairs_by_index_all, penalty_loop_sum. unfold total. lra. }
  assert (Hb : inject_Z (len (all_pairs legs)) * (1 # 10) <= total
               <= inject_Z (len (all_pairs legs)) * (5 # 10)).
  { apply Qsum_bounds_map. }
  assert (Havg : 1 # 10 <= total / inject_Z (len (all_pairs legs)) <= 5 # 10).
  { split.
    - apply Qle_shift_div_l; [exact Hpos|]. lra.
    - apply Qle_shift_div_r; [exact Hpos|]. lra. }
  unfold correlation_penalty_of.
  rewrite (div_ok _ 2) by discriminate. cbn [bind].
  rewrite div_ok by (rewrite Hcount; lra). cbn [bind].
  eexists. split; [reflexivity|].
  assert (Hq : Qmin
                 (fold_left
                    (fun acc '(a, b) => acc + calculate_correlation_penalty a b)
                    (pairs_by_index legs) 0
                  / (inject_Z (len legs) * (inject_Z (len legs) - 1) / 2)) 1
               == total / inject_Z (len (all_pairs legs))).
  { rewrite Hsum, Hcount. apply Q.min_l. lra. }
  split; [exact Hq|].
  rewrite Hq. exact Havg.
Qed.

(** C1 (as the code has it).  For a candidate of at least two legs the
    penalty of [build_parlay_score] is taken over the pairs [i < j] of the
    legs, of which there are [k * (k - 1) / 2]; a pair counts 0.5 when both
    legs are on the same game, 0.3 when the games differ and the selections
    agree, and 0.1 otherwise; the sum is divided by the number of pairs and
    capped at 1, so that it lies between 0.1 and 0.5.  The table 0.9 / 0.7 /
    0.5 / 0.1 is that of [_calculate_dict_correlation], whose mean over the
    same pairs is the average correlation of [optimize_parlay_selection]. *)
Theorem correlation_penalty_pairwise (legs : list Leg) :
  (2 <= List.length legs)%nat ->
  exists q,
    correlation_penalty_of legs = Ok q
    /\ pairs_by_index legs = all_pairs legs
    /\ (2 * List.length (all_pairs legs)
        = List.length legs * (List.length legs - 1))%nat
    /\ q == Qsum (map coefficient (all_pairs legs))
            / inject_Z (len (all_pairs legs))
    /\ (forall leg1 leg2, In (leg1, leg2) (all_pairs legs) ->
          (id (game leg1) = id (game leg2) -> coefficient (leg1, leg2) = 5 # 10)
          /\ (id (game leg1) <> id (game leg2) ->
              selection leg1 = selection leg2 -> coefficient (leg1, leg2) = 3 # 10)
          /\ (id (game leg1) <> id (game leg2) ->
              selection leg1 <> selection leg2 -> coefficient (leg1, leg2) = 1 # 10))
    /\ 1 # 10 <= q <= 5 # 10
    /\ CorrelationMatrix.triu_from 0 (CorrelationMatrix.build_correlation_matrix legs)
       = map dict_coefficient (all_pairs legs)
    /\ (forall leg1 leg2,
          dict_coefficient (leg1, leg2)
          = if same_game leg1 leg2 then
              if String.eqb (bet_type leg1) (bet_type leg2) then 9 # 10
              else if String.eqb (bet_type leg1) "moneyline"
                      && String.eqb (bet_type leg2) "spread" then 7 # 10
              else 5 # 10
            else 1 # 10).
Proof.
  intro H. destruct (correlation_penalty_value legs H) as [q [Hq [Hmean Hrange]]].
  exists q. split; [exact Hq|].
  split; [apply pairs_by_index_all|].
  split; [apply all_pairs_length|].
  split; [exact Hmean|].
  split; [intros leg1 leg2 _; apply coefficient_cases|].
  split; [exact Hrange|].
  split; [apply MatrixFacts.triu_is_pairs|apply MatrixFacts.dict_coefficient_cases].
Qed.

Lemma correlation_penalty_pairwise_witness :
  exists q,
    correlation_penalty_of [Samples.over_leg; Samples.bulls_leg; Samples.heat_leg]
    = Ok q
    /\ 1 # 10 <= q <= 5 # 10.
Proof.
  destruct (correlation_penalty_pairwise
              [Samples.over_leg; Samples.bulls_leg; Samples.heat_leg])
    as [q [H1 [_ [_ [_ [_ [H6 _]]]]]]].
  - cbn. lia.
  - exists q. split; assumption.
Defined.

(** C1 fails as stated: two props on the same game are a pair of the same
    game and bet type, for which the specification's table gives 0.9; the
    engine charges 0.5. *)
Lemma correlation_table_counterexample :
  exists q,
    correlation_penalty_of [Samples.over_leg; Samples.under_leg] = Ok q
    /\ q == 5 # 10
    /\ claimed_penalty [Samples.over_leg; Samples.under_leg] == 9 # 10
    /\ ~ q == claimed_penalty [Samples.over_leg; Samples.under_leg].
Proof.
  eexists. split; [vm_compute; reflexivity|].
  split; [reflexivity|]. split; [reflexivity|]. intro E. discriminate E.
Qed.

Lemma accumulate_sums (legs : list Leg) (p e c : Q) :
  exists p' e' c',
    fold_left
      (fun '(combined_implied_prob, combined_ev, avg_confidence) leg =>
         (combined_implied_prob * implied_probability leg,
          combined_ev + expected_value leg,
          avg_confidence + confidence_score leg))
      legs (p, e, c) = (p', e', c')
    /\ e' == e + Qsum (map expected_value legs)
    /\ c' == c + Qsum (map confidence_score legs).
Proof.
  revert p e c. induction legs as [|l t IH]; intros p e c; cbn [fold_left map].
  - exists p, e, c. split; [reflexivity|]. unfold Qsum. cbn [fold_right]. lra.
  - destruct (IH (p * implied_probability l) (e + expected_value l)
                (c + confidence_score l)) as [p' [e' [c' [H [He Hc]]]]].
    exists p', e', c'. split; [exact H|].
    change (Qsum (expected_value l :: map expected_value t))
      with (expected_value l + Qsum (map expected_value t)).
    change (Qsum (confidence_score l :: map confidence_score t))
      with (confidence_score l + Qsum (map confidence_score t)).
    lra.
Qed.

Lemma diversification_value (cfg : Config) (legs : list Leg) :
  MAX_PARLAY_LEGS cfg <> 0%Z ->
  diversification_of cfg legs
  = Ok (Qmin (inject_Z (len legs) / inject_Z (MAX_PARLAY_LEGS cfg)) 1).
Proof.
  intro H. unfold diversification_of. rewrite div_ok; [reflexivity|].
  intro E. apply H. apply inject_Z_injective. exact E.
Qed.

(** The value of the score. *)
Lemma build_parlay_score_value (cfg : Config) (weights : Weights)
  (legs : list Leg) :
  (MIN_PARLAY_LEGS cfg <= len legs)%Z ->
  (2 <= len legs)%Z ->
  MAX_PARLAY_LEGS cfg <> 0%Z ->
  exists score penalty,
    build_parlay_score cfg weights legs = Ok score
    /\ correlation_penalty_of legs = Ok penalty
    /\ score ==
         w_value weights * (Qsum (map expected_value legs) / inject_Z (len legs))
         + w_confidence weights
           * (Qsum (map confidence_score legs) / inject_Z (len legs))
         - w_correlation weights * penalty
         + w_diversification weights
           * Qmin (inject_Z (len legs) / inject_Z (MAX_PARLAY_LEGS cfg)) 1.
Proof.
  intros Hmin Htwo Hmax.
  destruct (correlation_penalty_value legs) as [penalty [Hp _]].
  { unfold len in Htwo. lia. }
  pose proof (inject_len_pos legs 2 Htwo eq_refl) as Hn.
  unfold build_parlay_score.
  assert (F : (len legs <? MIN_PARLAY_LEGS cfg)%Z = false) by (apply Z.ltb_ge; lia).
  rewrite F. unfold accumulate.
  destruct (accumulate_sums legs 1 0 0) as [p' [e' [c' [Hacc [He Hc]]]]].
  rewrite Hacc.
  rewrite div_ok by lra. cbn [bind].
  rewrite Hp. cbn [bind].
  rewrite (diversification_value cfg legs Hmax). cbn [bind].
  rewrite div_ok by lra. cbn [bind].
  eexists; exists penalty.
  split; [reflexivity|]. split; [reflexivity|].
  rewrite He, Hc. rewrite !Qplus_0_l. reflexivity.
Qed.

(** C2 (as the code has it).  For a candidate of at least [min_legs] legs
    (and at least two), the score is
    [w_value * avg_ev + w_confidence * avg_confidence
     - w_correlation * correlation_penalty + w_diversification * bonus],
    the default weights are 0.4, 0.3, 0.2 and 0.1, and the diversification
    bonus is the number of legs over [MAX_PARLAY_LEGS], capped at 1: it depends
    on the number of legs only, not on the games used. *)
Theorem build_parlay_score_formula (cfg : Config) (weights : Weights)
  (legs : list Leg) :
  (MIN_PARLAY_LEGS cfg <= len legs)%Z ->
  (2 <= len legs)%Z ->
  MAX_PARLAY_LEGS cfg <> 0%Z ->
  exists score penalty bonus,
    build_parlay_score cfg weights legs = Ok score
    /\ correlation_penalty_of legs = Ok penalty
    /\ diversification_of cfg legs = Ok bonus
    /\ bonus = Qmin (inject_Z (len legs) / inject_Z (MAX_PARLAY_LEGS cfg)) 1
    /\ score ==
         w_value weights * (Qsum (map expected_value legs) / inject_Z (len legs))
         + w_confidence weights
           * (Qsum (map confidence_score legs) / inject_Z (len legs))
         - w_correlation weights * penalty
         + w_diversification weights * bonus
    /\ (w_value default_weights, w_confidence default_weights,
        w_correlation default_weights, w_diversification default_weights)
       = (4 # 10, 3 # 10, 2 # 10, 1 # 10).
Proof.
  intros Hmin Htwo Hmax.
  destruct (build_parlay_score_value cfg weights legs Hmin Htwo Hmax)
    as [score [penalty [Hs [Hp Hv]]]].
  exists score, penalty. eexists.
  split; [exact Hs|]. split; [exact Hp|].
  split; [apply (diversification_value cfg legs Hmax)|].
  split; [reflexivity|]. split; [exact Hv|reflexivity].
Qed.

Lemma build_parlay_score_formula_witness :
  exists score,
    build_parlay_score default_config default_weights
      [Samples.over_leg; Samples.bulls_leg; Samples.heat_leg] = Ok score.
Proof.
  destruct (build_parlay_score_formula default_config default_weights
              [Samples.over_leg; Samples.bulls_leg; Samples.heat_leg])
    as [score [_ [_ [H _]]]].
  - vm_compute. discriminate.
  - vm_compute. discriminate.
  - vm_compute. discriminate.
  - exists score. exact H.
Defined.

(** C2 fails as stated: two legs on two games and three legs on three games
    both use one distinct game per leg, and the engine's bonus is 2/15 for
    the first and 3/15 for the second, so no constant makes the bonus
    proportional to the ratio of distinct games to legs. *)
Lemma diversification_counterexample :
  let two := [Samples.over_leg; Samples.bulls_leg] in
  let three := [Samples.over_leg; Samples.bulls_leg; Samples.heat_leg] in
  games_ratio two == 1 /\ games_ratio three == 1
  /\ diversification_of default_config two = Ok (Qmin (2 / 15) 1)
  /\ diversification_of default_config three = Ok (Qmin (3 / 15) 1)
  /\ ~ exists c : Q,
         Qmin (2 / 15) 1 == c * games_ratio two
         /\ Qmin (3 / 15) 1 == c * games_ratio three.
Proof.
  cbv zeta. split; [reflexivity|]. split; [reflexivity|].
  split; [reflexivity|]. split; [reflexivity|].
  intros [c [H2 H3]].
  assert (R2 : games_ratio [Samples.over_leg; Samples.bulls_leg] == 1)
    by reflexivity.
  assert (R3 : games_ratio [Samples.over_leg; Samples.bulls_leg; Samples.heat_leg]
               == 1) by reflexivity.
  rewrite R2 in H2. rewrite R3 in H3.
  assert (E2 : Qmin (2 / 15) 1 == 2 # 15) by reflexivity.
  assert (E3 : Qmin (3 / 15) 1 == 3 # 15) by reflexivity.
  rewrite E2 in H2. rewrite E3 in H3. lra.
Qed.

End ScoreFacts.

(** ** Selection pass *)

Module SelectionFacts.
Import CorrelationMatrix.

Lemma select_diverse_prefix (scored selected : list Parlay.t)
  (used_games : list Z) (max_parlays : Z) :
  (len selected < max_parlays)%Z ->
  select_diverse scored selected used_games max_parlays
  = selected ++ firstn (Z.to_nat (max_parlays - len selected)) scored.
Proof.
  revert selected used_games.
  induction scored as [|p rest IH]; intros selected used_games H.
  - cbn [select_diverse]. now rewrite firstn_nil, app_nil_r.
  - cbn [select_diverse].
    assert (L : (len selected <? max_parlays)%Z = true) by (apply Z.ltb_lt; lia).
    rewrite L, orb_true_r.
    assert (N : len (selected ++ [p]) = (len selected + 1)%Z).
    { unfold len. rewrite length_app. cbn [List.length]. lia. }
    replace (Z.to_nat (max_parlays - len selected))
      with (S (Z.to_nat (max_parlays - len selected - 1))) by (unfold len in *; lia).
    cbn [firstn].
    destruct (len (selected ++ [p]) >=? max_parlays)%Z eqn:G.
    + apply Z.geb_le in G.
      replace (Z.to_nat (max_parlays - len selected - 1)) with 0%nat
        by (unfold len in *; lia).
      reflexivity.
    + assert (G' : (len (selected ++ [p]) < max_parlays)%Z).
      { destruct (Z.lt_ge_cases (len (selected ++ [p])) max_parlays) as [?|C];
          [assumption|]. apply Z.geb_le in C. congruence. }
      rewrite IH by lia. rewrite N.
      rewrite <- app_assoc. cbn [app].
      replace (max_parlays - (len selected + 1))%Z
        with (max_parlays - len selected - 1)%Z by lia.
      reflexivity.
Qed.

(** Whenever at least one parlay is asked for, the selection loop returns the
    first [max_parlays] candidates of the sorted list: the overlap test never
    rejects a candidate. *)
Lemma select_diverse_takes_first (scored : list Parlay.t) (max_parlays : Z) :
  (1 <= max_parlays)%Z ->
  select_diverse scored [] [] max_parlays = firstn (Z.to_nat max_parlays) scored.
Proof.
  intro H. rewrite select_diverse_prefix by (cbn; lia).
  cbn [app]. unfold len. cbn [List.length]. now rewrite Z.sub_0_r.
Qed.

(** C3.  With five top-scoring three-leg combinations on the same two games
    and a lower-scoring combination on three other games, a request for four
    parlays returns the four best same-game combinations, each on exactly
    the games 1 and 2; the distinct-game combination is not in the output. *)
Theorem same_game_duplicates_fill_the_output :
  exists out,
    optimize_parlay_selection SelectionSample.pool 4 = Ok out
    /\ map Parlay.legs out = firstn 4 SelectionSample.duplicates
    /\ Forall (fun p => parlay_games p = [1; 2]%Z) out
    /\ ~ In SelectionSample.distinct (map Parlay.legs out).
Proof.
  eexists. split; [vm_compute; reflexivity|].
  split; [reflexivity|].
  split; [repeat constructor|].
  cbn. intros [H|[H|[H|[H|[]]]]]; discriminate H.
Qed.

End SelectionFacts.

(** ** Zero odds *)

Module ZeroOddsFacts.
Import ResearchEngine ParlayOptimizer DiverseParlayGenerator.

(** The loop of [round_robin_generator] over a combination raises at a leg
    whose odds are 0. *)
Lemma round_robin_loop_raises (combo : list Leg) (l : Leg) (st : Q * Q) :
  In l combo -> odds l == 0 ->
  foldM
    (fun '(combined_implied, combined_odds) leg =>
       d <- american_to_decimal (odds leg) ;;
       Ok (combined_implied * implied_probability leg, combined_odds * d))
    combo st = Raise ZeroDivisionError.
Proof.
  intros Hin Hz. revert st.
  induction combo as [|x t IH]; intros [p o]; [contradiction|].
  cbn [foldM].
  destruct (Qeq_bool (odds x) 0) eqn:E.
  - apply Qeq_bool_iff in E. now rewrite (OddsFacts.american_to_decimal_zero _ E).
  - apply Qeq_bool_neq in E.
    destruct (OddsFacts.american_to_decimal_nonzero _ E) as [d [Hd _]].
    rewrite Hd. cbn [bind]. apply IH.
    destruct Hin as [->|Hin]; [contradiction|exact Hin].
Qed.

Lemma round_robin_raises (group_size : Z) (combo : list Leg) (l : Leg) :
  In l combo -> odds l == 0 ->
  round_robin group_size combo = Raise ZeroDivisionError.
Proof.
  intros Hin Hz. unfold round_robin.
  now rewrite (round_robin_loop_raises combo l (1, 1) Hin Hz).
Qed.

(** Division is the only operation of the generator that raises. *)
Lemma div_raises_only (a b : Q) (e : exn) :
  div a b = Raise e -> e = ZeroDivisionError.
Proof.
  unfold div. destruct (Qeq_bool b 0); congruence.
Qed.

Lemma american_to_decimal_raises_only (o : Q) (e : exn) :
  american_to_decimal o = Raise e -> e = ZeroDivisionError.
Proof.
  unfold american_to_decimal.
  destruct (Qltb 0 o).
  - destruct (div o 100) eqn:D; cbn [bind]; [discriminate|].
    intro H. inversion H. subst. eapply div_raises_only; eauto.
  - destruct (div 100 (Qabs o)) eqn:D; cbn [bind]; [discriminate|].
    intro H. inversion H. subst. eapply div_raises_only; eauto.
Qed.

Lemma to_american_raises_only (x : Q) (e : exn) :
  to_american x = Raise e -> e = ZeroDivisionError.
Proof.
  unfold to_american. destruct (Qgeb x 1); [discriminate|]. apply div_raises_only.
Qed.

Lemma round_robin_loop_raises_only (combo : list Leg) (st : Q * Q) (e : exn) :
  foldM
    (fun '(combined_implied, combined_odds) leg =>
       d <- american_to_decimal (odds leg) ;;
       Ok (combined_implied * implied_probability leg, combined_odds * d))
    combo st = Raise e -> e = ZeroDivisionError.
Proof.
  revert st. induction combo as [|x t IH]; intros [p o]; cbn [foldM bind].
  - discriminate.
  - destruct (american_to_decimal (odds x)) eqn:D; cbn [bind].
    + apply IH.
    + intro H. inversion H. subst. eapply american_to_decimal_raises_only; eauto.
Qed.

Lemma round_robin_raises_only (group_size : Z) (combo : list Leg) (e : exn) :
  round_robin group_size combo = Raise e -> e = ZeroDivisionError.
Proof.
  unfold round_robin.
  match goal with |- bind ?m _ = _ -> _ => destruct m as [[p o]|e'] eqn:L end;
    cbn [bind].
  - destruct (to_american (o - 1)) eqn:T; cbn [bind]; [discriminate|].
    intro H. inversion H. subst. eapply to_american_raises_only; eauto.
  - intro H. inversion H. subst. eapply round_robin_loop_raises_only; eauto.
Qed.

Lemma mapM_raise {A B} (f : A -> result B) (l : list A) (x : A) (e e0 : exn) :
  (forall y e', f y = Raise e' -> e' = e) ->
  In x l -> f x = Raise e0 -> mapM f l = Raise e.
Proof.
  intros Honly Hin Hx. induction l as [|y t IH]; [contradiction|].
  cbn [mapM]. destruct (f y) eqn:Fy; cbn [bind].
  - destruct Hin as [->|Hin]; [congruence|].
    rewrite (IH Hin). reflexivity.
  - now rewrite (Honly _ _ Fy).
Qed.

Lemma combs_nonempty {A} (l : list A) (r : nat) :
  (r <= List.length l)%nat -> exists c, In c (combs l r).
Proof.
  revert r. induction l as [|y t IH]; intros [|r] H; cbn [combs List.length] in *.
  - eexists; now left.
  - lia.
  - eexists; now left.
  - destruct (IH r) as [c Hc]; [lia|].
    exists (y :: c). apply in_or_app. left. now apply in_map.
Qed.

(** Every element of a list is in some combination of each size between 1
    and the length of the list. *)
Lemma combs_cover {A} (l : list A) (x : A) (r : nat) :
  In x l -> (1 <= r <= List.length l)%nat ->
  exists c, In c (combs l r) /\ In x c.
Proof.
  revert r. induction l as [|y t IH]; intros r Hin Hr; [contradiction|].
  destruct r as [|r]; [lia|]. cbn [combs List.length] in *.
  destruct Hin as [->|Hin].
  - destruct (combs_nonempty t r) as [c Hc]; [lia|].
    exists (x :: c). split; [|now left].
    apply in_or_app. left. now apply in_map.
  - assert (1 <= List.length t)%nat by (destruct t; [contradiction|cbn; lia]).
    destruct r as [|r].
    + destruct (IH 1%nat Hin) as [c [Hc Hx]]; [lia|].
      exists c. split; [|exact Hx]. apply in_or_app. now right.
    + destruct (IH (S r) Hin) as [c [Hc Hx]]; [lia|].
      exists (y :: c). split; [|now right].
      apply in_or_app. left. now apply in_map.
Qed.

(** A pool with a zero-odds leg makes [round_robin_generator] raise, for
    every group size that the pool can fill. *)
Lemma round_robin_generator_raises (legs : list Leg) (l : Leg) (group_size : Z) :
  In l legs -> odds l == 0 ->
  (1 <= group_size <= len legs)%Z ->
  round_robin_generator legs group_size = Raise ZeroDivisionError.
Proof.
  intros Hin Hz Hg. unfold round_robin_generator, combinations.
  assert (F1 : (len legs <? group_size)%Z = false) by (apply Z.ltb_ge; lia).
  assert (F2 : (group_size <? 0)%Z = false) by (apply Z.ltb_ge; lia).
  rewrite F1, F2. cbn [bind].
  destruct (combs_cover legs l (Z.to_nat group_size) Hin) as [c [Hc Hl]].
  { unfold len in Hg. lia. }
  eapply mapM_raise.
  - intros y e'. apply round_robin_raises_only.
  - exact Hc.
  - eapply round_robin_raises; eauto.
Qed.

(** The sibling path: [_calculate_parlay_metrics] answers [None] for a
    combination with a zero-odds leg, before converting those odds. *)
Lemma metrics_loop_drops (legs : list Leg) (l : Leg)
  (st : Q * Q * Q * list string) :
  In l legs -> odds l == 0 -> metrics_loop legs st = Ok None.
Proof.
  intros Hin Hz. revert st.
  induction legs as [|x t IH]; intros [[[o c] e] b]; [contradiction|].
  cbn [metrics_loop].
  destruct (Qeq_bool (odds x) 0) eqn:E; [reflexivity|].
  apply Qeq_bool_neq in E.
  destruct (OddsFacts.american_to_decimal_nonzero _ E) as [d [Hd _]].
  rewrite Hd. cbn [bind]. apply IH.
  destruct Hin as [->|Hin]; [contradiction|exact Hin].
Qed.

Lemma zero_odds_combination_dropped (legs : list Leg) (l : Leg) (sport : string) :
  In l legs -> odds l == 0 -> _calculate_parlay_metrics legs sport = Ok None.
Proof.
  intros Hin Hz. unfold _calculate_parlay_metrics.
  destruct (len legs <? 2)%Z; [reflexivity|].
  match goal with |- (if ?c then _ else _) = _ => destruct c end; [reflexivity|].
  now rewrite (metrics_loop_drops legs l _ Hin Hz).
Qed.

(** C4.  On a pool of nine valid legs and one leg with odds 0,
    [round_robin_generator] raises [ZeroDivisionError], where on the nine
    valid legs alone it returns the 84 three-leg parlays.  The enumeration of
    the diverse generator, which tests the odds first, returns the same
    candidates for both pools. *)
Theorem round_robin_zero_odds_raises :
  round_robin_generator EnumerationSample.ten 3 = Raise ZeroDivisionError
  /\ match round_robin_generator EnumerationSample.nine 3 with
     | Ok out => List.length out = 84%nat
     | Raise _ => False
     end
  /\ simple_candidates default_config EnumerationSample.ten "NBA"
     = simple_candidates default_config EnumerationSample.nine "NBA"
  /\ match simple_candidates default_config EnumerationSample.nine "NBA" with
     | Ok (_ :: _) => True
     | _ => False
     end.
Proof.
  split; [vm_compute; reflexivity|].
  split; [vm_compute; reflexivity|].
  split; [vm_compute; reflexivity|].
  vm_compute. exact I.
Qed.

End ZeroOddsFacts.

(** ** Lists and loops *)

Lemma mapM_in {A B} (f : A -> result B) (l : list A) (ys : list B) (y : B) :
  mapM f l = Ok ys -> In y ys -> exists x, In x l /\ f x = Ok y.
Proof.
  revert ys. induction l as [|x t IH]; intros ys H Hy; cbn [mapM] in H.
  - inversion H. subst. contradiction.
  - destruct (f x) as [b|] eqn:Fx; cbn [bind] in H; [|discriminate].
    destruct (mapM f t) as [bs|] eqn:Ft; cbn [bind] in H; [|discriminate].
    inversion H. subst. destruct Hy as [<-|Hy].
    + exists x. split; [now left|exact Fx].
    + destruct (IH bs eq_refl Hy) as [x' [Hx' Fx']].
      exists x'. split; [now right|exact Fx'].
Qed.

Lemma mapM_const {A B} (f : A -> result B) (l : list A) (g : A -> B) :
  (forall x, In x l -> f x = Ok (g x)) -> mapM f l = Ok (map g l).
Proof.
  induction l as [|x t IH]; intro H; [reflexivity|].
  cbn [mapM map]. rewrite (H x) by (now left). cbn [bind].
  rewrite IH by (intros; apply H; now right). reflexivity.
Qed.

Lemma in_range (a b i : Z) : In i (range a b) -> (a <= i < b)%Z.
Proof.
  unfold range. intro H. apply in_map_iff in H as [k [<- Hk]].
  apply in_seq in Hk. lia.
Qed.

Lemma in_firstn {A} (n : nat) (l : list A) (x : A) :
  In x (firstn n l) -> In x l.
Proof.
  intro H. rewrite <- (firstn_skipn n l). apply in_or_app. now left.
Qed.

Lemma in_take {A} (n : Z) (l : list A) (x : A) : In x (take n l) -> In x l.
Proof.
  unfold take. destruct (n <? 0)%Z; apply in_firstn.
Qed.

Lemma insert_desc_perm {A} (lt : A -> A -> bool) (x : A) (l : list A) :
  Permutation (insert_desc lt x l) (x :: l).
Proof.
  induction l as [|y t IH]; cbn [insert_desc]; [reflexivity|].
  destruct (lt x y); [|reflexivity].
  rewrite IH. apply perm_swap.
Qed.

Lemma sort_desc_perm {A} (lt : A -> A -> bool) (l : list A) :
  Permutation (sort_desc lt l) l.
Proof.
  induction l as [|x t IH]; [reflexivity|].
  unfold sort_desc in *. cbn [fold_right].
  rewrite insert_desc_perm. now apply perm_skip.
Qed.

Lemma in_sort_desc {A} (lt : A -> A -> bool) (l : list A) (x : A) :
  In x (sort_desc lt l) -> In x l.
Proof. apply Permutation_in, sort_desc_perm. Qed.

Lemma combs_length {A} (l : list A) (r : nat) (c : list A) :
  In c (combs l r) -> List.length c = r.
Proof.
  revert r c. induction l as [|x t IH]; intros [|r] c H; cbn [combs] in H.
  - destruct H as [<-|[]]. reflexivity.
  - contradiction.
  - destruct H as [<-|[]]. reflexivity.
  - apply in_app_or in H as [H|H].
    + apply in_map_iff in H as [c' [<- Hc']]. cbn [List.length].
      f_equal. now apply IH.
    + now apply IH.
Qed.

Lemma combinations_length {A} (l : list A) (r : Z) (cs : list (list A))
  (c : list A) :
  combinations l r = Ok cs -> In c cs -> len c = r.
Proof.
  unfold combinations. destruct (r <? 0)%Z eqn:E; [discriminate|].
  intros H Hc. inversion H. subst. apply combs_length in Hc.
  apply Z.ltb_ge in E. unfold len. lia.
Qed.

Lemma len_filter_le {A} (f : A -> bool) (l : list A) :
  (len (filter f l) <= len l)%Z.
Proof.
  unfold len. induction l as [|x t IH]; cbn [filter]; [lia|].
  destruct (f x); cbn [List.length]; lia.
Qed.

Lemma len_flat_map_in {A B} (f : A -> list B) (l : list A) (x : A) :
  In x l -> (len (f x) <= len (flat_map f l))%Z.
Proof.
  unfold len. induction l as [|y t IH]; intro H; [contradiction|].
  cbn [flat_map]. rewrite length_app. destruct H as [->|H]; [lia|].
  specialize (IH H). lia.
Qed.

(** ** Sorting *)

Section SortedFacts.

Context {A : Type} (lt : A -> A -> bool).
Hypothesis lt_trans : forall x y z, lt x y = true -> lt y z = true -> lt x z = true.
Hypothesis lt_irrefl : forall x, lt x x = false.
Hypothesis lt_total : forall x y, lt x y = false -> lt y x = false -> x = y.

Lemma lt_asym (x y : A) : lt x y = true -> lt y x = false.
Proof.
  intro H. destruct (lt y x) eqn:E; [|reflexivity].
  pose proof (lt_trans _ _ _ H E) as C. now rewrite lt_irrefl in C.
Qed.

Lemma insert_asc_perm (x : A) (l : list A) :
  Permutation (insert_asc lt x l) (x :: l).
Proof.
  induction l as [|y t IH]; cbn [insert_asc]; [reflexivity|].
  destruct (lt y x); [|reflexivity].
  rewrite IH. apply perm_swap.
Qed.

Lemma sorted_perm (l : list A) : Permutation (sorted lt l) l.
Proof.
  induction l as [|x t IH]; [reflexivity|].
  unfold sorted in *. cbn [fold_right].
  rewrite insert_asc_perm. now apply perm_skip.
Qed.

Lemma insert_asc_swap (x y : A) (l : list A) :
  insert_asc lt x (insert_asc lt y l) = insert_asc lt y (insert_asc lt x l).
Proof.
  induction l as [|z t IH]; cbn [insert_asc].
  - destruct (lt y x) eqn:Eyx, (lt x y) eqn:Exy; cbn [insert_asc];
      rewrite ?Eyx, ?Exy; try reflexivity.
    + pose proof (lt_asym _ _ Eyx). congruence.
    + now rewrite (lt_total _ _ Exy Eyx).
  - destruct (lt z y) eqn:Ezy, (lt z x) eqn:Ezx; cbn [insert_asc];
      rewrite ?Ezy, ?Ezx.
    + now rewrite IH.
    + (* x <= z < y *)
      assert (Exy : lt x y = true).
      { destruct (lt x y) eqn:E; [reflexivity|].
        destruct (lt y x) eqn:E'.
        - pose proof (lt_trans _ _ _ Ezy E'). congruence.
        - rewrite (lt_total _ _ E E') in Ezx. congruence. }
      now rewrite Exy.
    + (* y <= z < x *)
      assert (Eyx : lt y x = true).
      { destruct (lt y x) eqn:E; [reflexivity|].
        destruct (lt x y) eqn:E'.
        - pose proof (lt_trans _ _ _ Ezx E'). congruence.
        - rewrite (lt_total _ _ E' E) in Ezx. congruence. }
      now rewrite Eyx.
    + destruct (lt y x) eqn:Eyx, (lt x y) eqn:Exy; cbn [insert_asc];
        rewrite ?Ezy, ?Ezx; try reflexivity.
      * pose proof (lt_asym _ _ Eyx). congruence.
      * now rewrite (lt_total _ _ Exy Eyx).
Qed.

Lemma perm_sorted (a b : list A) :
  Permutation a b -> sorted lt a = sorted lt b.
Proof.
  unfold sorted. induction 1 as [|x a b _ IH|x y a|a b c _ IH1 _ IH2];
    cbn [fold_right].
  - reflexivity.
  - now rewrite IH.
  - apply insert_asc_swap.
  - now rewrite IH1.
Qed.

(** Sorting identifies exactly the lists that are permutations of each
    other. *)
Lemma sorted_eq_iff_perm (a b : list A) :
  sorted lt a = sorted lt b <-> Permutation a b.
Proof.
  split.
  - intro H. rewrite <- (sorted_perm a), H. apply sorted_perm.
  - apply perm_sorted.
Qed.

End SortedFacts.

Section DescendingFacts.

Context {A : Type} (lt : A -> A -> bool).
Hypothesis lt_asym : forall x y, lt x y = true -> lt y x = false.
Hypothesis lt_negtrans :
  forall x y z, lt x y = false -> lt y z = false -> lt x z = false.

Lemma insert_desc_descending (x : A) (l : list A) :
  descending lt l -> descending lt (insert_desc lt x l).
Proof.
  unfold descending. induction 1 as [|y t Hy Ht IH]; cbn [insert_desc].
  - repeat constructor.
  - destruct (lt x y) eqn:E.
    + constructor; [|exact IH].
      eapply Permutation_Forall; [symmetry; apply insert_desc_perm|].
      constructor; [now apply lt_asym|exact Hy].
    + constructor; [|now constructor].
      constructor; [exact E|].
      eapply Forall_impl; [|exact Hy]. intros b Hb. cbn beta in Hb.
      eapply lt_negtrans; eauto.
Qed.

(** A stable descending sort returns a descending list. *)
Lemma sort_desc_descending (l : list A) : descending lt (sort_desc lt l).
Proof.
  induction l as [|x t IH]; [constructor|].
  unfold sort_desc in *. cbn [fold_right]. now apply insert_desc_descending.
Qed.

(** In a descending list, the first element of a class has the largest key
    of the class. *)
Lemma first_of_each_largest (same : A -> A -> bool) (l : list A) (p q : A) :
  (forall x y, same x y = same y x) ->
  descending lt l ->
  In p (first_of_each same l) -> In q l -> same p q = true -> lt p q = false.
Proof.
  intros Hsym. unfold descending.
  induction 1 as [|x t Hx Ht IH]; intros Hp Hq Hs; [contradiction|].
  cbn [first_of_each] in Hp. rewrite Forall_forall in Hx.
  destruct Hp as [<-|Hp].
  - destruct Hq as [<-|Hq]; [|now apply Hx].
    destruct (lt x x) eqn:E; [|reflexivity]. now rewrite (lt_asym _ _ E) in E.
  - apply filter_In in Hp as [Hp Hn]. apply negb_true_iff in Hn.
    destruct Hq as [<-|Hq].
    + rewrite Hsym in Hs. congruence.
    + now apply IH.
Qed.

End DescendingFacts.

(** ** Deduplication *)

Module DedupFacts.
Import DiverseParlayGenerator.

Lemma string_ltb_lt (s t : string) : String.ltb s t = true <-> String_as_OT.lt s t.
Proof.
  unfold String.ltb. rewrite <- String_as_OT.cmp_lt. unfold String_as_OT.cmp.
  destruct (String.compare s t); split; congruence.
Qed.

Lemma string_ltb_trans (s t u : string) :
  String.ltb s t = true -> String.ltb t u = true -> String.ltb s u = true.
Proof.
  rewrite !string_ltb_lt. apply String_as_OT.lt_trans.
Qed.

Lemma string_ltb_irrefl (s : string) : String.ltb s s = false.
Proof.
  destruct (String.ltb s s) eqn:E; [|reflexivity].
  apply string_ltb_lt in E. exfalso. eapply String_as_OT.lt_not_eq; eauto.
  reflexivity.
Qed.

Lemma string_ltb_total (s t : string) :
  String.ltb s t = false -> String.ltb t s = false -> s = t.
Proof.
  unfold String.ltb. rewrite (String.compare_antisym t s).
  destruct (String.compare s t) eqn:E; cbn; try discriminate.
  intros _ _. now apply String.compare_eq_iff.
Qed.

Lemma pair_lt_trans (x y z : Z * string) :
  pair_lt x y = true -> pair_lt y z = true -> pair_lt x z = true.
Proof.
  unfold pair_lt. destruct x as [a s], y as [b t], z as [c u]. cbn [fst snd].
  rewrite !orb_true_iff, !andb_true_iff, !Z.ltb_lt, !Z.eqb_eq.
  intros [H1|[H1 S1]] [H2|[H2 S2]].
  - left. lia.
  - left. lia.
  - left. lia.
  - right. split; [lia|]. eapply string_ltb_trans; eauto.
Qed.

Lemma pair_lt_irrefl (x : Z * string) : pair_lt x x = false.
Proof.
  unfold pair_lt. rewrite Z.ltb_irrefl, Z.eqb_refl, string_ltb_irrefl. reflexivity.
Qed.

Lemma pair_lt_total (x y : Z * string) :
  pair_lt x y = false -> pair_lt y x = false -> x = y.
Proof.
  unfold pair_lt. destruct x as [a s], y as [b t]. cbn [fst snd].
  rewrite !orb_false_iff, !andb_false_iff, !Z.ltb_ge, !Z.eqb_neq.
  intros [H1 S1] [H2 S2].
  assert (a = b) by lia. subst b. f_equal.
  destruct S1 as [S1|S1]; [congruence|].
  destruct S2 as [S2|S2]; [congruence|].
  now apply string_ltb_total.
Qed.

Lemma pair_eqb_eq (x y : Z * string) : pair_eqb x y = true <-> x = y.
Proof.
  unfold pair_eqb. destruct x as [a s], y as [b t]. cbn [fst snd].
  rewrite andb_true_iff, Z.eqb_eq, String.eqb_eq. split.
  - intros [-> ->]. reflexivity.
  - intro H. inversion H. auto.
Qed.

Lemma sig_eqb_eq (a b : list (Z * string)) : sig_eqb a b = true <-> a = b.
Proof.
  revert b. induction a as [|x a IH]; intros [|y b]; cbn [sig_eqb];
    try (split; [discriminate|discriminate]); [split; reflexivity|].
  rewrite andb_true_iff, pair_eqb_eq, IH. split.
  - intros [-> ->]. reflexivity.
  - intro H. inversion H. auto.
Qed.

(** Two pick lists have the same signature exactly when their pairs agree up
    to order. *)
Lemma signature_eq_iff_perm (a b : list Leg) :
  signature a = signature b <-> Permutation (pairs_of a) (pairs_of b).
Proof.
  unfold signature.
  apply (sorted_eq_iff_perm pair_lt pair_lt_trans pair_lt_irrefl pair_lt_total).
Qed.

Lemma bag_eqb_iff_perm (a b : list (Z * string)) :
  bag_eqb a b = true <-> Permutation a b.
Proof.
  rewrite (Permutation_count_occ pair_dec). unfold bag_eqb.
  rewrite forallb_forall. split.
  - intros H x.
    destruct (in_dec pair_dec x (a ++ b)) as [I|N].
    + apply Nat.eqb_eq. now apply H.
    + assert (~ In x a) by (intro; apply N; apply in_or_app; now left).
      assert (~ In x b) by (intro; apply N; apply in_or_app; now right).
      rewrite (proj1 (count_occ_not_In pair_dec a x)) by assumption.
      rewrite (proj1 (count_occ_not_In pair_dec b x)) by assumption.
      reflexivity.
  - intros H x _. apply Nat.eqb_eq. apply H.
Qed.

Lemma same_signature_bag (p q : DiverseParlay.t) :
  same_signature p q = same_pairs_as_bag p q.
Proof.
  apply eq_true_iff_eq. unfold same_signature, same_pairs_as_bag, parlay_pairs.
  now rewrite sig_eqb_eq, signature_eq_iff_perm, bag_eqb_iff_perm.
Qed.

Lemma first_of_each_ext {A} (f g : A -> A -> bool) (l : list A) :
  (forall x y, f x y = g x y) -> first_of_each f l = first_of_each g l.
Proof.
  intro H. induction l as [|x t IH]; [reflexivity|].
  cbn [first_of_each]. rewrite IH. f_equal.
  apply filter_ext. intro y. now rewrite H.
Qed.

Lemma first_of_each_distinct {A} (same : A -> A -> bool) (l : list A) :
  ForallOrdPairs (fun x y => same x y = false) (first_of_each same l).
Proof.
  induction l as [|x t IH]; cbn [first_of_each]; constructor.
  - apply Forall_forall. intros y Hy. apply filter_In in Hy as [_ Hy].
    now apply negb_true_iff.
  - clear -IH. induction IH as [|y l Hy _ IH']; cbn [filter]; [constructor|].
    destruct (negb (same x y)); [|exact IH'].
    constructor; [|exact IH'].
    apply Forall_forall. intros z Hz. apply filter_In in Hz as [Hz _].
    rewrite Forall_forall in Hy. now apply Hy.
Qed.

Lemma first_of_each_fixed {A} (same : A -> A -> bool) (l : list A) :
  ForallOrdPairs (fun x y => same x y = false) l -> first_of_each same l = l.
Proof.
  induction 1 as [|x l Hx _ IH]; [reflexivity|].
  cbn [first_of_each]. rewrite IH. f_equal.
  rewrite Forall_forall in Hx.
  clear IH. induction l as [|y l IHl]; [reflexivity|].
  cbn [filter]. rewrite (Hx y) by (now left). cbn [negb]. f_equal.
  apply IHl. intros z Hz. apply Hx. now right.
Qed.

Lemma first_of_each_idem {A} (same : A -> A -> bool) (l : list A) :
  first_of_each same (first_of_each same l) = first_of_each same l.
Proof. apply first_of_each_fixed, first_of_each_distinct. Qed.

Lemma filter_filter {A} (f g : A -> bool) (l : list A) :
  filter f (filter g l) = filter (fun x => g x && f x) l.
Proof.
  induction l as [|x t IH]; [reflexivity|]. cbn [filter].
  destruct (g x); cbn [filter andb]; [destruct (f x)|]; now rewrite IH.
Qed.

Lemma same_signature_eq (p q : DiverseParlay.t) :
  same_signature p q = true
  <-> signature (DiverseParlay.picks p) = signature (DiverseParlay.picks q).
Proof. apply sig_eqb_eq. Qed.

Lemma unseen_cons (s : list (Z * string)) (seen : list (list (Z * string)))
  (p x : DiverseParlay.t) :
  s = signature (DiverseParlay.picks x) ->
  unseen (s :: seen) p = negb (same_signature x p) && unseen seen p.
Proof.
  intros ->. unfold unseen. cbn [existsb]. rewrite negb_orb. f_equal. f_equal.
  unfold same_signature. apply eq_true_iff_eq. rewrite !sig_eqb_eq.
  split; congruence.
Qed.

(** The loop keeps the first parlay of each signature that has not been seen
    before. *)
Lemma dedup_loop_first_of_each (parlays unique : list DiverseParlay.t)
  (seen : list (list (Z * string))) :
  dedup_loop parlays unique seen
  = unique ++ filter (unseen seen) (first_of_each same_signature parlays).
Proof.
  revert unique seen. induction parlays as [|x t IH]; intros unique seen.
  - cbn. now rewrite app_nil_r.
  - cbn [dedup_loop first_of_each filter]. fold (unseen seen x).
    destruct (unseen seen x) eqn:U.
    + rewrite IH, <- app_assoc. cbn [app]. f_equal. f_equal.
      rewrite filter_filter. apply filter_ext. intro p.
      now apply unseen_cons.
    + rewrite IH. f_equal. rewrite filter_filter. apply filter_ext_in.
      intros p _. destruct (same_signature x p) eqn:S; cbn [negb andb];
        [|reflexivity].
      apply same_signature_eq in S. unfold unseen in *.
      rewrite <- S. congruence.
Qed.

Lemma deduplicate_first_of_each (l : list DiverseParlay.t) :
  _deduplicate_parlays l = first_of_each same_pairs_as_bag l.
Proof.
  unfold _deduplicate_parlays. rewrite dedup_loop_first_of_each.
  cbn [app]. rewrite (first_of_each_ext _ _ l same_signature_bag).
  generalize (first_of_each same_pairs_as_bag l) as r.
  induction r as [|y r IHr]; [reflexivity|]. cbn. now rewrite IHr.
Qed.

Lemma in_first_of_each {A} (same : A -> A -> bool) (l : list A) (x : A) :
  In x (first_of_each same l) -> In x l.
Proof.
  induction l as [|y t IH]; cbn [first_of_each]; [auto|].
  intros [<-|H]; [now left|]. right. apply IH.
  now apply filter_In in H as [H _].
Qed.

Lemma in_deduplicate (l : list DiverseParlay.t) (x : DiverseParlay.t) :
  In x (_deduplicate_parlays l) -> In x l.
Proof.
  rewrite deduplicate_first_of_each. apply in_first_of_each.
Qed.

Lemma quality_lt_asym (x y : DiverseParlay.t) :
  quality_lt x y = true -> quality_lt y x = false.
Proof.
  unfold quality_lt. rewrite Qltb_true, Qltb_false. lra.
Qed.

Lemma quality_lt_negtrans (x y z : DiverseParlay.t) :
  quality_lt x y = false -> quality_lt y z = false -> quality_lt x z = false.
Proof.
  unfold quality_lt. rewrite !Qltb_false. lra.
Qed.

Lemma same_pairs_as_bag_sym (p q : DiverseParlay.t) :
  same_pairs_as_bag p q = same_pairs_as_bag q p.
Proof.
  apply eq_true_iff_eq. unfold same_pairs_as_bag.
  rewrite !bag_eqb_iff_perm. split; intro H; now symmetry.
Qed.

(** C9 (as the code has it).  Deduplication keeps, for each collection of
    (game, selection) pairs taken with multiplicity and regardless of leg
    order, the first candidate of the list; two candidates count as the same
    exactly when their pair lists are permutations of each other; on a list
    sorted by quality score the candidate kept has the highest score of its
    duplicates; a second pass over the output removes nothing. *)
Theorem deduplicate_keeps_first_of_each_bag (parlays : list DiverseParlay.t) :
  _deduplicate_parlays parlays = first_of_each same_pairs_as_bag parlays
  /\ (forall p q,
        same_pairs_as_bag p q = true
        <-> Permutation (parlay_pairs p) (parlay_pairs q))
  /\ (forall p q,
        In p (_deduplicate_parlays (sort_desc quality_lt parlays)) ->
        In q parlays ->
        same_pairs_as_bag p q = true ->
        DiverseParlay.quality_score q <= DiverseParlay.quality_score p)
  /\ _deduplicate_parlays (_deduplicate_parlays parlays)
     = _deduplicate_parlays parlays.
Proof.
  split; [apply deduplicate_first_of_each|]. split; [|split].
  - intros p q. apply bag_eqb_iff_perm.
  - intros p q Hp Hq Hs. rewrite deduplicate_first_of_each in Hp.
    apply Qltb_false. change (quality_lt p q = false).
    eapply (first_of_each_largest quality_lt quality_lt_asym same_pairs_as_bag);
      [apply same_pairs_as_bag_sym| |exact Hp| |exact Hs].
    + apply sort_desc_descending;
        [apply quality_lt_asym|apply quality_lt_negtrans].
    + eapply Permutation_in; [symmetry; apply sort_desc_perm|exact Hq].
  - rewrite !deduplicate_first_of_each. apply first_of_each_idem.
Qed.

Lemma deduplicate_keeps_first_of_each_bag_witness :
  DiverseParlay.quality_score DuplicateSample.first_parlay
  <= DiverseParlay.quality_score DuplicateSample.stronger_parlay.
Proof.
  apply (proj1 (proj2 (proj2
           (deduplicate_keeps_first_of_each_bag DuplicateSample.contest)))).
  - vm_compute. left. reflexivity.
  - left. reflexivity.
  - vm_compute. reflexivity.
Defined.

(** C9 fails as stated: the two sample parlays hold the same set of pairs,
    (1, "Yes") and (2, "Yes"), one with the first pair twice and one with the
    second pair twice; deduplication keeps both, where keeping one parlay per
    set of pairs keeps only the first. *)
Lemma dedup_set_counterexample :
  _calculate_parlay_metrics DuplicateSample.first_legs "NFL"
  = Ok (Some DuplicateSample.first_parlay)
  /\ _calculate_parlay_metrics DuplicateSample.second_legs "NFL"
     = Ok (Some DuplicateSample.second_parlay)
  /\ same_pairs_as_set DuplicateSample.first_parlay DuplicateSample.second_parlay
     = true
  /\ _deduplicate_parlays DuplicateSample.pool = DuplicateSample.pool
  /\ first_of_each same_pairs_as_set DuplicateSample.pool
     = [DuplicateSample.first_parlay]
  /\ _deduplicate_parlays DuplicateSample.pool
     <> first_of_each same_pairs_as_set DuplicateSample.pool.
Proof.
  split; [vm_compute; reflexivity|].
  split; [vm_compute; reflexivity|].
  split; [vm_compute; reflexivity|].
  split; [vm_compute; reflexivity|].
  split; [vm_compute; reflexivity|].
  vm_compute. discriminate.
Qed.

End DedupFacts.

(** ** Leg construction *)

Module LegFacts.
Import ResearchEngine.

Lemma returns_ok {A} (a : A) (P : A -> Prop) : P a -> returns (Ok a) P.
Proof. intro H. exists a. auto. Qed.

Lemma returns_bind {A B} (m : result A) (k : A -> result B)
  (P : A -> Prop) (Q : B -> Prop) :
  returns m P -> (forall a, P a -> returns (k a) Q) -> returns (bind m k) Q.
Proof.
  intros [a [-> Ha]] H. cbn [bind]. now apply H.
Qed.

Lemma returns_weaken {A} (m : result A) (P Q : A -> Prop) :
  returns m P -> (forall a, P a -> Q a) -> returns m Q.
Proof.
  intros [a [-> Ha]] H. exists a. auto.
Qed.

Lemma returns_mapM {A B} (f : A -> result (list B)) (P : B -> Prop) (l : list A) :
  (forall x, In x l -> returns (f x) (Forall P)) ->
  returns (mapM f l) (fun ls => Forall P (List.concat ls)).
Proof.
  induction l as [|x t IH]; intro H; cbn [mapM].
  - apply returns_ok. constructor.
  - eapply returns_bind; [apply H; now left|]. intros y Hy.
    eapply returns_bind; [apply IH; intros; apply H; now right|].
    intros ys Hys. apply returns_ok. cbn [List.concat].
    apply Forall_app. auto.
Qed.

Lemma truthy_nonzero (o : option Q) : truthy o = true -> ~ the o == 0.
Proof.
  destruct o as [q|]; cbn; [|discriminate].
  intro H. apply negb_true_iff in H. rewrite H.
  now apply Qeq_bool_neq.
Qed.

Lemma implied_prob_returns (o : Q) :
  returns (american_to_implied_prob o) (fun _ => True).
Proof.
  rewrite OddsFacts.american_to_implied_prob_total. now apply returns_ok.
Qed.

Lemma expected_value_returns (ip tp o : Q) :
  ~ o == 0 -> returns (calculate_expected_value ip tp o) (fun _ => True).
Proof.
  intro H. unfold calculate_expected_value.
  destruct (OddsFacts.american_to_decimal_nonzero o H) as [d [-> _]].
  now apply returns_ok.
Qed.

Ltac split_if :=
  match goal with
  | |- context [if ?c then _ else _] => destruct c
  end.

Lemma confidence_score_returns (g : Game) (bt sel : string) :
  returns (calculate_confidence_score g bt sel) (fun _ => True).
Proof.
  unfold calculate_confidence_score.
  eapply returns_bind with (P := fun _ => True);
    [|intros; now apply returns_ok].
  repeat split_if; try (now apply returns_ok).
  all: eapply returns_bind; [apply implied_prob_returns|].
  all: intros; repeat split_if; now apply returns_ok.
Qed.

Lemma true_probability_returns (env : Env) (g : Game) (bt sel : string)
  (prop : option PlayerProp) :
  returns (estimate_true_probability env g bt sel prop) (fun _ => True).
Proof.
  unfold estimate_true_probability.
  destruct (predict_moneyline_probability (ml_predictor env) g) as [hp ap].
  destruct prop as [p|];
    repeat split_if;
    try (now apply returns_ok); apply implied_prob_returns.
Qed.

Section Legs.

Variable cfg : Config.
Variable env : Env.

(** A prop or market block appends nothing or one leg, and that leg carries
    the floored expected value. *)
Lemma market_leg_floor (g : Game) (bt conf_sel est_sel sel : string) (o : Q)
  (prop : PlayerProp) (extra : Q -> list (string * PyVal)) :
  ~ o == 0 ->
  returns (market_leg cfg env g bt conf_sel est_sel sel o prop extra)
    (Forall ev_floor).
Proof.
  intro Ho. unfold market_leg.
  eapply returns_bind; [apply confidence_score_returns|]. intros c _.
  split_if; [|apply returns_ok; constructor].
  rewrite OddsFacts.american_to_implied_prob_total. cbn [bind].
  eapply returns_bind; [apply true_probability_returns|]. intros tp _.
  match goal with
  | |- returns (bind (calculate_expected_value ?ip _ _) _) _ =>
      destruct (expected_value_returns ip tp o Ho) as [ev [Hev _]]
  end.
  rewrite Hev. cbn [bind].
  destruct (Qltb (- (2 # 100)) ev) eqn:L; [|apply returns_ok; constructor].
  apply returns_ok. constructor; [|constructor].
  exists tp, ev. cbn [true_probability implied_probability odds expected_value].
  apply Qltb_true in L.
  repeat split; try assumption; try reflexivity.
  apply Q.le_max_r.
Qed.

Lemma player_prop_legs_floor (g : Game) (prop : PlayerProp) :
  returns (player_prop_legs cfg env g prop) (Forall ev_floor).
Proof.
  unfold player_prop_legs.
  eapply returns_bind with (P := Forall ev_floor).
  { destruct (prop_value prop); [|apply returns_ok; constructor].
    destruct (truthy (pp_over_odds prop)) eqn:T; [|apply returns_ok; constructor].
    apply market_leg_floor. now apply truthy_nonzero. }
  intros over Hover.
  eapply returns_bind with (P := Forall ev_floor).
  { destruct (prop_value prop); [|apply returns_ok; constructor].
    destruct (truthy (pp_under_odds prop)) eqn:T; [|apply returns_ok; constructor].
    apply market_leg_floor. now apply truthy_nonzero. }
  intros under Hunder.
  eapply returns_bind with (P := Forall ev_floor).
  { destruct (truthy (yes_odds prop)) eqn:T; [|apply returns_ok; constructor].
    apply market_leg_floor. now apply truthy_nonzero. }
  intros yes Hyes. apply returns_ok.
  repeat (apply Forall_app; split); assumption.
Qed.

Lemma team_market_legs_floor (g : Game) (market : PlayerProp) :
  returns (team_market_legs cfg env g market) (Forall ev_floor).
Proof.
  unfold team_market_legs.
  eapply returns_bind with (P := Forall ev_floor).
  { destruct (prop_value market); [|apply returns_ok; constructor].
    destruct (truthy (pp_over_odds market)) eqn:T; [|apply returns_ok; constructor].
    apply market_leg_floor. now apply truthy_nonzero. }
  intros over Hover.
  eapply returns_bind with (P := Forall ev_floor).
  { destruct (prop_value market); [|apply returns_ok; constructor].
    destruct (truthy (pp_under_odds market)) eqn:T; [|apply returns_ok; constructor].
    apply market_leg_floor. now apply truthy_nonzero. }
  intros under Hunder.
  eapply returns_bind with (P := Forall ev_floor).
  { destruct (truthy (yes_odds market)) eqn:T; [|apply returns_ok; constructor].
    apply market_leg_floor. now apply truthy_nonzero. }
  intros yes Hyes. apply returns_ok.
  repeat (apply Forall_app; split); assumption.
Qed.

Lemma market_legs_floor (g : Game) :
  returns (market_legs cfg env g) (Forall ev_floor).
Proof.
  unfold market_legs.
  eapply returns_bind;
    [apply returns_mapM; intros; apply player_prop_legs_floor|].
  intros a Ha.
  eapply returns_bind;
    [apply returns_mapM; intros; apply team_market_legs_floor|].
  intros b Hb. apply returns_ok. apply Forall_app. auto.
Qed.

Lemma moneyline_leg_returns (g : Game) (bt sel : string) (o : Q) (label : string) :
  ~ o == 0 ->
  returns (moneyline_leg cfg env g bt sel o label)
    (Forall (fun l => ~ odds l == 0)).
Proof.
  intro Ho. unfold moneyline_leg.
  eapply returns_bind; [apply true_probability_returns|]. intros tp _.
  rewrite OddsFacts.american_to_implied_prob_total. cbn [bind].
  eapply returns_bind; [now apply expected_value_returns|]. intros ev _.
  eapply returns_bind; [apply confidence_score_returns|]. intros c _.
  split_if; apply returns_ok; repeat constructor. exact Ho.
Qed.

Lemma placeholder_leg_returns (g : Game) (bt csel sel : string) (o : Q)
  (reasoning : string) :
  ~ o == 0 ->
  returns (placeholder_leg cfg g bt csel sel o reasoning)
    (Forall (fun l => ~ odds l == 0)).
Proof.
  intro Ho. unfold placeholder_leg.
  eapply returns_bind; [apply confidence_score_returns|]. intros c _.
  split_if; [|apply returns_ok; constructor].
  rewrite OddsFacts.american_to_implied_prob_total. cbn [bind].
  apply returns_ok. repeat constructor. exact Ho.
Qed.

Lemma game_legs_returns (g : Game) :
  returns (game_legs cfg env g) (Forall (fun l => ~ odds l == 0)).
Proof.
  unfold game_legs.
  eapply returns_bind with (P := Forall (fun l => ~ odds l == 0)).
  { destruct (truthy (home_moneyline g)) eqn:T; [|apply returns_ok; constructor].
    apply moneyline_leg_returns. now apply truthy_nonzero. }
  intros l1 H1.
  eapply returns_bind with (P := Forall (fun l => ~ odds l == 0)).
  { destruct (truthy (away_moneyline g)) eqn:T; [|apply returns_ok; constructor].
    apply moneyline_leg_returns. now apply truthy_nonzero. }
  intros l2 H2.
  eapply returns_bind with (P := Forall (fun l => ~ odds l == 0)).
  { destruct (truthy (spread g)); cbn [andb]; [|apply returns_ok; constructor].
    destruct (truthy (spread_home_odds g)) eqn:T; [|apply returns_ok; constructor].
    apply placeholder_leg_returns. now apply truthy_nonzero. }
  intros l3 H3.
  eapply returns_bind with (P := Forall (fun l => ~ odds l == 0)).
  { destruct (truthy (total g)); cbn [andb]; [|apply returns_ok; constructor].
    destruct (truthy (over_odds g)) eqn:T; [|apply returns_ok; constructor].
    apply placeholder_leg_returns. now apply truthy_nonzero. }
  intros l4 H4.
  eapply returns_bind with (P := Forall (fun l => ~ odds l == 0)).
  { split_if; [|apply returns_ok; constructor].
    eapply returns_bind with (P := Forall (fun l => ~ odds l == 0)).
    { destruct (fighter1 g); [|apply returns_ok; constructor].
      destruct (truthy_str (Some s)); cbn [andb]; [|apply returns_ok; constructor].
      destruct (truthy (home_moneyline g)) eqn:T; [|apply returns_ok; constructor].
      apply moneyline_leg_returns. now apply truthy_nonzero. }
    intros a Ha.
    eapply returns_bind with (P := Forall (fun l => ~ odds l == 0)).
    { destruct (fighter2 g); [|apply returns_ok; constructor].
      destruct (truthy_str (Some s)); cbn [andb]; [|apply returns_ok; constructor].
      destruct (truthy (away_moneyline g)) eqn:T; [|apply returns_ok; constructor].
      apply moneyline_leg_returns. now apply truthy_nonzero. }
    intros b Hb. apply returns_ok. apply Forall_app. auto. }
  intros l5 H5. apply returns_ok.
  repeat (apply Forall_app; split); assumption.
Qed.

Lemma ev_floor_nonzero (l : Leg) : ev_floor l -> ~ odds l == 0.
Proof.
  intros [tp [ev [_ [H _]]]] Z. unfold calculate_expected_value in H.
  rewrite (OddsFacts.american_to_decimal_zero (odds l) Z) in H.
  discriminate H.
Qed.

(** [analyze_game] always returns, and never a leg with odds 0. *)
Lemma analyze_game_returns (g : Game) :
  returns (analyze_game cfg env g) (Forall (fun l => ~ odds l == 0)).
Proof.
  unfold analyze_game.
  eapply returns_bind; [apply game_legs_returns|]. intros gl Hgl.
  eapply returns_bind; [apply market_legs_floor|]. intros ml Hml.
  apply returns_ok. apply Forall_app. split; [exact Hgl|].
  eapply Forall_impl; [|exact Hml]. apply ev_floor_nonzero.
Qed.

End Legs.

(** C10.  [analyze_game] returns the game-level legs followed by the legs of
    the prop and market rows.  Each of the latter was computed with an
    expected value above -0.02 and carries that value raised to at least 0.01
    in its [expected_value] field; on the sample slate the leg at odds -2000
    carries 0.01 where its own odds and probabilities give -0.0025. *)
Theorem market_legs_carry_floored_ev (cfg : Config) (env : Env) (g : Game) :
  (exists gl ml,
     game_legs cfg env g = Ok gl
     /\ market_legs cfg env g = Ok ml
     /\ analyze_game cfg env g = Ok (gl ++ ml)
     /\ Forall ev_floor ml)
  /\ (exists legs leg tp ev,
        analyze_game default_config SlateSample.env SlateSample.lakers_celtics
        = Ok legs
        /\ In leg legs
        /\ true_probability leg = Some tp
        /\ calculate_expected_value (implied_probability leg) tp (odds leg) = Ok ev
        /\ ev == - (25 # 10000)
        /\ expected_value leg == 1 # 100).
Proof.
  split.
  - destruct (game_legs_returns cfg env g) as [gl [Hgl _]].
    destruct (market_legs_floor cfg env g) as [ml [Hml Hfloor]].
    exists gl, ml. split; [exact Hgl|]. split; [exact Hml|].
    split; [|exact Hfloor].
    unfold analyze_game. rewrite Hgl, Hml. reflexivity.
  - eexists. eexists. eexists. eexists.
    split; [vm_compute; reflexivity|].
    split; [do 4 right; left; reflexivity|].
    split; [reflexivity|].
    split; [vm_compute; reflexivity|].
    split; reflexivity.
Qed.

End LegFacts.

(** ** Generation *)

Module GenerationFacts.
Import ResearchEngine ParlayOptimizer.

Section Slate.

Variable cfg : Config.
Variable weights : Weights.
Variable env : Env.

Lemma analyze_game_legs_of (g : Game) :
  analyze_game cfg env g = Ok (legs_of cfg env g).
Proof.
  unfold legs_of.
  destruct (LegFacts.analyze_game_returns cfg env g) as [legs [-> _]].
  reflexivity.
Qed.

Lemma analyze_all (games : list Game) :
  mapM (analyze_game cfg env) games = Ok (map (legs_of cfg env) games).
Proof.
  apply mapM_const. intros g _. apply analyze_game_legs_of.
Qed.

Lemma pool_concat (games : list Game) :
  List.concat (map (legs_of cfg env) games) = pool_of cfg env games.
Proof.
  unfold pool_of. now rewrite flat_map_concat_map.
Qed.

(** A game with fewer legs than [MIN_PARLAY_LEGS] has no same-game parlay. *)
Lemma no_same_game_parlays (g : Game) (max_parlays : Z) :
  (len (legs_of cfg env g) < MIN_PARLAY_LEGS cfg)%Z ->
  generate_same_game_parlays cfg weights env g max_parlays = Ok [].
Proof.
  intro H. unfold generate_same_game_parlays.
  rewrite analyze_game_legs_of. cbn [bind].
  pose proof (len_filter_le is_sgp_type (legs_of cfg env g)) as L.
  assert (E : (len (filter is_sgp_type (legs_of cfg env g))
               <? MIN_PARLAY_LEGS cfg)%Z = true) by (apply Z.ltb_lt; lia).
  now rewrite E.
Qed.

Lemma concat_nils {A B} (l : list A) :
  List.concat (map (fun _ : A => @nil B) l) = [].
Proof. induction l as [|x t IH]; [reflexivity|exact IH]. Qed.

End Slate.

(** C7.  When the pool holds fewer legs than the minimum, [generate_parlays]
    and [optimize_for_target_odds] return the empty list; they raise nothing.
    The pool is the concatenation of what [analyze_game] returns for the
    games.  Likewise the same-game generator on a game with too few legs, and
    the diverse generator, whose minimum is the literal 2. *)
Theorem too_few_legs_give_no_parlays (cfg : Config) (weights : Weights)
  (env : Env) (games : list Game) :
  mapM (analyze_game cfg env) games = Ok (map (legs_of cfg env) games)
  /\ (forall max_parlays include_sgp,
        (len (pool_of cfg env games) < MIN_PARLAY_LEGS cfg)%Z ->
        generate_parlays cfg weights env games max_parlays include_sgp = Ok [])
  /\ (forall target_odds tolerance min_legs max_legs,
        (len (pool_of cfg env games) < min_legs)%Z ->
        optimize_for_target_odds cfg env games target_odds tolerance
          min_legs max_legs = Ok [])
  /\ (forall g max_parlays,
        (len (legs_of cfg env g) < MIN_PARLAY_LEGS cfg)%Z ->
        generate_same_game_parlays cfg weights env g max_parlays = Ok [])
  /\ (forall sport max_parlays ensure_variety,
        (len (pool_of cfg env games) < 2)%Z ->
        DiverseParlayGenerator.generate_diverse_sport_parlays cfg env games
          sport max_parlays ensure_variety = Ok []).
Proof.
  split; [apply analyze_all|]. split; [|split; [|split]].
  - intros max_parlays include_sgp H. unfold generate_parlays.
    assert (S : mapM (fun g => generate_same_game_parlays cfg weights env g 5) games
                = Ok (map (fun _ => []) games)).
    { apply mapM_const. intros g Hg. apply no_same_game_parlays.
      pose proof (len_flat_map_in (legs_of cfg env) games g Hg).
      unfold pool_of in H. lia. }
    rewrite S, analyze_all. cbn [bind]. rewrite concat_nils, pool_concat.
    assert (E : (len (pool_of cfg env games) <? MIN_PARLAY_LEGS cfg)%Z = true)
      by (apply Z.ltb_lt; lia).
    rewrite E. destruct include_sgp; reflexivity.
  - intros target_odds tolerance min_legs max_legs H.
    unfold optimize_for_target_odds.
    rewrite analyze_all. cbn [bind]. rewrite pool_concat.
    assert (E : (len (pool_of cfg env games) <? min_legs)%Z = true)
      by (apply Z.ltb_lt; lia).
    now rewrite E.
  - intros g max_parlays H. now apply no_same_game_parlays.
  - intros sport max_parlays ensure_variety H.
    unfold DiverseParlayGenerator.generate_diverse_sport_parlays.
    destruct (is_nil games); [reflexivity|].
    rewrite analyze_all. cbn [bind]. rewrite pool_concat.
    assert (E : (len (pool_of cfg env games) <? 2)%Z = true)
      by (apply Z.ltb_lt; lia).
    now rewrite E.
Qed.

Lemma too_few_legs_give_no_parlays_witness :
  len (pool_of default_config SlateSample.thin_env [SlateSample.lakers_celtics]) = 1%Z
  /\ generate_parlays default_config default_weights SlateSample.thin_env
       [SlateSample.lakers_celtics] 10 true = Ok []
  /\ optimize_for_target_odds default_config SlateSample.thin_env
       [SlateSample.lakers_celtics] 300 (1 # 10) 2 8 = Ok [].
Proof.
  split; [reflexivity|]. split.
  - apply (too_few_legs_give_no_parlays default_config default_weights
             SlateSample.thin_env [SlateSample.lakers_celtics]).
    reflexivity.
  - apply (too_few_legs_give_no_parlays default_config default_weights
             SlateSample.thin_env [SlateSample.lakers_celtics]).
    reflexivity.
Defined.

Ltac bind_inv H :=
  repeat match type of H with
         | bind ?m _ = Ok _ =>
             let E := fresh "E" in
             destruct m eqn:E; cbn [bind] in H; [|discriminate H]
         | (let '(_, _) := ?x in _) = Ok _ => destruct x
         | match ?x with (_, _) => _ end = Ok _ => destruct x
         end.

Lemma in_bounds_shape (cfg : Config) (p q : Parlay.t) :
  same_shape p q -> in_bounds cfg q -> in_bounds cfg p.
Proof.
  unfold same_shape, in_bounds. intros [-> [-> ->]] H. exact H.
Qed.

Lemma select_diverse_in (scored selected : list Parlay.t) (used : list Z)
  (max_parlays : Z) (p : Parlay.t) :
  In p (CorrelationMatrix.select_diverse scored selected used max_parlays) ->
  In p scored \/ In p selected.
Proof.
  revert selected used.
  induction scored as [|x t IH]; intros selected used H;
    cbn [CorrelationMatrix.select_diverse] in H.
  - now right.
  - match type of H with
    | In _ (if ?c then _ else _) => destruct c
    end.
    + match type of H with
      | In _ (if ?c then _ else _) => destruct c
      end.
      * apply in_app_or in H as [H|[<-|[]]]; [now right|left; now left].
      * apply IH in H as [H|H]; [left; now right|].
        apply in_app_or in H as [H|[<-|[]]]; [now right|left; now left].
    + apply IH in H as [H|H]; [left; now right|now right].
Qed.

Lemma optimize_keeps_shape (cands out : list Parlay.t) (max_parlays : Z)
  (p : Parlay.t) :
  CorrelationMatrix.optimize_parlay_selection cands max_parlays = Ok out ->
  In p out -> exists c, In c cands /\ same_shape p c.
Proof.
  unfold CorrelationMatrix.optimize_parlay_selection.
  destruct cands as [|c0 cs] eqn:Ec.
  - intros H Hp. inversion H. subst. contradiction.
  - rewrite <- Ec. clear Ec c0 cs. intros H Hp. bind_inv H.
    inversion H. subst. clear H.
    apply select_diverse_in in Hp as [Hp|[]].
    apply in_sort_desc in Hp.
    destruct (mapM_in _ _ _ _ E Hp) as [c [Hc Fc]].
    exists c. split; [exact Hc|]. bind_inv Fc. inversion Fc.
    repeat split.
Qed.

Lemma add_kelly_shape (p q : Parlay.t) : add_kelly p = Ok q -> same_shape q p.
Proof.
  unfold add_kelly. intro H. bind_inv H. inversion H. repeat split.
Qed.

Section Bounds.

Variable cfg : Config.
Variable weights : Weights.
Variable env : Env.

Lemma sgp_candidate_shape (g : Game) (combo : list Leg) (p : Parlay.t) :
  sgp_candidate cfg weights g combo = Ok p ->
  Parlay.legs p = combo /\ Parlay.num_legs p = len combo
  /\ Parlay.is_sgp p = true.
Proof.
  unfold sgp_candidate. intro H. bind_inv H. inversion H. repeat split.
Qed.

Lemma cross_candidate_shape (combo : list Leg) (p : Parlay.t) :
  cross_candidate cfg weights combo = Ok p ->
  Parlay.legs p = combo /\ Parlay.num_legs p = len combo
  /\ Parlay.is_sgp p = false.
Proof.
  unfold cross_candidate. intro H. bind_inv H. inversion H. repeat split.
Qed.

(** Same-game parlays have between [max(MIN_PARLAY_LEGS, 4)] and 8 legs. *)
Lemma same_game_parlays_in_bounds (g : Game) (max_parlays : Z)
  (out : list Parlay.t) :
  generate_same_game_parlays cfg weights env g max_parlays = Ok out ->
  Forall (fun p => in_bounds cfg p /\ Parlay.is_sgp p = true) out.
Proof.
  unfold generate_same_game_parlays. intro H. bind_inv H.
  match type of H with
  | (if ?c then _ else _) = _ => destruct c
  end.
  { inversion H. constructor. }
  bind_inv H. inversion H. subst. clear H.
  apply Forall_forall. intros p Hp.
  apply in_take, in_sort_desc, in_concat in Hp as [ps [Hps Hp]].
  destruct (mapM_in _ _ _ _ E0 Hps) as [n [Hn Fn]].
  apply in_range in Hn. bind_inv Fn.
  destruct (mapM_in _ _ _ _ Fn Hp) as [combo [Hc Fc]].
  pose proof (combinations_length _ _ _ _ E1 Hc) as L.
  apply sgp_candidate_shape in Fc as [Hl [Hn' Hs]].
  unfold in_bounds. rewrite Hl, Hn', Hs. repeat split; try lia.
Qed.

(** Cross-game candidates have between [MIN_PARLAY_LEGS] and
    [MAX_PARLAY_LEGS] legs. *)
Lemma cross_candidates_in_bounds (all_legs : list Leg)
  (per_size : list (list Parlay.t)) :
  mapM
    (fun num_legs =>
       combos <- combinations all_legs num_legs ;;
       mapM (cross_candidate cfg weights) combos)
    (range (MIN_PARLAY_LEGS cfg)
       (Z.min (MAX_PARLAY_LEGS cfg + 1) (len all_legs + 1))) = Ok per_size ->
  Forall (in_bounds cfg) (List.concat per_size).
Proof.
  intro H. apply Forall_forall. intros p Hp.
  apply in_concat in Hp as [ps [Hps Hp]].
  destruct (mapM_in _ _ _ _ H Hps) as [n [Hn Fn]].
  apply in_range in Hn. bind_inv Fn.
  destruct (mapM_in _ _ _ _ Fn Hp) as [combo [Hc Fc]].
  pose proof (combinations_length _ _ _ _ E Hc) as L.
  apply cross_candidate_shape in Fc as [Hl [Hn' Hs]].
  unfold in_bounds. rewrite Hl, Hn', Hs. repeat split; try lia.
Qed.

Lemma generate_parlays_in_bounds (games : list Game) (max_parlays : Z)
  (include_sgp : bool) (out : list Parlay.t) :
  generate_parlays cfg weights env games max_parlays include_sgp = Ok out ->
  Forall (in_bounds cfg) out.
Proof.
  unfold generate_parlays. intro H.
  match type of H with
  | bind ?m _ = _ => destruct m as [all_parlays|] eqn:Esgp
  end; cbn [bind] in H; [|discriminate H].
  assert (Hsgp : Forall (in_bounds cfg) all_parlays).
  { destruct include_sgp; [|inversion Esgp; constructor].
    bind_inv Esgp. inversion Esgp. subst. clear Esgp.
    apply Forall_forall. intros p Hp.
    apply in_concat in Hp as [ps [Hps Hp]].
    destruct (mapM_in _ _ _ _ E Hps) as [g [_ Fg]].
    apply same_game_parlays_in_bounds in Fg.
    rewrite Forall_forall in Fg. now apply Fg. }
  bind_inv H.
  match type of H with
  | (if ?c then _ else _) = _ => destruct c
  end.
  { inversion H. subst. clear H. destruct (is_nil all_parlays); [constructor|].
    apply Forall_forall. intros p Hp. apply in_take in Hp.
    rewrite Forall_forall in Hsgp. now apply Hsgp. }
  bind_inv H. inversion H. subst. clear H.
  pose proof (cross_candidates_in_bounds _ _ E0) as Hcross.
  rewrite Forall_forall in Hsgp, Hcross.
  apply Forall_forall. intros p Hp.
  apply in_take, in_sort_desc, in_app_or in Hp as [Hp|Hp]; [now apply Hsgp|].
  match type of Hp with
  | In _ (if ?c then _ else _) => destruct c
  end.
  - apply in_take, in_sort_desc in Hp. now apply Hcross.
  - match goal with
    | K : mapM add_kelly _ = Ok _ |- _ =>
        destruct (mapM_in _ _ _ _ K Hp) as [q [Hq Fq]]
    end.
    apply add_kelly_shape in Fq.
    match goal with
    | O : CorrelationMatrix.optimize_parlay_selection _ _ = Ok _ |- _ =>
        destruct (optimize_keeps_shape _ _ _ _ O Hq) as [c [Hc Sc]]
    end.
    apply in_sort_desc in Hc.
    eapply in_bounds_shape; [exact Fq|].
    eapply in_bounds_shape; [exact Sc|]. now apply Hcross.
Qed.

End Bounds.

Import DiverseParlayGenerator.

Lemma metrics_shape (legs : list Leg) (sport : string) (p : DiverseParlay.t) :
  _calculate_parlay_metrics legs sport = Ok (Some p) ->
  DiverseParlay.picks p = legs /\ DiverseParlay.legs p = legs
  /\ DiverseParlay.num_legs p = len legs /\ (2 <= len legs)%Z.
Proof.
  unfold _calculate_parlay_metrics.
  destruct (len legs <? 2)%Z eqn:L; [discriminate|]. apply Z.ltb_ge in L.
  match goal with |- (if ?c then _ else _) = _ -> _ => destruct c end;
    [discriminate|].
  intro H. bind_inv H.
  match type of H with
  | match ?o with Some _ => _ | None => _ end = _ =>
      destruct o as [[[[? ?] ?] ?]|]; [|discriminate H]
  end.
  bind_inv H. inversion H. repeat split. exact L.
Qed.

Lemma collect_in (combos : list (list Leg)) (sport : string)
  (acc out : list DiverseParlay.t) (p : DiverseParlay.t) :
  collect combos sport acc = Ok out -> In p out ->
  In p acc \/ exists c, In c combos /\ DiverseParlay.picks p = c.
Proof.
  revert acc. induction combos as [|c t IH]; intros acc H Hp; cbn [collect] in H.
  - inversion H. subst. now left.
  - bind_inv H.
    match type of H with
    | match ?o with Some _ => _ | None => _ end = _ => destruct o as [q|]
    end.
    + match goal with
      | K : _calculate_parlay_metrics _ _ = Ok (Some _) |- _ =>
          destruct (metrics_shape _ _ _ K) as [Hq _]
      end.
      destruct (len (acc ++ [q]) >=? 5)%Z.
      * assert (Ho : out = acc ++ [q]) by (inversion H; reflexivity).
        subst out. apply in_app_or in Hp as [Hp|[<-|[]]];
          [now left|]. right. exists c. split; [now left|exact Hq].
      * destruct (IH _ H Hp) as [Hin|[c' [Hc' Hp']]].
        -- apply in_app_or in Hin as [Hin|[<-|[]]]; [now left|].
           right. exists c. split; [now left|exact Hq].
        -- right. exists c'. split; [now right|exact Hp'].
    + destruct (IH _ H Hp) as [Hin|[c' [Hc' Hp']]]; [now left|].
      right. exists c'. split; [now right|exact Hp'].
Qed.

Lemma foldM_invariant {A S} (f : S -> A -> result S) (P : S -> Prop)
  (l : list A) (s0 s : S) :
  (forall a x b, P a -> f a x = Ok b -> P b) ->
  P s0 -> foldM f l s0 = Ok s -> P s.
Proof.
  intro Hstep. revert s0. induction l as [|x t IH]; intros s0 H0 H;
    cbn [foldM] in H.
  - inversion H. now subst.
  - destruct (f s0 x) as [b|] eqn:F; cbn [bind] in H; [|discriminate].
    eapply IH; [|exact H]. eapply Hstep; eauto.
Qed.

(** Every varied parlay has exactly [target_legs] legs. *)
Lemma varied_parlays_size (all_legs : list Leg) (target_legs : Z)
  (sport : string) (out : list DiverseParlay.t) :
  _generate_varied_parlays all_legs target_legs sport = Ok out ->
  Forall (fun p => len (DiverseParlay.picks p) = target_legs) out.
Proof.
  unfold _generate_varied_parlays.
  apply foldM_invariant; [|constructor].
  intros acc type_combo b Hacc H.
  match type of H with
  | (if ?c then _ else _) = _ => destruct c
  end; [|inversion H; now subst].
  bind_inv H. apply Forall_forall. intros p Hp.
  destruct (collect_in _ _ _ _ _ H Hp) as [Hin|[c [Hc Hpc]]].
  - rewrite Forall_forall in Hacc. now apply Hacc.
  - rewrite Hpc. eapply combinations_length; eauto.
Qed.

Section DiverseBounds.

Variable cfg : Config.
Variable env : Env.

Lemma diverse_simple_in_bounds (games : list Game) (sport : string)
  (max_parlays : Z) (out : list DiverseParlay.t) :
  generate_diverse_sport_parlays cfg env games sport max_parlays false = Ok out ->
  Forall (fun p =>
            (MIN_PARLAY_LEGS cfg <= len (DiverseParlay.picks p)
             <= MAX_PARLAY_LEGS cfg)%Z
            /\ (2 <= len (DiverseParlay.picks p))%Z) out.
Proof.
  unfold generate_diverse_sport_parlays. intro H.
  destruct (is_nil games); [inversion H; constructor|].
  bind_inv H.
  match type of H with
  | (if ?c then _ else _) = _ => destruct c
  end; [inversion H; constructor|].
  bind_inv H. inversion H. subst. clear H.
  apply Forall_forall. intros p Hp.
  apply in_take, DedupFacts.in_deduplicate, in_sort_desc in Hp.
  unfold simple_candidates in E0.
  bind_inv E0. inversion E0. subst. clear E0.
  apply in_concat in Hp as [ps [Hps Hp]].
  match goal with
  | K : mapM _ (range _ _) = Ok _ |- _ =>
      destruct (mapM_in _ _ _ _ K Hps) as [n [Hn Fn]]
  end.
  apply in_range in Hn. bind_inv Fn. inversion Fn. subst. clear Fn.
  unfold keep_some in Hp. apply in_flat_map in Hp as [o [Ho Hp]].
  destruct o as [q|]; [|contradiction]. destruct Hp as [<-|[]].
  match goal with
  | K : mapM _ _ = Ok _ |- _ =>
      destruct (mapM_in _ _ _ _ K Ho) as [combo [Hc Fc]]
  end.
  match goal with
  | K : combinations _ _ = Ok _ |- _ =>
      pose proof (combinations_length _ _ _ _ K Hc) as L
  end.
  apply metrics_shape in Fc as [Hpk [_ [_ Htwo]]].
  rewrite Hpk. lia.
Qed.

Lemma diverse_varied_in_targets (games : list Game) (sport : string)
  (max_parlays : Z) (out : list DiverseParlay.t) :
  generate_diverse_sport_parlays cfg env games sport max_parlays true = Ok out ->
  Forall (fun p => In (len (DiverseParlay.picks p)) leg_count_targets) out.
Proof.
  unfold generate_diverse_sport_parlays. intro H.
  destruct (is_nil games); [inversion H; constructor|].
  bind_inv H.
  match type of H with
  | (if ?c then _ else _) = _ => destruct c
  end; [inversion H; constructor|].
  bind_inv H. inversion H. subst. clear H.
  apply Forall_forall. intros p Hp.
  apply in_take, DedupFacts.in_deduplicate, in_sort_desc in Hp.
  unfold varied_candidates in E0.
  bind_inv E0. inversion E0. subst. clear E0.
  apply in_concat in Hp as [ps [Hps Hp]].
  match goal with
  | K : mapM _ leg_count_targets = Ok _ |- _ =>
      destruct (mapM_in _ _ _ _ K Hps) as [n [Hn Fn]]
  end.
  match type of Fn with
  | (if ?c then _ else _) = _ => destruct c
  end.
  - inversion Fn. subst. contradiction.
  - apply varied_parlays_size in Fn. rewrite Forall_forall in Fn.
    now rewrite (Fn p Hp).
Qed.

End DiverseBounds.

(** *** The generators return *)

Import LegFacts.

Lemma returns_mapM_forall {A B} (f : A -> result B) (P : B -> Prop) (l : list A) :
  (forall x, In x l -> returns (f x) P) -> returns (mapM f l) (Forall P).
Proof.
  induction l as [|x t IH]; intro H; cbn [mapM].
  - apply returns_ok. constructor.
  - eapply returns_bind; [apply H; now left|]. intros y Hy.
    eapply returns_bind; [apply IH; intros; apply H; now right|].
    intros ys Hys. apply returns_ok. now constructor.
Qed.

Lemma combine_legs_from (combo : list Leg) (p o c : Q) :
  Forall (fun l => ~ odds l == 0) combo -> 0 < o ->
  returns
    (foldM
       (fun '(combined_implied_prob, combined_odds, avg_confidence) leg =>
          d <- american_to_decimal (odds leg) ;;
          Ok (combined_implied_prob * implied_probability leg,
              combined_odds * d,
              avg_confidence + confidence_score leg))
       combo (p, o, c))
    (fun st => o <= snd (fst st) /\ (combo <> [] -> o < snd (fst st))).
Proof.
  intro H. revert p o c. induction H as [|l t Hl _ IH]; intros p o c Ho;
    cbn [foldM].
  - apply returns_ok. cbn [fst snd]. split; [lra|congruence].
  - destruct (OddsFacts.american_to_decimal_nonzero _ Hl) as [d [-> Hd]].
    cbn [bind].
    assert (Hod : o < o * d) by nra.
    eapply returns_weaken; [apply IH; lra|].
    intros st [H1 _]. split; [lra|]. intros _. lra.
Qed.

Lemma to_american_returns (x : Q) :
  0 < x -> returns (to_american x) (fun _ => True).
Proof.
  intro H. unfold to_american. destruct (Qgeb x 1); [now apply returns_ok|].
  rewrite div_ok by lra. now apply returns_ok.
Qed.

Lemma build_parlay_score_returns (cfg : Config) (weights : Weights)
  (legs : list Leg) :
  (2 <= len legs)%Z -> MAX_PARLAY_LEGS cfg <> 0%Z ->
  returns (build_parlay_score cfg weights legs) (fun _ => True).
Proof.
  intros Htwo Hmax.
  destruct (Z.lt_ge_cases (len legs) (MIN_PARLAY_LEGS cfg)) as [L|G].
  - unfold build_parlay_score. apply Z.ltb_lt in L. rewrite L.
    now apply returns_ok.
  - destruct (ScoreFacts.build_parlay_score_value cfg weights legs G Htwo Hmax)
      as [score [_ [Hs _]]].
    rewrite Hs. now apply returns_ok.
Qed.

Section Candidates.

Variable cfg : Config.
Variable weights : Weights.
Hypothesis max_nonzero : MAX_PARLAY_LEGS cfg <> 0%Z.

Lemma candidate_metrics_return (combo : list Leg) :
  Forall (fun l => ~ odds l == 0) combo -> (2 <= len combo)%Z ->
  returns (combine_legs combo)
    (fun st => 0 < snd (fst st) - 1)
  /\ ~ inject_Z (len combo) == 0.
Proof.
  intros Hnz Htwo. split.
  - unfold combine_legs.
    eapply returns_weaken; [apply combine_legs_from; [exact Hnz|reflexivity]|].
    intros st [_ H]. cbn beta in H.
    assert (combo <> []) by (destruct combo; [cbn in Htwo; lia|discriminate]).
    specialize (H H0). lra.
  - pose proof (ScoreFacts.inject_len_pos combo 2 Htwo eq_refl). lra.
Qed.

Lemma sgp_candidate_returns (g : Game) (combo : list Leg) :
  Forall (fun l => ~ odds l == 0) combo -> (2 <= len combo)%Z ->
  returns (sgp_candidate cfg weights g combo) (fun _ => True).
Proof.
  intros Hnz Htwo.
  destruct (candidate_metrics_return combo Hnz Htwo) as [[[[p o] c] [Hc Ho]] Hn].
  unfold sgp_candidate. rewrite Hc. cbn [bind fst snd] in *.
  rewrite div_ok by exact Hn. cbn [bind].
  eapply returns_bind; [now apply to_american_returns|]. intros a _.
  eapply returns_bind; [now apply build_parlay_score_returns|]. intros sc _.
  now apply returns_ok.
Qed.

Lemma cross_candidate_returns (combo : list Leg) :
  Forall (fun l => ~ odds l == 0) combo -> (2 <= len combo)%Z ->
  returns (cross_candidate cfg weights combo)
    (fun p => (2 <= len (Parlay.legs p))%Z).
Proof.
  intros Hnz Htwo.
  destruct (candidate_metrics_return combo Hnz Htwo) as [[[[p o] c] [Hc Ho]] Hn].
  unfold cross_candidate. rewrite Hc. cbn [bind fst snd] in *.
  rewrite div_ok by exact Hn. cbn [bind].
  eapply returns_bind; [now apply to_american_returns|]. intros a _.
  eapply returns_bind; [now apply build_parlay_score_returns|]. intros sc _.
  apply returns_ok. exact Htwo.
Qed.

End Candidates.

Lemma combs_in {A} (l : list A) (r : nat) (c : list A) (x : A) :
  In c (combs l r) -> In x c -> In x l.
Proof.
  revert r c. induction l as [|y t IH]; intros [|r] c Hc Hx; cbn [combs] in Hc.
  - destruct Hc as [<-|[]]. contradiction.
  - contradiction.
  - destruct Hc as [<-|[]]. contradiction.
  - apply in_app_or in Hc as [Hc|Hc].
    + apply in_map_iff in Hc as [c' [<- Hc']].
      destruct Hx as [<-|Hx]; [now left|]. right. eapply IH; eauto.
    + right. eapply IH; eauto.
Qed.

Lemma combinations_returns {A} (P : A -> Prop) (l : list A) (r : Z) :
  (0 <= r)%Z -> Forall P l ->
  returns (combinations l r)
    (Forall (fun c => Forall P c /\ len c = r)).
Proof.
  intros Hr Hl. unfold combinations.
  assert (E : (r <? 0)%Z = false) by (apply Z.ltb_ge; lia).
  rewrite E. apply returns_ok. apply Forall_forall. intros c Hc. split.
  - apply Forall_forall. intros x Hx. rewrite Forall_forall in Hl.
    apply Hl. eapply combs_in; eauto.
  - apply combs_length in Hc. unfold len. lia.
Qed.

Lemma mean_returns (l : list Q) :
  l <> [] -> returns (CorrelationMatrix.mean l) (fun _ => True).
Proof.
  intro H. unfold CorrelationMatrix.mean. destruct l as [|x t]; [congruence|].
  rewrite div_ok; [now apply returns_ok|].
  change 0 with (inject_Z 0). rewrite inject_Z_injective.
  unfold len. cbn [List.length]. lia.
Qed.

Lemma optimize_returns (cands : list Parlay.t) (max_parlays : Z) :
  Forall (fun p => (2 <= len (Parlay.legs p))%Z) cands ->
  returns (CorrelationMatrix.optimize_parlay_selection cands max_parlays)
    (fun _ => True).
Proof.
  intro H. unfold CorrelationMatrix.optimize_parlay_selection.
  destruct cands as [|c0 cs] eqn:Ec; [now apply returns_ok|].
  rewrite <- Ec in *. clear Ec c0 cs.
  eapply returns_bind; [|intros; now apply returns_ok].
  apply returns_mapM_forall with (P := fun _ => True). intros p Hp.
  rewrite Forall_forall in H. specialize (H p Hp).
  eapply returns_bind; [|intros; now apply returns_ok].
  apply mean_returns. rewrite MatrixFacts.triu_is_pairs.
  intro E. apply (f_equal (@List.length Q)) in E. rewrite length_map in E.
  pose proof (all_pairs_length (Parlay.legs p)) as L.
  cbn [List.length] in E. unfold len in H. nia.
Qed.

Lemma kelly_fraction_returns (win_prob o : Q) :
  returns (KellyCriterion.calculate_kelly_fraction win_prob o) (fun _ => True).
Proof.
  unfold KellyCriterion.calculate_kelly_fraction.
  destruct (Qle_bool win_prob 0 || Qle_bool 1 win_prob);
    [now apply returns_ok|].
  destruct (Qltb o 0) eqn:N.
  - apply Qltb_true in N.
    assert (Ha : 0 < Qabs o) by (apply Qabs_pos_of_nonzero; lra).
    rewrite div_ok by lra. cbn [bind].
    assert (Hb : 0 < 100 / Qabs o) by (apply Qlt_shift_div_l; lra).
    rewrite div_ok by lra. now apply returns_ok.
  - destruct (Qltb 0 o) eqn:P; [|now apply returns_ok].
    apply Qltb_true in P.
    rewrite div_ok by (intro E; discriminate E). cbn [bind].
    assert (Hb : 0 < o / 100) by (apply Qlt_shift_div_l; lra).
    rewrite div_ok by lra. now apply returns_ok.
Qed.

Lemma add_kelly_returns (p : Parlay.t) : returns (add_kelly p) (fun _ => True).
Proof.
  unfold add_kelly, KellyCriterion.calculate_parlay_kelly.
  eapply returns_bind; [|intros; now apply returns_ok].
  eapply returns_bind with (P := fun _ => True);
    [|intros; apply kelly_fraction_returns].
  destruct (Qltb (Parlay.combined_odds p) 0) eqn:N.
  - apply Qltb_true in N.
    assert (Ha : 0 < Qabs (Parlay.combined_odds p))
      by (apply Qabs_pos_of_nonzero; lra).
    rewrite div_ok by lra. now apply returns_ok.
  - rewrite div_ok by (intro E; discriminate E). now apply returns_ok.
Qed.

Section Returns.

Variable cfg : Config.
Variable weights : Weights.
Variable env : Env.
Hypothesis max_nonzero : MAX_PARLAY_LEGS cfg <> 0%Z.

Lemma legs_of_nonzero (g : Game) :
  Forall (fun l => ~ odds l == 0) (legs_of cfg env g).
Proof.
  unfold legs_of.
  destruct (analyze_game_returns cfg env g) as [legs [-> H]]. exact H.
Qed.

Lemma pool_nonzero (games : list Game) :
  Forall (fun l => ~ odds l == 0) (pool_of cfg env games).
Proof.
  unfold pool_of. apply Forall_forall. intros l Hl.
  apply in_flat_map in Hl as [g [_ Hl]].
  pose proof (legs_of_nonzero g) as H. rewrite Forall_forall in H. now apply H.
Qed.

Lemma same_game_parlays_return (g : Game) (max_parlays : Z) :
  returns (generate_same_game_parlays cfg weights env g max_parlays)
    (fun _ => True).
Proof.
  unfold generate_same_game_parlays. rewrite analyze_game_legs_of. cbn [bind].
  destruct (len (filter is_sgp_type (legs_of cfg env g)) <? MIN_PARLAY_LEGS cfg)%Z;
    [now apply returns_ok|].
  eapply returns_bind; [|intros; now apply returns_ok].
  apply returns_mapM_forall with (P := fun _ => True). intros n Hn.
  apply in_range in Hn.
  eapply returns_bind.
  - apply combinations_returns with (P := fun l => ~ odds l == 0); [lia|].
    apply Forall_forall. intros l Hl. apply filter_In in Hl as [Hl _].
    pose proof (legs_of_nonzero g) as H. rewrite Forall_forall in H. now apply H.
  - intros combos Hcombos. eapply returns_weaken;
      [apply returns_mapM_forall with (P := fun _ => True)|auto].
    intros combo Hc. rewrite Forall_forall in Hcombos.
    destruct (Hcombos combo Hc) as [Hnz Hlen].
    apply sgp_candidate_returns; [exact max_nonzero|exact Hnz|lia].
Qed.

(** With at least two legs per parlay and a nonzero [MAX_PARLAY_LEGS],
    [generate_parlays] returns on every slate. *)
Lemma generate_parlays_returns (games : list Game) (max_parlays : Z)
  (include_sgp : bool) :
  (2 <= MIN_PARLAY_LEGS cfg)%Z ->
  returns (generate_parlays cfg weights env games max_parlays include_sgp)
    (Forall (in_bounds cfg)).
Proof.
  intro Hmin.
  assert (R : returns
                (generate_parlays cfg weights env games max_parlays include_sgp)
                (fun _ => True)).
  { unfold generate_parlays.
    eapply returns_bind with (P := fun _ => True).
    { destruct include_sgp; [|now apply returns_ok].
      eapply returns_bind; [|intros; now apply returns_ok].
      apply returns_mapM_forall with (P := fun _ => True).
      intros g _. apply same_game_parlays_return. }
    intros all_parlays _. rewrite analyze_all. cbn [bind]. rewrite pool_concat.
    destruct (len (pool_of cfg env games) <? MIN_PARLAY_LEGS cfg)%Z;
      [now apply returns_ok|].
    eapply returns_bind
      with (P := Forall (Forall (fun p => (2 <= len (Parlay.legs p))%Z))).
    { apply returns_mapM_forall. intros n Hn. apply in_range in Hn.
      eapply returns_bind.
      - apply combinations_returns with (P := fun l => ~ odds l == 0); [lia|].
        apply pool_nonzero.
      - intros combos Hcombos. apply returns_mapM_forall.
        intros combo Hc. rewrite Forall_forall in Hcombos.
        destruct (Hcombos combo Hc) as [Hnz Hlen].
        apply cross_candidate_returns; [exact max_nonzero|exact Hnz|lia]. }
    intros per_size Hper.
    eapply returns_bind.
    { apply optimize_returns. apply Forall_forall. intros p Hp.
      apply in_sort_desc, in_concat in Hp as [ps [Hps Hp]].
      rewrite Forall_forall in Hper. specialize (Hper ps Hps).
      rewrite Forall_forall in Hper. now apply Hper. }
    intros optimized _.
    eapply returns_bind;
      [apply returns_mapM_forall with (P := fun _ => True);
       intros; apply add_kelly_returns|].
    intros; now apply returns_ok. }
  destruct R as [out [Hout _]]. exists out. split; [exact Hout|].
  eapply generate_parlays_in_bounds; eauto.
Qed.

End Returns.

(** The fuel given to the filling loop is enough: one more iteration
    changes nothing. *)
Lemma fill_fuel_enough (fuel : nat) (all_legs selected : list Leg) (num_legs : Z) :
  (num_legs - len selected <= Z.of_nat fuel)%Z ->
  fill (S fuel) all_legs selected num_legs = fill fuel all_legs selected num_legs.
Proof.
  revert selected. induction fuel as [|f IH]; intros selected H.
  - cbn [fill].
    assert (E : (len selected <? num_legs)%Z = false) by (apply Z.ltb_ge; lia).
    now rewrite E.
  - change (fill (S (S f)) all_legs selected num_legs)
      with (if (len selected <? num_legs)%Z && (len selected <? len all_legs)%Z
            then
              match filter (fun l => negb (existsb (leg_eqb l) selected)) all_legs with
              | r :: _ => fill (S f) all_legs (selected ++ [r]) num_legs
              | [] => selected
              end
            else selected).
    cbn [fill].
    destruct ((len selected <? num_legs)%Z && (len selected <? len all_legs)%Z);
      [|reflexivity].
    destruct (filter (fun l => negb (existsb (leg_eqb l) selected)) all_legs)
      as [|r rest]; [reflexivity|].
    apply IH. unfold len in *. rewrite length_app. cbn [List.length]. lia.
Qed.

(** C6 (as the code has it).  Every candidate [generate_parlays] returns is
    a cross-game parlay of [MIN_PARLAY_LEGS] to [MAX_PARLAY_LEGS] legs or a
    same-game parlay of [max(MIN_PARLAY_LEGS, 4)] to 8 legs; the same-game
    generator on its own returns the latter; the diverse generator returns
    parlays of [MIN_PARLAY_LEGS] to [MAX_PARLAY_LEGS] (and at least 2) legs
    without variety, and of a leg count from the fixed list 2, 3, 4, 5, 6, 7,
    8, 10, 12, 15 with variety.  When [MIN_PARLAY_LEGS] is at least 2 and
    [MAX_PARLAY_LEGS] is not 0, [generate_parlays] does return. *)
Theorem returned_leg_counts (cfg : Config) (weights : Weights) (env : Env)
  (games : list Game) (max_parlays : Z) :
  (forall include_sgp out,
     generate_parlays cfg weights env games max_parlays include_sgp = Ok out ->
     Forall (in_bounds cfg) out)
  /\ (forall g out,
        generate_same_game_parlays cfg weights env g max_parlays = Ok out ->
        Forall (fun p => in_bounds cfg p /\ Parlay.is_sgp p = true) out)
  /\ (forall sport out,
        generate_diverse_sport_parlays cfg env games sport max_parlays false
        = Ok out ->
        Forall (fun p =>
                  (MIN_PARLAY_LEGS cfg <= len (DiverseParlay.picks p)
                   <= MAX_PARLAY_LEGS cfg)%Z
                  /\ (2 <= len (DiverseParlay.picks p))%Z) out)
  /\ (forall sport out,
        generate_diverse_sport_parlays cfg env games sport max_parlays true
        = Ok out ->
        Forall (fun p => In (len (DiverseParlay.picks p)) leg_count_targets) out)
  /\ ((2 <= MIN_PARLAY_LEGS cfg)%Z -> MAX_PARLAY_LEGS cfg <> 0%Z ->
      forall include_sgp,
        exists out,
          generate_parlays cfg weights env games max_parlays include_sgp = Ok out).
Proof.
  split; [intros; eapply generate_parlays_in_bounds; eauto|].
  split; [intros; eapply same_game_parlays_in_bounds; eauto|].
  split; [intros; eapply diverse_simple_in_bounds; eauto|].
  split; [intros; eapply diverse_varied_in_targets; eauto|].
  intros Hmin Hmax include_sgp.
  destruct (generate_parlays_returns cfg weights env Hmax games max_parlays
              include_sgp Hmin) as [out [Hout _]].
  now exists out.
Qed.

Lemma returned_leg_counts_witness :
  exists out,
    generate_parlays SlateSample.two_to_four default_weights SlateSample.env
      [SlateSample.lakers_celtics] 10 true = Ok out
    /\ Forall (in_bounds SlateSample.two_to_four) out.
Proof.
  eexists. split; [vm_compute; reflexivity|].
  apply (proj1 (returned_leg_counts SlateSample.two_to_four default_weights
                  SlateSample.env [SlateSample.lakers_celtics] 10) true).
  vm_compute. reflexivity.
Defined.

(** C6 fails as stated: with bounds of two to four legs, the sample slate
    makes [generate_parlays] return a same-game parlay of five legs. *)
Lemma five_leg_parlay_counterexample :
  MIN_PARLAY_LEGS SlateSample.two_to_four = 2%Z
  /\ MAX_PARLAY_LEGS SlateSample.two_to_four = 4%Z
  /\ exists out p,
       generate_parlays SlateSample.two_to_four default_weights SlateSample.env
         [SlateSample.lakers_celtics] 10 true = Ok out
       /\ In p out
       /\ Parlay.is_sgp p = true
       /\ Parlay.num_legs p = 5%Z
       /\ len (Parlay.legs p) = 5%Z.
Proof.
  split; [reflexivity|]. split; [reflexivity|].
  eexists. eexists. split; [vm_compute; reflexivity|].
  split; [right; left; reflexivity|].
  repeat split.
Qed.

End GenerationFacts.


(** ** Prices *)

Module PriceFacts.
Import ResearchEngine.

Lemma Qdiv_pos (a b : Q) : 0 < a -> 0 < b -> 0 < a / b.
Proof.
  intros A B. apply Qlt_shift_div_l; [exact B | lra].
Qed.

Lemma Qdiv_lt_one (a b : Q) : 0 < b -> a < b -> a / b < 1.
Proof.
  intros B L. apply Qlt_shift_div_r; [exact B | lra].
Qed.

Lemma implied_prob_value (o : Q) :
  exists p,
    american_to_implied_prob o = Ok p
    /\ 0 <= p < 1
    /\ (o == 0 -> p == 0)
    /\ (~ o == 0 -> 0 < p).
Proof.
  rewrite OddsFacts.american_to_implied_prob_total.
  destruct (Qltb 0 o) eqn:E.
  - apply Qltb_true in E. eexists; split; [reflexivity|].
    assert (0 < 100 / (o + 100)) by (apply Qdiv_pos; lra).
    assert (100 / (o + 100) < 1) by (apply Qdiv_lt_one; lra).
    repeat split; try lra.
  - apply Qltb_false in E. eexists; split; [reflexivity|].
    pose proof (Qabs_nonneg o) as N.
    assert (Qabs o / (Qabs o + 100) < 1) by (apply Qdiv_lt_one; lra).
    repeat split; try lra.
    + apply Qle_shift_div_l; lra.
    + intro Z. rewrite Z. reflexivity.
    + intro NZ. apply Qdiv_pos; [|lra]. apply Qabs_pos_of_nonzero. exact NZ.
Qed.

(** X1.  [american_to_implied_prob] never raises and its value lies in
    [0, 1): strictly between 0 and 1 at nonzero odds, and 0 at odds 0, where
    [american_to_decimal] raises instead. *)
Theorem implied_probability_is_a_probability (american_odds : Q) :
  exists p,
    american_to_implied_prob american_odds = Ok p
    /\ 0 <= p < 1
    /\ (american_odds == 0 -> p == 0)
    /\ (~ american_odds == 0 -> 0 < p)
    /\ (american_odds == 0 ->
        american_to_decimal american_odds = Raise ZeroDivisionError).
Proof.
  destruct (implied_prob_value american_odds) as [p [E [R [Z N]]]].
  exists p. repeat split; try assumption; try apply R.
  apply OddsFacts.american_to_decimal_zero.
Qed.

Lemma decimal_implied_product (o : Q) :
  ~ o == 0 ->
  exists d p,
    american_to_decimal o = Ok d
    /\ american_to_implied_prob o = Ok p
    /\ d * p == 1 /\ 1 < d /\ 0 < p < 1.
Proof.
  intro NZ.
  destruct (implied_prob_value o) as [p [E [R [_ P]]]].
  specialize (P NZ).
  destruct (Qlt_le_dec 0 o) as [L|L].
  - exists (o / 100 + 1), p.
    rewrite (OddsFacts.american_to_decimal_pos o L).
    repeat split; try assumption; try lra.
    + rewrite OddsFacts.american_to_implied_prob_total in E.
      apply Qltb_true in L. rewrite L in E. inversion E. field. 
      apply Qltb_true in L. lra.
    + assert (0 < o / 100) by (apply Qdiv_pos; lra). lra.
  - assert (o < 0) as L' by (destruct (Qeq_dec o 0); [contradiction|lra]).
    exists (100 / Qabs o + 1), p.
    rewrite (OddsFacts.american_to_decimal_neg o L').
    pose proof (Qabs_pos_of_nonzero o NZ) as A.
    repeat split; try assumption; try lra.
    + rewrite OddsFacts.american_to_implied_prob_total in E.
      apply Qltb_false in L. rewrite L in E. inversion E. field. lra.
    + assert (0 < 100 / Qabs o) by (apply Qdiv_pos; lra). lra.
Qed.

(** X2.  At nonzero odds the decimal odds and the implied probability are
    reciprocal: their product is 1, with decimal odds above 1 and the
    probability strictly between 0 and 1. *)
Theorem decimal_odds_invert_implied_probability (american_odds : Q) :
  ~ american_odds == 0 ->
  exists d p,
    american_to_decimal american_odds = Ok d
    /\ american_to_implied_prob american_odds = Ok p
    /\ d * p == 1 /\ 1 < d /\ 0 < p < 1.
Proof.
  apply decimal_implied_product.
Qed.

Lemma decimal_odds_invert_implied_probability_witness :
  exists d p,
    american_to_decimal (- (110)) = Ok d
    /\ american_to_implied_prob (- (110)) = Ok p
    /\ d * p == 1 /\ 1 < d /\ 0 < p < 1.
Proof.
  apply (decimal_odds_invert_implied_probability (- (110))).
  intro H. vm_compute in H. discriminate H.
Defined.

Lemma expected_value_edge (ip tp o : Q) :
  ~ o == 0 ->
  exists d p ev,
    american_to_decimal o = Ok d
    /\ american_to_implied_prob o = Ok p
    /\ calculate_expected_value ip tp o = Ok ev
    /\ ev == d * (tp - p) /\ 1 < d.
Proof.
  intro NZ.
  destruct (decimal_implied_product o NZ) as [d [p [D [P [M [G _]]]]]].
  exists d, p. unfold calculate_expected_value. rewrite D. cbn [bind].
  eexists. repeat split; try eassumption; try reflexivity.
  transitivity (tp * d - d * p); [rewrite M|]; ring.
Qed.



Lemma to_american_value (x : Q) :
  0 < x ->
  exists a d,
    to_american x = Ok a
    /\ (100 <= a \/ a < - (100))
    /\ american_to_decimal a = Ok d
    /\ d == x + 1.
Proof.
  intro X. unfold to_american, Qgeb.
  destruct (Qle_bool 1 x) eqn:E.
  - apply Qle_bool_iff in E.
    exists (x * 100), (x * 100 / 100 + 1).
    repeat split; [left; lra| |field].
    apply OddsFacts.american_to_decimal_pos. lra.
  - assert (x < 1) as L.
    { apply Qnot_le_lt. intro L. apply Qle_bool_iff in L. congruence. }
    rewrite div_ok by lra.
    assert (- (100) / x < - (100)) as N.
    { apply Qlt_shift_div_r; [exact X|]. lra. }
    exists (- (100) / x), (100 / Qabs (- (100) / x) + 1).
    repeat split; [right; exact N| |].
    + apply OddsFacts.american_to_decimal_neg. lra.
    + rewrite Qabs_neg by lra. field. lra.
Qed.

(** X4.  A positive profit multiplier converts to American odds outside
    (-100, 100), at least +100 when the multiplier is at least 1 and below
    -100 otherwise, and converting those odds back gives the multiplier
    plus 1. *)
Theorem to_american_round_trip (combined_odds : Q) :
  0 < combined_odds ->
  exists a d,
    to_american combined_odds = Ok a
    /\ (100 <= a \/ a < - (100))
    /\ american_to_decimal a = Ok d
    /\ d == combined_odds + 1.
Proof.
  apply to_american_value.
Qed.

Lemma to_american_round_trip_witness :
  exists a d,
    to_american (5 # 10) = Ok a
    /\ (100 <= a \/ a < - (100))
    /\ american_to_decimal a = Ok d
    /\ d == (5 # 10) + 1.
Proof.
  apply (to_american_round_trip (5 # 10)). reflexivity.
Defined.

End PriceFacts.

(** ** Legs of a game *)

Module PricedFacts.
Import ResearchEngine LegFacts.

Lemma clamp_id (s : Q) : 0 <= s <= 1 -> Qmin (Qmax s 0) 1 == s.
Proof.
  intros [A B]. rewrite (Q.max_l s 0 A). apply Q.min_l. exact B.
Qed.

Lemma confidence_for_compat (bt : string) (c c' : Q) :
  c == c' -> confidence_for bt c -> confidence_for bt c'.
Proof.
  unfold confidence_for. intros E H.
  repeat split_if; rewrite <- E; exact H.
Qed.

Lemma confidence_for_range (bt : string) (c : Q) :
  confidence_for bt c -> 5 # 10 <= c <= 65 # 100.
Proof.
  unfold confidence_for. repeat split_if; intro H.
  - destruct H as [H|[H|[H|H]]]; rewrite H; split; discriminate.
  - rewrite H; split; discriminate.
  - rewrite H; split; discriminate.
  - rewrite H; split; discriminate.
Qed.

Lemma confidence_score_for (g : Game) (bt sel : string) :
  returns (calculate_confidence_score g bt sel) (confidence_for bt).
Proof.
  unfold calculate_confidence_score.
  eapply returns_bind with (P := fun s => confidence_for bt s /\ 0 <= s <= 1).
  - unfold confidence_for.
    destruct (String.eqb bt "moneyline").
    + split_if.
      * eapply returns_bind; [apply implied_prob_returns|]. intros ip _.
        split_if; [|split_if]; apply returns_ok.
        -- split; [right; right; right; reflexivity | split; discriminate].
        -- split; [right; right; left; reflexivity | split; discriminate].
        -- split; [right; left; reflexivity | split; discriminate].
      * apply returns_ok. split; [left; reflexivity | split; discriminate].
    + repeat split_if; apply returns_ok; split;
        try reflexivity; split; discriminate.
  - intros s [F R]. apply returns_ok.
    eapply confidence_for_compat; [|exact F]. symmetry. now apply clamp_id.
Qed.

Section Blocks.

Variable cfg : Config.
Variable env : Env.
Variable g : Game.
Variable P : Leg -> Prop.

Hypothesis moneyline_block :
  forall bt sel o label, ~ o == 0 ->
    returns (moneyline_leg cfg env g bt sel o label) (Forall P).
Hypothesis placeholder_block :
  forall bt csel sel o reasoning, ~ o == 0 ->
    returns (placeholder_leg cfg g bt csel sel o reasoning) (Forall P).
Hypothesis market_block :
  forall bt csel esel sel o prop extra, ~ o == 0 ->
    returns (market_leg cfg env g bt csel esel sel o prop extra) (Forall P).

Ltac skip_block := apply returns_ok; constructor.

Lemma game_legs_blocks : returns (game_legs cfg env g) (Forall P).
Proof.
  unfold game_legs.
  eapply returns_bind with (P := Forall P).
  { destruct (truthy (home_moneyline g)) eqn:T; [|skip_block].
    apply moneyline_block. now apply truthy_nonzero. }
  intros l1 H1.
  eapply returns_bind with (P := Forall P).
  { destruct (truthy (away_moneyline g)) eqn:T; [|skip_block].
    apply moneyline_block. now apply truthy_nonzero. }
  intros l2 H2.
  eapply returns_bind with (P := Forall P).
  { destruct (truthy (spread g)); cbn [andb]; [|skip_block].
    destruct (truthy (spread_home_odds g)) eqn:T; [|skip_block].
    apply placeholder_block. now apply truthy_nonzero. }
  intros l3 H3.
  eapply returns_bind with (P := Forall P).
  { destruct (truthy (total g)); cbn [andb]; [|skip_block].
    destruct (truthy (over_odds g)) eqn:T; [|skip_block].
    apply placeholder_block. now apply truthy_nonzero. }
  intros l4 H4.
  eapply returns_bind with (P := Forall P).
  { split_if; [|skip_block].
    eapply returns_bind with (P := Forall P).
    { destruct (fighter1 g); [|skip_block].
      destruct (truthy_str (Some s)); cbn [andb]; [|skip_block].
      destruct (truthy (home_moneyline g)) eqn:T; [|skip_block].
      apply moneyline_block. now apply truthy_nonzero. }
    intros a Ha.
    eapply returns_bind with (P := Forall P).
    { destruct (fighter2 g); [|skip_block].
      destruct (truthy_str (Some s)); cbn [andb]; [|skip_block].
      destruct (truthy (away_moneyline g)) eqn:T; [|skip_block].
      apply moneyline_block. now apply truthy_nonzero. }
    intros b Hb. apply returns_ok. apply Forall_app. auto. }
  intros l5 H5. apply returns_ok.
  repeat (apply Forall_app; split); assumption.
Qed.

Lemma player_prop_legs_blocks (prop : PlayerProp) :
  returns (player_prop_legs cfg env g prop) (Forall P).
Proof.
  unfold player_prop_legs.
  eapply returns_bind with (P := Forall P).
  { destruct (prop_value prop); [|skip_block].
    destruct (truthy (pp_over_odds prop)) eqn:T; [|skip_block].
    apply market_block. now apply truthy_nonzero. }
  intros over Hover.
  eapply returns_bind with (P := Forall P).
  { destruct (prop_value prop); [|skip_block].
    destruct (truthy (pp_under_odds prop)) eqn:T; [|skip_block].
    apply market_block. now apply truthy_nonzero. }
  intros under Hunder.
  eapply returns_bind with (P := Forall P).
  { destruct (truthy (yes_odds prop)) eqn:T; [|skip_block].
    apply market_block. now apply truthy_nonzero. }
  intros yes Hyes. apply returns_ok.
  repeat (apply Forall_app; split); assumption.
Qed.

Lemma team_market_legs_blocks (market : PlayerProp) :
  returns (team_market_legs cfg env g market) (Forall P).
Proof.
  unfold team_market_legs.
  eapply returns_bind with (P := Forall P).
  { destruct (prop_value market); [|skip_block].
    destruct (truthy (pp_over_odds market)) eqn:T; [|skip_block].
    apply market_block. now apply truthy_nonzero. }
  intros over Hover.
  eapply returns_bind with (P := Forall P).
  { destruct (prop_value market); [|skip_block].
    destruct (truthy (pp_under_odds market)) eqn:T; [|skip_block].
    apply market_block. now apply truthy_nonzero. }
  intros under Hunder.
  eapply returns_bind with (P := Forall P).
  { destruct (truthy (yes_odds market)) eqn:T; [|skip_block].
    apply market_block. now apply truthy_nonzero. }
  intros yes Hyes. apply returns_ok.
  repeat (apply Forall_app; split); assumption.
Qed.

Lemma analyze_game_blocks : returns (analyze_game cfg env g) (Forall P).
Proof.
  unfold analyze_game.
  eapply returns_bind; [apply game_legs_blocks|]. intros gl Hgl.
  eapply returns_bind with (P := Forall P).
  { unfold market_legs.
    eapply returns_bind;
      [apply returns_mapM; intros; apply player_prop_legs_blocks|].
    intros a Ha.
    eapply returns_bind;
      [apply returns_mapM; intros; apply team_market_legs_blocks|].
    intros b Hb. apply returns_ok. apply Forall_app. auto. }
  intros ml Hml. apply returns_ok. apply Forall_app. auto.
Qed.

End Blocks.

Section Priced.

Variable cfg : Config.
Variable env : Env.
Variable g : Game.

Lemma moneyline_leg_priced (bt sel : string) (o : Q) (label : string) :
  ~ o == 0 ->
  returns (moneyline_leg cfg env g bt sel o label) (Forall (priced cfg g)).
Proof.
  intro Ho. unfold moneyline_leg.
  eapply returns_bind; [apply true_probability_returns|]. intros tp _.
  destruct (PriceFacts.implied_prob_value o) as [p [Ep _]].
  rewrite Ep. cbn [bind].
  eapply returns_bind; [now apply expected_value_returns|]. intros ev _.
  eapply returns_bind; [apply confidence_score_for|]. intros c Hc.
  destruct (Qltb 0 ev) eqn:Lev; cbn [andb]; [|apply returns_ok; constructor].
  destruct (Qgeb c (MIN_CONFIDENCE cfg)) eqn:Lc; [|apply returns_ok; constructor].
  apply returns_ok. constructor; [|constructor].
  unfold priced. cbn [game odds implied_probability expected_value
                      bet_type confidence_score].
  apply Qltb_true in Lev. apply Qle_bool_iff in Lc.
  repeat split; auto.
Qed.

Lemma placeholder_leg_priced (bt csel sel : string) (o : Q) (reasoning : string) :
  ~ o == 0 ->
  returns (placeholder_leg cfg g bt csel sel o reasoning) (Forall (priced cfg g)).
Proof.
  intro Ho. unfold placeholder_leg.
  eapply returns_bind; [apply confidence_score_for|]. intros c Hc.
  destruct (Qgeb c (MIN_CONFIDENCE cfg)) eqn:Lc; [|apply returns_ok; constructor].
  destruct (PriceFacts.implied_prob_value o) as [p [Ep _]].
  rewrite Ep. cbn [bind].
  apply returns_ok. constructor; [|constructor].
  unfold priced. cbn [game odds implied_probability expected_value
                      bet_type confidence_score].
  apply Qle_bool_iff in Lc.
  repeat split; auto.
Qed.

Lemma market_leg_priced (bt csel esel sel : string) (o : Q) (prop : PlayerProp)
  (extra : Q -> list (string * PyVal)) :
  ~ o == 0 ->
  returns (market_leg cfg env g bt csel esel sel o prop extra)
    (Forall (priced cfg g)).
Proof.
  intro Ho. unfold market_leg.
  eapply returns_bind; [apply confidence_score_for|]. intros c Hc.
  destruct (Qgeb c (MIN_CONFIDENCE cfg * (9 # 10))) eqn:Lc;
    [|apply returns_ok; constructor].
  destruct (PriceFacts.implied_prob_value o) as [p [Ep _]].
  rewrite Ep. cbn [bind].
  eapply returns_bind; [apply true_probability_returns|]. intros tp _.
  eapply returns_bind; [now apply expected_value_returns|]. intros ev _.
  split_if; [|apply returns_ok; constructor].
  apply returns_ok. constructor; [|constructor].
  unfold priced. cbn [game odds implied_probability expected_value
                      bet_type confidence_score].
  apply Qle_bool_iff in Lc.
  repeat split; auto.
  eapply Qlt_le_trans; [|apply Q.le_max_r]. reflexivity.
Qed.

Lemma analyze_game_priced :
  returns (analyze_game cfg env g) (Forall (priced cfg g)).
Proof.
  apply analyze_game_blocks.
  - apply moneyline_leg_priced.
  - apply placeholder_leg_priced.
  - apply market_leg_priced.
Qed.

End Priced.

Lemma priced_implied (cfg : Config) (g : Game) (l : Leg) :
  priced cfg g l ->
  0 < implied_probability l < 1
  /\ implied_probability l
     == (if Qltb 0 (odds l) then 100 / (odds l + 100)
         else Qabs (odds l) / (Qabs (odds l) + 100)).
Proof.
  intros [_ [NZ [E _]]].
  destruct (PriceFacts.implied_prob_value (odds l)) as [p [Ep [R [_ Pos]]]].
  rewrite E in Ep.
  assert (implied_probability l = p) as Ep' by congruence.
  split.
  - rewrite Ep'. split; [now apply Pos | apply R].
  - rewrite OddsFacts.american_to_implied_prob_total in E.
    assert (forall a b : Q, Ok a = Ok b -> a == b) as K
      by (intros a b K; inversion K; reflexivity).
    symmetry. now apply K.
Qed.

(** X5.  [analyze_game] never raises, and every leg it returns is on the
    analysed game, has nonzero odds, carries the implied probability of its
    own odds (strictly between 0 and 1), a positive [expected_value] and a
    confidence between 0.5 and 0.65. *)
Theorem analyze_game_legs_are_priced (cfg : Config) (env : Env) (g : Game) :
  returns (analyze_game cfg env g)
    (Forall (fun l =>
       game l = g
       /\ ~ odds l == 0
       /\ american_to_implied_prob (odds l) = Ok (implied_probability l)
       /\ 0 < implied_probability l < 1
       /\ 0 < expected_value l
       /\ 5 # 10 <= confidence_score l <= 65 # 100)).
Proof.
  eapply returns_weaken; [apply analyze_game_priced|].
  intros legs H. eapply Forall_impl; [|exact H].
  intros l Hl. pose proof (priced_implied cfg g l Hl) as [I _].
  destruct Hl as [G [NZ [E [V [C _]]]]].
  repeat split; try assumption; try apply I.
  all: apply (confidence_for_range _ _ C).
Qed.

Lemma priced_types (cfg : Config) (g : Game) (l : Leg) :
  5 # 10 < MIN_CONFIDENCE cfg * (9 # 10) ->
  priced cfg g l ->
  bet_type l = "moneyline" \/ bet_type l = "fighter_moneyline"
  \/ bet_type l = "prop".
Proof.
  intros M [_ [_ [_ [_ [C T]]]]].
  unfold confidence_for in C.
  destruct (String.eqb (bet_type l) "moneyline") eqn:E1;
    [left; now apply String.eqb_eq|].
  destruct (String.eqb (bet_type l) "prop") eqn:E2;
    [right; right; now apply String.eqb_eq|].
  destruct (String.eqb (bet_type l) "fighter_moneyline") eqn:E3;
    [right; left; now apply String.eqb_eq|].
  exfalso. destruct T as [T|T]; lra.
Qed.

(** X6.  When nine tenths of [MIN_CONFIDENCE] exceed 0.5, as with the default
    0.6, every leg [analyze_game] returns is a moneyline, a fighter moneyline
    or a prop: spreads, totals and every other market get the base
    confidence 0.5 and never pass the threshold. *)
Theorem only_moneylines_and_props_pass (cfg : Config) (env : Env) (g : Game) :
  5 # 10 < MIN_CONFIDENCE cfg * (9 # 10) ->
  returns (analyze_game cfg env g)
    (Forall (fun l =>
       bet_type l = "moneyline" \/ bet_type l = "fighter_moneyline"
       \/ bet_type l = "prop")).
Proof.
  intro M. eapply returns_weaken; [apply analyze_game_priced|].
  intros legs H. eapply Forall_impl; [|exact H].
  intros l. now apply priced_types.
Qed.

Lemma only_moneylines_and_props_pass_witness :
  returns
    (analyze_game default_config SlateSample.env SlateSample.lakers_celtics)
    (Forall (fun l =>
       bet_type l = "moneyline" \/ bet_type l = "fighter_moneyline"
       \/ bet_type l = "prop")).
Proof.
  apply (only_moneylines_and_props_pass default_config SlateSample.env
           SlateSample.lakers_celtics).
  reflexivity.
Defined.

End PricedFacts.

(** ** Parlays of priced legs *)

Module ParlayFacts.
Import ResearchEngine LegFacts GenerationFacts.

Lemma priced_fairly (cfg : Config) (g : Game) (l : Leg) :
  priced cfg g l -> fairly_priced l.
Proof.
  intros [_ [NZ [E _]]]. now split.
Qed.

Lemma priced_in_fairly (cfg : Config) (games : list Game) (l : Leg) :
  priced_in cfg games l -> fairly_priced l.
Proof.
  intros [g [_ H]]. eapply priced_fairly; eauto.
Qed.

Lemma same_parlay_sym (p q : Parlay.t) : same_parlay p q -> same_parlay q p.
Proof.
  unfold same_parlay. intuition congruence.
Qed.

Lemma same_parlay_trans (p q r : Parlay.t) :
  same_parlay p q -> same_parlay q r -> same_parlay p r.
Proof.
  unfold same_parlay. intuition congruence.
Qed.

Lemma optimize_keeps_parlay (cands out : list Parlay.t) (max_parlays : Z)
  (p : Parlay.t) :
  CorrelationMatrix.optimize_parlay_selection cands max_parlays = Ok out ->
  In p out -> exists c, In c cands /\ same_parlay p c.
Proof.
  unfold CorrelationMatrix.optimize_parlay_selection.
  destruct cands as [|c0 cs] eqn:Ec.
  - intros H Hp. inversion H. subst. contradiction.
  - rewrite <- Ec. clear Ec c0 cs. intros H Hp. bind_inv H.
    inversion H. subst. clear H.
    apply select_diverse_in in Hp as [Hp|[]].
    apply in_sort_desc in Hp.
    match goal with
    | K : mapM _ cands = Ok _ |- _ =>
        destruct (mapM_in _ _ _ _ K Hp) as [c [Hc Fc]]
    end.
    exists c. split; [exact Hc|]. bind_inv Fc. inversion Fc.
    repeat split.
Qed.

Lemma add_kelly_keeps_parlay (p q : Parlay.t) :
  add_kelly p = Ok q -> same_parlay q p.
Proof.
  unfold add_kelly. intro H. bind_inv H. inversion H. repeat split.
Qed.

Section Provenance.

Variable cfg : Config.
Variable weights : Weights.
Variable env : Env.

Lemma legs_of_priced (g : Game) : Forall (priced cfg g) (legs_of cfg env g).
Proof.
  unfold legs_of.
  destruct (PricedFacts.analyze_game_priced cfg env g) as [legs [-> H]].
  exact H.
Qed.

Lemma pool_priced (games : list Game) :
  Forall (priced_in cfg games) (pool_of cfg env games).
Proof.
  unfold pool_of. apply Forall_forall. intros l Hl.
  apply in_flat_map in Hl as [g [Hg Hl]].
  exists g. split; [exact Hg|].
  pose proof (legs_of_priced g) as H. rewrite Forall_forall in H. now apply H.
Qed.

Lemma combination_of {A} (P : A -> Prop) (l : list A) (r : Z)
  (cs : list (list A)) (c : list A) :
  Forall P l -> combinations l r = Ok cs -> In c cs -> Forall P c.
Proof.
  intros H E Hc. unfold combinations in E.
  destruct (r <? 0)%Z; [discriminate E|]. inversion E. subst. clear E.
  apply Forall_forall. intros x Hx.
  rewrite Forall_forall in H. apply H. eapply combs_in; eauto.
Qed.

(** Where the parlays of [generate_same_game_parlays] come from. *)
Lemma same_game_parlays_from (R : Parlay.t -> Prop) (g : Game)
  (max_parlays : Z) (out : list Parlay.t) :
  (forall combo c,
     Forall (fun l => priced cfg g l /\ is_sgp_type l = true) combo ->
     (Z.max (MIN_PARLAY_LEGS cfg) 4 <= len combo <= 8)%Z ->
     sgp_candidate cfg weights g combo = Ok c -> R c) ->
  generate_same_game_parlays cfg weights env g max_parlays = Ok out ->
  Forall R out.
Proof.
  intros HR. unfold generate_same_game_parlays. intro H.
  rewrite (analyze_game_legs_of cfg env g) in H. cbn [bind] in H.
  match type of H with
  | (if ?c then _ else _) = _ => destruct c
  end.
  { inversion H. constructor. }
  bind_inv H. inversion H. subst. clear H.
  apply Forall_forall. intros p Hp.
  apply in_take, in_sort_desc, in_concat in Hp as [ps [Hps Hp]].
  match goal with
  | K : mapM _ (range _ _) = Ok _ |- _ =>
      destruct (mapM_in _ _ _ _ K Hps) as [n [Hn Fn]]
  end.
  apply in_range in Hn. bind_inv Fn.
  destruct (mapM_in _ _ _ _ Fn Hp) as [combo [Hc Fc]].
  assert (Forall (fun l => priced cfg g l /\ is_sgp_type l = true)
            (filter is_sgp_type (legs_of cfg env g))) as Hpool.
  { apply Forall_forall. intros l Hl. apply filter_In in Hl as [Hl S].
    split; [|exact S].
    pose proof (legs_of_priced g) as K. rewrite Forall_forall in K. now apply K. }
  match goal with
  | K : combinations _ _ = Ok _ |- _ =>
      pose proof (combinations_length _ _ _ _ K Hc) as L;
      pose proof (combination_of _ _ _ _ _ Hpool K Hc) as F
  end.
  eapply HR; [exact F| |exact Fc]. lia.
Qed.

(** Where the parlays of [generate_parlays] come from: each agrees, on the
    keys a generator sets, with a same-game candidate of one of the games or
    with a cross-game candidate over the pool. *)
Lemma generate_parlays_from (R : Parlay.t -> Prop) (games : list Game)
  (max_parlays : Z) (include_sgp : bool) (out : list Parlay.t) :
  (forall p q, same_parlay p q -> R q -> R p) ->
  (forall g combo c,
     In g games ->
     Forall (fun l => priced cfg g l /\ is_sgp_type l = true) combo ->
     (Z.max (MIN_PARLAY_LEGS cfg) 4 <= len combo <= 8)%Z ->
     sgp_candidate cfg weights g combo = Ok c -> R c) ->
  (forall combo c,
     Forall (priced_in cfg games) combo ->
     (MIN_PARLAY_LEGS cfg <= len combo <= MAX_PARLAY_LEGS cfg)%Z ->
     cross_candidate cfg weights combo = Ok c -> R c) ->
  generate_parlays cfg weights env games max_parlays include_sgp = Ok out ->
  Forall R out.
Proof.
  intros Rsame Rsgp Rcross. unfold generate_parlays. intro H.
  match type of H with
  | bind ?m _ = _ => destruct m as [all_parlays|] eqn:Esgp
  end; cbn [bind] in H; [|discriminate H].
  assert (Hsgp : Forall R all_parlays).
  { destruct include_sgp; [|inversion Esgp; constructor].
    bind_inv Esgp. inversion Esgp. subst. clear Esgp.
    apply Forall_forall. intros p Hp.
    apply in_concat in Hp as [ps [Hps Hp]].
    match goal with
    | K : mapM _ games = Ok _ |- _ =>
        destruct (mapM_in _ _ _ _ K Hps) as [g [Hg Fg]]
    end.
    apply (same_game_parlays_from R) in Fg.
    - rewrite Forall_forall in Fg. now apply Fg.
    - intros combo c. now apply Rsgp. }
  rewrite (analyze_all cfg env games) in H. cbn [bind] in H.
  rewrite (pool_concat cfg env games) in H.
  match type of H with
  | (if ?c then _ else _) = _ => destruct c
  end.
  { inversion H. subst. clear H. destruct (is_nil all_parlays); [constructor|].
    apply Forall_forall. intros p Hp. apply in_take in Hp.
    rewrite Forall_forall in Hsgp. now apply Hsgp. }
  bind_inv H. inversion H. subst. clear H.
  match goal with
  | K : mapM _ (range _ _) = Ok ?ps |- _ =>
      assert (Hcross : Forall R (List.concat ps));
      [apply Forall_forall; intros p Hp;
       apply in_concat in Hp as [qs [Hqs Hp]];
       destruct (mapM_in _ _ _ _ K Hqs) as [n [Hn Fn]];
       apply in_range in Hn; bind_inv Fn;
       destruct (mapM_in _ _ _ _ Fn Hp) as [combo [Hc Fc]]|]
  end.
  { match goal with
    | K : combinations _ _ = Ok _ |- _ =>
        pose proof (combinations_length _ _ _ _ K Hc) as L;
        pose proof (combination_of _ _ _ _ _ (pool_priced games) K Hc) as F
    end.
    eapply Rcross; [exact F| |exact Fc]. lia. }
  rewrite Forall_forall in Hsgp, Hcross.
  apply Forall_forall. intros p Hp.
  apply in_take, in_sort_desc, in_app_or in Hp as [Hp|Hp]; [now apply Hsgp|].
  match type of Hp with
  | In _ (if ?c then _ else _) => destruct c
  end.
  - apply in_take, in_sort_desc in Hp. now apply Hcross.
  - match goal with
    | K : mapM add_kelly _ = Ok _ |- _ =>
        destruct (mapM_in _ _ _ _ K Hp) as [q [Hq Fq]]
    end.
    apply add_kelly_keeps_parlay in Fq.
    match goal with
    | O : CorrelationMatrix.optimize_parlay_selection _ _ = Ok _ |- _ =>
        destruct (optimize_keeps_parlay _ _ _ _ O Hq) as [c [Hc Sc]]
    end.
    apply in_sort_desc in Hc.
    eapply Rsame; [exact Fq|].
    eapply Rsame; [exact Sc|]. now apply Hcross.
Qed.

End Provenance.

Lemma combine_loop_value (combo : list Leg) (p o c p' o' c' : Q) :
  Forall fairly_priced combo ->
  foldM
    (fun '(combined_implied_prob, combined_odds, avg_confidence) leg =>
       d <- american_to_decimal (odds leg) ;;
       Ok (combined_implied_prob * implied_probability leg,
           combined_odds * d,
           avg_confidence + confidence_score leg))
    combo (p, o, c) = Ok (p', o', c') ->
  p' * o' == p * o /\ c' == c + Qsum (map confidence_score combo).
Proof.
  intro F. revert p o c. induction F as [|l t [NZ E] _ IH]; intros p o c H.
  - cbn in H. inversion H. subst. split; [reflexivity|]. cbn. ring.
  - cbn [foldM] in H.
    destruct (PriceFacts.decimal_implied_product (odds l) NZ)
      as [d [ip [D [I [M _]]]]].
    rewrite D in H. cbn [bind] in H.
    apply IH in H as [H1 H2]. rewrite E in I.
    assert (implied_probability l = ip) as Eq by congruence.
    rewrite Eq in H1.
    split.
    + rewrite H1. transitivity (p * o * (d * ip)); [ring|]. rewrite M. ring.
    + rewrite H2. cbn [map]. change (Qsum (?x :: ?t)) with (x + Qsum t). ring.
Qed.

Lemma combine_legs_value (combo : list Leg) (ci co c : Q) :
  Forall fairly_priced combo ->
  combine_legs combo = Ok (ci, co, c) ->
  ci * co == 1 /\ c == Qsum (map confidence_score combo).
Proof.
  intros F H. unfold combine_legs in H.
  apply combine_loop_value in H as [H1 H2]; [|exact F].
  split; [rewrite H1; ring | rewrite H2; ring].
Qed.

Lemma parlay_ev_zero (ci co : Q) : ci * co == 1 -> ci * (co - 1) - (1 - ci) == 0.
Proof.
  intro H. transitivity (ci * co - 1); [ring|]. rewrite H. ring.
Qed.

Lemma mean_in_range (l : list Q) (lo hi : Q) :
  l <> [] ->
  Forall (fun q => lo <= q <= hi) l ->
  lo <= Qsum l / inject_Z (len l) <= hi.
Proof.
  intros NE F. pose proof (Qsum_bounds_gen l lo hi F) as [A B].
  assert (0 < inject_Z (len l)) as P.
  { destruct l; [congruence|]. unfold len. cbn [List.length].
    change 0 with (inject_Z 0). rewrite <- Zlt_Qlt. lia. }
  split.
  - apply Qle_shift_div_l; [exact P|]. lra.
  - apply Qle_shift_div_r; [exact P|]. lra.
Qed.

Lemma rate_not_high (c : Q) : c <= 65 # 100 -> rate c <> "High".
Proof.
  intro H. unfold rate, Qgeb.
  destruct (Qle_bool (75 # 100) c) eqn:E.
  - apply Qle_bool_iff in E. lra.
  - destruct (Qle_bool (65 # 100) c); discriminate.
Qed.

Lemma div_inv (a b q : Q) : div a b = Ok q -> ~ b == 0 /\ q = a / b.
Proof.
  unfold div. destruct (Qeq_bool b 0) eqn:E; [discriminate|].
  intro H. inversion H. split; [|reflexivity].
  now apply Qeq_bool_neq.
Qed.

Lemma confidences_in_range (combo : list Leg) :
  Forall (fun l => 5 # 10 <= confidence_score l <= 65 # 100) combo ->
  Forall (fun q => 5 # 10 <= q <= 65 # 100) (map confidence_score combo).
Proof.
  intro F. apply Forall_forall. intros q Hq.
  apply in_map_iff in Hq as [l [<- Hl]].
  rewrite Forall_forall in F. now apply F.
Qed.

Lemma candidate_facts_of (combo : list Leg) (ci co c avg : Q) :
  Forall fairly_priced combo ->
  Forall (fun l => 5 # 10 <= confidence_score l <= 65 # 100) combo ->
  combine_legs combo = Ok (ci, co, c) ->
  div c (inject_Z (len combo)) = Ok avg ->
  ci * (co - 1) - (1 - ci) == 0
  /\ 5 # 10 <= avg <= 65 # 100
  /\ rate avg <> "High".
Proof.
  intros F C H D.
  apply combine_legs_value in H as [H1 H2]; [|exact F].
  apply div_inv in D as [NZ ->].
  assert (5 # 10 <= c / inject_Z (len combo) <= 65 # 100) as R.
  { rewrite H2. replace (len combo) with (len (map confidence_score combo))
      by (unfold len; now rewrite length_map).
    apply mean_in_range; [|now apply confidences_in_range].
    destruct combo; [|discriminate]. exfalso. apply NZ. reflexivity. }
  repeat split; try apply R.
  - now apply parlay_ev_zero.
  - apply rate_not_high. apply R.
Qed.

Section Candidates.

Variable cfg : Config.
Variable weights : Weights.

Lemma sgp_candidate_facts (g : Game) (combo : list Leg) (p : Parlay.t) :
  Forall fairly_priced combo ->
  Forall (fun l => 5 # 10 <= confidence_score l <= 65 # 100) combo ->
  sgp_candidate cfg weights g combo = Ok p -> candidate_facts p.
Proof.
  intros F C H. unfold sgp_candidate in H.
  destruct (combine_legs combo) as [[[ci co] c]|] eqn:E;
    cbn [bind] in H; [|discriminate H].
  destruct (div c (inject_Z (len combo))) as [avg|] eqn:D;
    cbn [bind] in H; [|discriminate H].
  bind_inv H. inversion H. subst. clear H.
  unfold candidate_facts.
  cbn [Parlay.expected_value Parlay.confidence_score Parlay.confidence_rating].
  eapply candidate_facts_of; eauto.
Qed.

Lemma cross_candidate_facts (combo : list Leg) (p : Parlay.t) :
  Forall fairly_priced combo ->
  Forall (fun l => 5 # 10 <= confidence_score l <= 65 # 100) combo ->
  cross_candidate cfg weights combo = Ok p -> candidate_facts p.
Proof.
  intros F C H. unfold cross_candidate in H.
  destruct (combine_legs combo) as [[[ci co] c]|] eqn:E;
    cbn [bind] in H; [|discriminate H].
  destruct (div c (inject_Z (len combo))) as [avg|] eqn:D;
    cbn [bind] in H; [|discriminate H].
  bind_inv H. inversion H. subst. clear H.
  unfold candidate_facts.
  cbn [Parlay.expected_value Parlay.confidence_score Parlay.confidence_rating].
  eapply candidate_facts_of; eauto.
Qed.

End Candidates.

Lemma priced_confidence (cfg : Config) (g : Game) (l : Leg) :
  priced cfg g l -> 5 # 10 <= confidence_score l <= 65 # 100.
Proof.
  intros [_ [_ [_ [_ [C _]]]]]. eapply PricedFacts.confidence_for_range; eauto.
Qed.

Lemma generated_parlay_facts (cfg : Config) (weights : Weights) (env : Env)
  (games : list Game) (max_parlays : Z) (include_sgp : bool)
  (out : list Parlay.t) :
  generate_parlays cfg weights env games max_parlays include_sgp = Ok out ->
  Forall candidate_facts out.
Proof.
  apply generate_parlays_from.
  - unfold same_parlay, candidate_facts.
    intros p q [_ [_ [_ [_ [-> [-> [-> _]]]]]]] H. exact H.
  - intros g combo c _ F _. apply sgp_candidate_facts.
    + eapply Forall_impl; [|exact F]. intros l [H _].
      eapply priced_fairly; eauto.
    + eapply Forall_impl; [|exact F]. intros l [H _].
      eapply priced_confidence; eauto.
  - intros combo c F _. apply cross_candidate_facts.
    + eapply Forall_impl; [|exact F]. intros l. apply priced_in_fairly.
    + eapply Forall_impl; [|exact F]. intros l [g [_ H]].
      eapply priced_confidence; eauto.
Qed.

Lemma same_game_parlay_facts (cfg : Config) (weights : Weights) (env : Env)
  (g : Game) (max_parlays : Z) (out : list Parlay.t) :
  generate_same_game_parlays cfg weights env g max_parlays = Ok out ->
  Forall candidate_facts out.
Proof.
  apply same_game_parlays_from.
  intros combo c F _. apply sgp_candidate_facts.
  - eapply Forall_impl; [|exact F]. intros l [H _].
    eapply priced_fairly; eauto.
  - eapply Forall_impl; [|exact F]. intros l [H _].
    eapply priced_confidence; eauto.
Qed.

(** X7.  Every parlay [generate_parlays] and [generate_same_game_parlays]
    return has [expected_value] 0: the legs carry the implied probability of
    their own odds, so the product of the implied probabilities times the
    product of the decimal odds is 1, whatever the legs' own expected values
    are. *)
Theorem parlay_expected_value_is_zero (cfg : Config) (weights : Weights)
  (env : Env) (games : list Game) (max_parlays : Z) (include_sgp : bool) :
  (2 <= MIN_PARLAY_LEGS cfg)%Z ->
  MAX_PARLAY_LEGS cfg <> 0%Z ->
  returns (generate_parlays cfg weights env games max_parlays include_sgp)
    (Forall (fun p => Parlay.expected_value p == 0))
  /\ (forall g,
        returns (generate_same_game_parlays cfg weights env g max_parlays)
          (Forall (fun p => Parlay.expected_value p == 0))).
Proof.
  intros Hmin Hmax. split.
  - destruct (generate_parlays_returns cfg weights env Hmax games max_parlays
                include_sgp Hmin) as [out [E _]].
    exists out. split; [exact E|].
    eapply Forall_impl; [|eapply generated_parlay_facts; exact E].
    intros p H. apply H.
  - intro g.
    destruct (same_game_parlays_return cfg weights env Hmax g max_parlays)
      as [out [E _]].
    exists out. split; [exact E|].
    eapply Forall_impl; [|eapply same_game_parlay_facts; exact E].
    intros p H. apply H.
Qed.

Lemma parlay_expected_value_is_zero_witness :
  returns (generate_parlays SlateSample.two_to_four default_weights
             SlateSample.env [SlateSample.lakers_celtics] 10 true)
    (Forall (fun p => Parlay.expected_value p == 0))
  /\ (forall g,
        returns (generate_same_game_parlays SlateSample.two_to_four
                   default_weights SlateSample.env g 10)
          (Forall (fun p => Parlay.expected_value p == 0))).
Proof.
  apply (parlay_expected_value_is_zero SlateSample.two_to_four default_weights
           SlateSample.env [SlateSample.lakers_celtics] 10 true).
  - vm_compute. discriminate.
  - vm_compute. discriminate.
Defined.

(** X8.  No parlay of [generate_parlays] is rated High: its
    [confidence_score], the mean of the legs' confidences, lies between 0.5
    and 0.65, below the 0.75 the rating asks for. *)
Theorem no_parlay_is_rated_high (cfg : Config) (weights : Weights)
  (env : Env) (games : list Game) (max_parlays : Z) (include_sgp : bool) :
  (2 <= MIN_PARLAY_LEGS cfg)%Z ->
  MAX_PARLAY_LEGS cfg <> 0%Z ->
  returns (generate_parlays cfg weights env games max_parlays include_sgp)
    (Forall (fun p =>
       5 # 10 <= Parlay.confidence_score p <= 65 # 100
       /\ Parlay.confidence_rating p <> "High")).
Proof.
  intros Hmin Hmax.
  destruct (generate_parlays_returns cfg weights env Hmax games max_parlays
              include_sgp Hmin) as [out [E _]].
  exists out. split; [exact E|].
  eapply Forall_impl; [|eapply generated_parlay_facts; exact E].
  intros p [_ [H1 H2]]. now split.
Qed.

Lemma no_parlay_is_rated_high_witness :
  returns (generate_parlays SlateSample.two_to_four default_weights
             SlateSample.env [SlateSample.lakers_celtics] 10 true)
    (Forall (fun p =>
       5 # 10 <= Parlay.confidence_score p <= 65 # 100
       /\ Parlay.confidence_rating p <> "High")).
Proof.
  apply (no_parlay_is_rated_high SlateSample.two_to_four default_weights
           SlateSample.env [SlateSample.lakers_celtics] 10 true).
  - vm_compute. discriminate.
  - vm_compute. discriminate.
Defined.

End ParlayFacts.

(** ** Stakes *)

Module KellyFacts.
Import ResearchEngine KellyCriterion.

Lemma clamp_range (x c : Q) : 0 <= c -> 0 <= Qmax 0 (Qmin x c) <= c.
Proof.
  intro C. split; [apply Q.le_max_l|].
  apply Q.max_lub; [exact C | apply Q.le_min_r].
Qed.

Lemma clamp_pos (x c : Q) : 0 < c -> (0 < Qmax 0 (Qmin x c) <-> 0 < x).
Proof.
  intro C.
  destruct (Q.max_spec 0 (Qmin x c)) as [[A ->]|[A ->]];
    destruct (Q.min_spec x c) as [[B E]|[B E]]; rewrite E in *; split; lra.
Qed.

Lemma clamp_zero (x c : Q) : x <= 0 -> Qmax 0 (Qmin x c) == 0.
Proof.
  intros X. apply Q.max_l. eapply Qle_trans; [apply Q.le_min_l | exact X].
Qed.

(** The stake for a win at profit multiplier [b]. *)
Lemma kelly_of_multiplier (p b : Q) :
  0 < b ->
  exists k,
    div (b * p - (1 - p)) b = Ok k
    /\ (0 < k <-> 0 < b * p - (1 - p)).
Proof.
  intro B. rewrite div_ok by lra. eexists. split; [reflexivity|].
  split; intro H.
  - assert ((b * p - (1 - p)) / b * b == b * p - (1 - p)) as E by (field; lra).
    nra.
  - apply PriceFacts.Qdiv_pos; assumption.
Qed.

Lemma kelly_fraction_value (p o : Q) :
  exists f,
    calculate_kelly_fraction p o = Ok f
    /\ 0 <= f <= 5 # 100
    /\ (p <= 0 \/ 1 <= p \/ o == 0 -> f == 0)
    /\ (0 < p < 1 ->
        forall d, american_to_decimal o = Ok d ->
                  (0 < f <-> 0 < p * (d - 1) - (1 - p))).
Proof.
  unfold calculate_kelly_fraction.
  destruct (Qle_bool p 0) eqn:P0.
  { cbn [orb]. exists 0. apply Qle_bool_iff in P0.
    repeat split; try reflexivity; try discriminate. intros; lra. }
  destruct (Qle_bool 1 p) eqn:P1.
  { cbn [orb]. exists 0. apply Qle_bool_iff in P1.
    repeat split; try reflexivity; try discriminate. intros; lra. }
  cbn [orb].
  assert (0 < p < 1) as R.
  { split; apply Qnot_le_lt; intro L; apply Qle_bool_iff in L; congruence. }
  destruct (Qltb o 0) eqn:N.
  - apply Qltb_true in N.
    assert (~ o == 0) as NZ by lra.
    pose proof (Qabs_pos_of_nonzero o NZ) as A.
    rewrite div_ok by lra. cbn [bind].
    assert (0 < 100 / Qabs o) as B by (apply PriceFacts.Qdiv_pos; lra).
    destruct (kelly_of_multiplier p (100 / Qabs o + 1 - 1) ltac:(lra))
      as [k [-> K]].
    cbn [bind]. eexists. split; [reflexivity|].
    split; [apply clamp_range; discriminate|].
    split; [intros [H|[H|H]]; lra|].
    intros _ d D. rewrite (OddsFacts.american_to_decimal_neg o N) in D.
    inversion D. subst d.
    rewrite clamp_pos by reflexivity. split; intro H.
    { assert (0 < k) as Hk by lra. apply K in Hk. lra. }
    { assert (0 < k) as Hk by (apply K; lra). lra. }
  - apply Qltb_false in N.
    destruct (Qltb 0 o) eqn:Pos.
    + apply Qltb_true in Pos.
      rewrite div_ok by discriminate. cbn [bind].
      assert (0 < o / 100) as B by (apply PriceFacts.Qdiv_pos; lra).
      destruct (kelly_of_multiplier p (o / 100 + 1 - 1) ltac:(lra))
        as [k [-> K]].
      cbn [bind]. eexists. split; [reflexivity|].
      split; [apply clamp_range; discriminate|].
      split; [intros [H|[H|H]]; lra|].
      intros _ d D. rewrite (OddsFacts.american_to_decimal_pos o Pos) in D.
      inversion D. subst d.
      rewrite clamp_pos by reflexivity. split; intro H.
    { assert (0 < k) as Hk by lra. apply K in Hk. lra. }
    { assert (0 < k) as Hk by (apply K; lra). lra. }
    + apply Qltb_false in Pos. exists 0.
      split; [reflexivity|]. split; [split; discriminate|].
      split; [reflexivity|].
      intros _ d D.
      rewrite (OddsFacts.american_to_decimal_zero o) in D by lra.
      discriminate D.
Qed.

(** X9.  [calculate_kelly_fraction] never raises; the fraction it returns is
    between 0 and the 5% cap, is 0 when the probability is not strictly
    between 0 and 1 or the odds are 0, and is otherwise positive exactly when
    the bet's expected value at those odds is positive. *)
Theorem kelly_fraction_is_capped_and_signed (win_prob odds : Q) :
  exists f,
    calculate_kelly_fraction win_prob odds = Ok f
    /\ 0 <= f <= 5 # 100
    /\ (win_prob <= 0 \/ 1 <= win_prob \/ odds == 0 -> f == 0)
    /\ (forall implied_prob ev,
          0 < win_prob < 1 ->
          calculate_expected_value implied_prob win_prob odds = Ok ev ->
          (0 < f <-> 0 < ev)).
Proof.
  destruct (kelly_fraction_value win_prob odds) as [f [E [R [Z S]]]].
  exists f. split; [exact E|]. split; [exact R|]. split; [exact Z|].
  intros ip ev Rp Hev. unfold calculate_expected_value in Hev.
  destruct (american_to_decimal odds) as [d|] eqn:D;
    cbn [bind] in Hev; [|discriminate Hev].
  inversion Hev. subst ev. apply (S Rp d eq_refl).
Qed.

Lemma parlay_decimal (combined_odds : Q) :
  exists d,
    (if Qltb combined_odds 0
     then d <- div 100 (Qabs combined_odds) ;; Ok (d + 1)
     else d <- div combined_odds 100 ;; Ok (d + 1)) = Ok d
    /\ 1 <= d
    /\ (forall d', american_to_decimal combined_odds = Ok d' -> d' = d).
Proof.
  destruct (Qltb combined_odds 0) eqn:N.
  - apply Qltb_true in N.
    pose proof (Qabs_pos_of_nonzero combined_odds ltac:(lra)) as A.
    rewrite div_ok by lra. cbn [bind]. eexists. split; [reflexivity|].
    assert (0 < 100 / Qabs combined_odds) by (apply PriceFacts.Qdiv_pos; lra).
    split; [lra|]. intros d' D.
    rewrite (OddsFacts.american_to_decimal_neg _ N) in D. congruence.
  - apply Qltb_false in N. rewrite div_ok by discriminate. cbn [bind].
    eexists. split; [reflexivity|].
    assert (0 <= combined_odds / 100) by (apply Qle_shift_div_l; lra).
    split; [lra|]. intros d' D.
    destruct (Qeq_dec combined_odds 0) as [Z|NZ].
    + rewrite (OddsFacts.american_to_decimal_zero _ Z) in D. discriminate D.
    + rewrite (OddsFacts.american_to_decimal_pos combined_odds) in D by lra.
      congruence.
Qed.

Lemma parlay_kelly_value (combined_odds : Q) (leg_probs : list Q) :
  exists d f,
    calculate_parlay_kelly combined_odds leg_probs = Ok f
    /\ calculate_kelly_fraction (fold_left Qmult leg_probs 1) d = Ok f
    /\ 1 <= d
    /\ (forall d', american_to_decimal combined_odds = Ok d' -> d' = d)
    /\ 0 <= f <= 5 # 100
    /\ (0 < f <->
        0 < fold_left Qmult leg_probs 1 < 1
        /\ 100 < fold_left Qmult leg_probs 1 * (100 + d)).
Proof.
  unfold calculate_parlay_kelly.
  destruct (parlay_decimal combined_odds) as [d [-> [G U]]]. cbn [bind].
  set (p := fold_left Qmult leg_probs 1).
  destruct (kelly_fraction_value p d) as [f [E [R [Z S]]]].
  exists d, f. repeat split; try assumption; try apply R.
  - destruct (Qlt_le_dec 0 p) as [L|L]; [exact L|].
    rewrite Z in H by (left; exact L). lra.
  - destruct (Qlt_le_dec p 1) as [L|L]; [exact L|].
    rewrite Z in H by (right; left; exact L). lra.
  - assert (0 < p < 1) as Rp.
    { split.
      - destruct (Qlt_le_dec 0 p) as [L|L]; [exact L|].
        rewrite Z in H by (left; exact L). lra.
      - destruct (Qlt_le_dec p 1) as [L|L]; [exact L|].
        rewrite Z in H by (right; left; exact L). lra. }
    pose proof (S Rp (d / 100 + 1)
                  (OddsFacts.american_to_decimal_pos d ltac:(lra))) as K.
    apply K in H.
    assert (d / 100 == d * (1 # 100)) as Ed by (field).
    rewrite Ed in H. lra.
  - intros [Rp H].
    pose proof (S Rp (d / 100 + 1)
                  (OddsFacts.american_to_decimal_pos d ltac:(lra))) as K.
    apply K.
    assert (d / 100 == d * (1 # 100)) as Ed by (field).
    rewrite Ed. lra.
Qed.

(** X10.  [calculate_parlay_kelly] converts the parlay's American odds to
    decimal odds [d] and passes them to [calculate_kelly_fraction], which
    reads its argument as American odds again.  The stake is therefore
    positive only when the win probability [p] satisfies p (100 + d) > 100,
    and it is 0 for every parlay with p at most 1/2 and decimal odds up to
    100, whatever its edge. *)
Theorem parlay_kelly_reads_decimal_odds_as_american (combined_odds : Q)
  (leg_probs : list Q) (d : Q) :
  american_to_decimal combined_odds = Ok d ->
  exists f,
    calculate_parlay_kelly combined_odds leg_probs = Ok f
    /\ calculate_kelly_fraction (fold_left Qmult leg_probs 1) d = Ok f
    /\ 0 <= f <= 5 # 100
    /\ (0 < f <->
        0 < fold_left Qmult leg_probs 1 < 1
        /\ 100 < fold_left Qmult leg_probs 1 * (100 + d))
    /\ (fold_left Qmult leg_probs 1 <= 1 # 2 -> d <= 100 -> f == 0).
Proof.
  intro D.
  destruct (parlay_kelly_value combined_odds leg_probs)
    as [d0 [f [E [F [G [U [R S]]]]]]].
  rewrite (U d D) in *. exists f.
  split; [exact E|]. split; [exact F|]. split; [exact R|]. split; [exact S|].
  intros P L.
  destruct (Qlt_le_dec 0 f) as [Pos|Neg]; [|lra].
  apply S in Pos as [[A B] C]. nra.
Qed.

Lemma parlay_kelly_reads_decimal_odds_as_american_witness :
  exists f,
    calculate_parlay_kelly 300 [4 # 10] = Ok f
    /\ calculate_kelly_fraction (fold_left Qmult [4 # 10] 1) (300 / 100 + 1)
       = Ok f
    /\ 0 <= f <= 5 # 100
    /\ (0 < f <->
        0 < fold_left Qmult [4 # 10] 1 < 1
        /\ 100 < fold_left Qmult [4 # 10] 1 * (100 + (300 / 100 + 1)))
    /\ (fold_left Qmult [4 # 10] 1 <= 1 # 2 -> 300 / 100 + 1 <= 100 -> f == 0).
Proof.
  apply (parlay_kelly_reads_decimal_odds_as_american 300 [4 # 10]
           (300 / 100 + 1)).
  reflexivity.
Defined.

Import BankrollManager.

(** X11.  [calculate_kelly_stake] never raises and never returns a negative
    stake; a positive [max_bet_size] caps it, and it is 0 whenever the win
    probability is at most 1/2 and the decimal odds are at most 100. *)
Theorem kelly_stake_is_bounded (bankroll : Bankroll.t)
  (parlay_odds true_probability : Q) :
  exists stake,
    calculate_kelly_stake bankroll parlay_odds true_probability = Ok stake
    /\ 0 <= stake
    /\ (forall m, Bankroll.max_bet_size bankroll = Some m -> 0 < m -> stake <= m)
    /\ (forall d,
          american_to_decimal parlay_odds = Ok d ->
          true_probability <= 1 # 2 -> d <= 100 -> stake == 0).
Proof.
  unfold calculate_kelly_stake.
  destruct (parlay_kelly_value parlay_odds [true_probability])
    as [d [f [E [_ [_ [U [R S]]]]]]].
  rewrite E. cbn [bind]. eexists. split; [reflexivity|].
  split; [apply Q.le_max_l|]. split.
  - intros m M Pos. rewrite M. cbn [or_num].
    assert (Qeq_bool m 0 = false) as ->.
    { apply not_true_is_false. intro K. apply Qeq_bool_iff in K. lra. }
    apply Q.max_lub; [lra | apply Q.le_min_r].
  - intros d' D P L. rewrite (U d' D) in *.
    assert (f == 0) as Z.
    { destruct (Qlt_le_dec 0 f) as [Pos|Neg]; [|lra].
      apply S in Pos as [[A B] C]. cbn [fold_left] in *. nra. }
    apply clamp_zero. rewrite Z. lra.
Qed.

End KellyFacts.

(** ** Correlation matrix and selection *)

Module AnalyticsFacts.
Import CorrelationMatrix.

Lemma nth_map_seq {A} (f : nat -> A) (n i : nat) (d : A) :
  (i < n)%nat -> nth i (map f (seq 0 n)) d = f i.
Proof.
  intro H. rewrite (nth_indep _ d (f 0%nat)) by (now rewrite length_map, length_seq).
  rewrite map_nth. now rewrite seq_nth.
Qed.

Lemma entry_value (legs : list Leg) (i j : nat) :
  (i < List.length legs)%nat -> (j < List.length legs)%nat ->
  entry (build_correlation_matrix legs) i j
  = if Nat.eqb i j then 1
    else
      match nth_error legs (Nat.min i j), nth_error legs (Nat.max i j) with
      | Some leg1, Some leg2 => _calculate_dict_correlation leg1 leg2
      | _, _ => 0
      end.
Proof.
  intros Hi Hj. unfold entry, build_correlation_matrix.
  rewrite (nth_map_seq _ _ _ _ Hi). now rewrite (nth_map_seq _ _ _ _ Hj).
Qed.

Lemma dict_correlation_values (leg1 leg2 : Leg) :
  let c := _calculate_dict_correlation leg1 leg2 in
  c = 1 # 10 \/ c = 5 # 10 \/ c = 7 # 10 \/ c = 9 # 10.
Proof.
  unfold _calculate_dict_correlation. cbv zeta.
  repeat LegFacts.split_if; auto.
Qed.

(** X12.  The correlation matrix of [n] legs has [n] rows of [n] entries,
    ones on the diagonal, and is symmetric; the entry for two different
    positions is the correlation of the earlier leg with the later one, one
    of 0.1, 0.5, 0.7 and 0.9. *)
Theorem correlation_matrix_is_symmetric (legs : list Leg) (i j : nat) :
  (i < List.length legs)%nat -> (j < List.length legs)%nat ->
  List.length (build_correlation_matrix legs) = List.length legs
  /\ List.length (nth i (build_correlation_matrix legs) []) = List.length legs
  /\ entry (build_correlation_matrix legs) i i = 1
  /\ entry (build_correlation_matrix legs) i j
     = entry (build_correlation_matrix legs) j i
  /\ ((i < j)%nat ->
      exists leg1 leg2,
        nth_error legs i = Some leg1 /\ nth_error legs j = Some leg2
        /\ entry (build_correlation_matrix legs) i j
           = _calculate_dict_correlation leg1 leg2
        /\ (entry (build_correlation_matrix legs) i j = 1 # 10
            \/ entry (build_correlation_matrix legs) i j = 5 # 10
            \/ entry (build_correlation_matrix legs) i j = 7 # 10
            \/ entry (build_correlation_matrix legs) i j = 9 # 10)).
Proof.
  intros Hi Hj. split; [|split; [|split; [|split]]].
  - unfold build_correlation_matrix. now rewrite length_map, length_seq.
  - unfold build_correlation_matrix. rewrite (nth_map_seq _ _ _ _ Hi).
    now rewrite length_map, length_seq.
  - rewrite entry_value by assumption. now rewrite Nat.eqb_refl.
  - rewrite !entry_value by assumption.
    rewrite (Nat.eqb_sym j i), (Nat.min_comm j i), (Nat.max_comm j i).
    reflexivity.
  - intro L. rewrite entry_value by assumption.
    assert (Nat.eqb i j = false) as -> by (apply Nat.eqb_neq; lia).
    rewrite Nat.min_l, Nat.max_r by lia.
    destruct (nth_error legs i) as [leg1|] eqn:E1;
      [|apply nth_error_None in E1; lia].
    destruct (nth_error legs j) as [leg2|] eqn:E2;
      [|apply nth_error_None in E2; lia].
    exists leg1, leg2. repeat split. apply dict_correlation_values.
Qed.

Lemma correlation_matrix_is_symmetric_witness :
  let legs := [Samples.over_leg; Samples.under_leg; Samples.bulls_leg] in
  List.length (build_correlation_matrix legs) = List.length legs
  /\ List.length (nth 0 (build_correlation_matrix legs) []) = List.length legs
  /\ entry (build_correlation_matrix legs) 0 0 = 1
  /\ entry (build_correlation_matrix legs) 0 2
     = entry (build_correlation_matrix legs) 2 0
  /\ ((0 < 2)%nat ->
      exists leg1 leg2,
        nth_error legs 0 = Some leg1 /\ nth_error legs 2 = Some leg2
        /\ entry (build_correlation_matrix legs) 0 2
           = _calculate_dict_correlation leg1 leg2
        /\ (entry (build_correlation_matrix legs) 0 2 = 1 # 10
            \/ entry (build_correlation_matrix legs) 0 2 = 5 # 10
            \/ entry (build_correlation_matrix legs) 0 2 = 7 # 10
            \/ entry (build_correlation_matrix legs) 0 2 = 9 # 10)).
Proof.
  apply (correlation_matrix_is_symmetric
           [Samples.over_leg; Samples.under_leg; Samples.bulls_leg] 0 2).
  - cbn. lia.
  - cbn. lia.
Defined.

(** *** Selection *)

Lemma insert_desc_descending_on {A} (lt : A -> A -> bool) (P : A -> Prop)
  (x : A) (l : list A) :
  (forall a b, lt a b = true -> lt b a = false) ->
  (forall a b c, P b -> lt a b = false -> lt b c = false -> lt a c = false) ->
  Forall P l -> descending lt l -> descending lt (insert_desc lt x l).
Proof.
  intros Hasym Hneg HP. unfold descending.
  induction 1 as [|y t Hy Ht IH]; cbn [insert_desc].
  - repeat constructor.
  - inversion HP as [|? ? Py Pt]. subst.
    destruct (lt x y) eqn:E.
    + constructor; [|now apply IH].
      eapply Permutation_Forall; [symmetry; apply insert_desc_perm|].
      constructor; [now apply Hasym|exact Hy].
    + constructor; [|now constructor].
      constructor; [exact E|].
      eapply Forall_impl; [|exact Hy]. intros b Hb. cbn beta in Hb.
      eapply Hneg; eauto.
Qed.

Lemma sort_desc_descending_on {A} (lt : A -> A -> bool) (P : A -> Prop)
  (l : list A) :
  (forall a b, lt a b = true -> lt b a = false) ->
  (forall a b c, P b -> lt a b = false -> lt b c = false -> lt a c = false) ->
  Forall P l -> descending lt (sort_desc lt l).
Proof.
  intros Hasym Hneg. induction 1 as [|x t Px Pt IH]; [constructor|].
  unfold sort_desc in *. cbn [fold_right].
  eapply insert_desc_descending_on; eauto.
  eapply Permutation_Forall; [symmetry; apply sort_desc_perm|exact Pt].
Qed.

Lemma adjusted_lt_asym (a b : Parlay.t) :
  adjusted_lt a b = true -> adjusted_lt b a = false.
Proof.
  unfold adjusted_lt.
  destruct (Parlay.adjusted_score a), (Parlay.adjusted_score b);
    try discriminate; try reflexivity.
  intro H. apply Qltb_true in H. apply Qltb_false. lra.
Qed.

Lemma adjusted_lt_negtrans (a b c : Parlay.t) :
  (exists s, Parlay.adjusted_score b = Some s) ->
  adjusted_lt a b = false -> adjusted_lt b c = false -> adjusted_lt a c = false.
Proof.
  unfold adjusted_lt. intros [s ->].
  destruct (Parlay.adjusted_score a), (Parlay.adjusted_score c);
    try reflexivity.
  intros H1 H2. apply Qltb_false in H1, H2. apply Qltb_false. lra.
Qed.

Lemma mapM_Forall2 {A B} (f : A -> result B) (R : A -> B -> Prop) (l : list A) :
  (forall x, In x l -> exists y, f x = Ok y /\ R x y) ->
  exists ys, mapM f l = Ok ys /\ Forall2 R l ys.
Proof.
  induction l as [|x t IH]; intro H.
  - exists []. split; [reflexivity|constructor].
  - destruct (H x (or_introl eq_refl)) as [y [E Hy]].
    destruct IH as [ys [Es Hs]]; [intros; apply H; now right|].
    exists (y :: ys). cbn [mapM]. rewrite E, Es. cbn [bind].
    split; [reflexivity|now constructor].
Qed.

Lemma fold_left_Qplus_sum (l : list Q) : fold_left Qplus l 0 == Qsum l.
Proof.
  pose proof (fold_left_Qplus_acc (fun q : Q => q) l 0) as H.
  rewrite map_id in H. cbn beta in H. rewrite <- (Qplus_0_l (Qsum l)).
  exact H.
Qed.

Lemma average_correlation (legs : list Leg) :
  (2 <= len legs)%Z ->
  exists avg,
    mean (triu_from 0 (build_correlation_matrix legs)) = Ok avg
    /\ 1 # 10 <= avg <= 9 # 10.
Proof.
  intro H. rewrite MatrixFacts.triu_is_pairs.
  set (cs := map dict_coefficient (all_pairs legs)).
  assert (cs <> []) as NE.
  { unfold cs. destruct legs as [|a [|b t]]; cbn in H; try lia.
    cbn. discriminate. }
  assert (Forall (fun q => 1 # 10 <= q <= 9 # 10) cs) as F.
  { apply Forall_forall. intros q Hq. unfold cs in Hq.
    apply in_map_iff in Hq as [[a b] [<- _]]. unfold dict_coefficient.
    cbn [fst snd].
    destruct (dict_correlation_values a b) as [E|[E|[E|E]]]; rewrite E;
      split; discriminate. }
  pose proof (ParlayFacts.mean_in_range cs _ _ NE F) as R.
  unfold mean. destruct cs as [|c0 ct] eqn:Ecs; [congruence|].
  rewrite <- Ecs in *.
  assert (0 < inject_Z (len cs)) as P.
  { rewrite Ecs. unfold len. cbn [List.length].
    change 0 with (inject_Z 0). rewrite <- Zlt_Qlt. lia. }
  rewrite div_ok by lra. eexists. split; [reflexivity|].
  rewrite fold_left_Qplus_sum. exact R.
Qed.

Lemma scored_candidates (cands : list Parlay.t) :
  Forall (fun p => (2 <= len (Parlay.legs p))%Z) cands ->
  exists scored,
    mapM
      (fun parlay =>
         let corr_matrix := build_correlation_matrix (Parlay.legs parlay) in
         avg_corr <- mean (triu_from 0 corr_matrix) ;;
         let diversification_bonus := (1 - avg_corr) * (2 # 10) in
         let adjusted_score := Parlay.score parlay + diversification_bonus in
         Ok (Parlay.mk
               (Parlay.legs parlay) (Parlay.num_legs parlay)
               (Parlay.combined_odds parlay)
               (Parlay.implied_probability parlay)
               (Parlay.expected_value parlay)
               (Parlay.confidence_rating parlay)
               (Parlay.confidence_score parlay)
               (Parlay.score parlay) (Parlay.has_props parlay)
               (Parlay.prop_count parlay) (Parlay.is_sgp parlay)
               (Parlay.game parlay)
               (Some avg_corr) (Some adjusted_score)
               (Parlay.recommended_stake_pct parlay)))
      cands = Ok scored
    /\ Forall2 scored_version cands scored.
Proof.
  intro F. apply mapM_Forall2. intros c Hc.
  rewrite Forall_forall in F.
  destruct (average_correlation (Parlay.legs c) (F c Hc)) as [avg [E R]].
  cbv zeta. rewrite E. cbn [bind]. eexists. split; [reflexivity|].
  unfold scored_version, same_parlay. cbn.
  repeat split. exists avg. repeat split; apply R.
Qed.

Lemma set_of_nonempty (l : list Z) : l <> [] -> set_of l <> [].
Proof.
  induction l as [|x t IH]; [congruence|]. intros _. cbn [set_of].
  destruct (mem x t) eqn:M; [|discriminate].
  apply IH. destruct t; [discriminate M|discriminate].
Qed.

Lemma parlay_games_nonempty (p : Parlay.t) :
  (2 <= len (Parlay.legs p))%Z -> parlay_games p <> [].
Proof.
  intro H. unfold parlay_games. apply set_of_nonempty.
  destruct (Parlay.legs p); [cbn in H; lia|discriminate].
Qed.

Lemma inter_nil (s : list Z) : inter s [] = [].
Proof.
  unfold inter. induction s as [|x t IH]; [reflexivity|]. cbn. exact IH.
Qed.

Lemma select_diverse_first (scored : list Parlay.t) (max_parlays : Z) :
  (max_parlays <= 1)%Z ->
  Forall (fun p => parlay_games p <> []) scored ->
  select_diverse scored [] [] max_parlays = firstn 1 scored.
Proof.
  intros K F. destruct scored as [|x t]; [reflexivity|].
  inversion F as [|? ? Hx _]. subst.
  cbn [select_diverse]. rewrite inter_nil.
  assert (Qltb (inject_Z (len (@nil Z)))
            (inject_Z (len (parlay_games x)) * (5 # 10)) = true) as ->.
  { apply Qltb_true. destruct (parlay_games x) as [|z zs]; [congruence|].
    unfold len. cbn [List.length].
    assert (0 < inject_Z (Z.of_nat (S (List.length zs)))) as P.
    { change 0 with (inject_Z 0). rewrite <- Zlt_Qlt. lia. }
    change (inject_Z (Z.of_nat 0)) with 0. lra. }
  cbn [orb app].
  assert ((len [x] >=? max_parlays)%Z = true) as ->.
  { apply Z.geb_le. cbn. lia. }
  reflexivity.
Qed.

(** X13.  Given candidates of two or more legs each,
    [optimize_parlay_selection] never raises: it adds to each candidate the
    average correlation of its legs and the adjusted score, sorts by adjusted
    score, highest first, and returns the first [max_parlays] of the sorted
    list, and the first one alone when [max_parlays] is below 1. *)
Theorem selection_returns_the_top_by_adjusted_score (cands : list Parlay.t)
  (max_parlays : Z) :
  Forall (fun p => (2 <= len (Parlay.legs p))%Z) cands ->
  exists scored,
    Forall2 scored_version cands scored
    /\ optimize_parlay_selection cands max_parlays
       = Ok (firstn (Z.to_nat (Z.max 1 max_parlays))
               (sort_desc adjusted_lt scored))
    /\ descending adjusted_lt (sort_desc adjusted_lt scored)
    /\ Permutation (sort_desc adjusted_lt scored) scored.
Proof.
  intro F. destruct (scored_candidates cands F) as [scored [E S]].
  exists scored. split; [exact S|].
  assert (Forall (fun p => exists s, Parlay.adjusted_score p = Some s) scored)
    as A.
  { clear E. induction S as [|c p cs ps [_ [_ [avg [_ [_ H]]]]] _ IH];
      constructor; eauto. inversion F. auto. }
  split; [|split].
  - assert (optimize_parlay_selection cands max_parlays
            = Ok (select_diverse (sort_desc adjusted_lt scored) [] [] max_parlays))
      as ->.
    { unfold optimize_parlay_selection. cbv zeta in E.
      destruct cands as [|c0 cs].
      - cbn in E. inversion E. reflexivity.
      - rewrite E. reflexivity. }
    f_equal.
    destruct (Z.le_gt_cases 1 max_parlays) as [K|K].
    + rewrite SelectionFacts.select_diverse_takes_first by exact K.
      now rewrite Z.max_r by lia.
    + rewrite Z.max_l by lia. apply select_diverse_first; [lia|].
      eapply Permutation_Forall; [symmetry; apply sort_desc_perm|].
      clear E A. induction S as [|c p cs' ps [[L _] _] _ IH]; constructor.
      * apply parlay_games_nonempty. rewrite L. inversion F. assumption.
      * apply IH. inversion F. assumption.
  - eapply sort_desc_descending_on; [apply adjusted_lt_asym| |exact A].
    intros a b c. apply adjusted_lt_negtrans.
  - apply sort_desc_perm.
Qed.

Lemma selection_returns_the_top_by_adjusted_score_witness :
  exists scored,
    Forall2 scored_version SelectionSample.pool scored
    /\ optimize_parlay_selection SelectionSample.pool 0
       = Ok (firstn (Z.to_nat (Z.max 1 0)) (sort_desc adjusted_lt scored))
    /\ descending adjusted_lt (sort_desc adjusted_lt scored)
    /\ Permutation (sort_desc adjusted_lt scored) scored.
Proof.
  apply (selection_returns_the_top_by_adjusted_score SelectionSample.pool 0).
  repeat constructor; vm_compute; discriminate.
Defined.

End AnalyticsFacts.

(** ** Enumeration *)

Module OptimizerFacts.
Import ResearchEngine ParlayOptimizer LegFacts GenerationFacts.

Lemma combs_count {A} (l : list A) (r : nat) :
  List.length (combs l r) = choose (List.length l) r.
Proof.
  revert r. induction l as [|x t IH]; intros [|r]; cbn; try reflexivity.
  rewrite length_app, length_map, !IH. reflexivity.
Qed.

Lemma take_le {A} (n : Z) (l : list A) : (0 <= n)%Z -> (len (take n l) <= n)%Z.
Proof.
  intro H. unfold take. assert ((n <? 0)%Z = false) as -> by (apply Z.ltb_ge; lia).
  unfold len. rewrite length_firstn. lia.
Qed.

Lemma descending_firstn {A} (lt : A -> A -> bool) (n : nat) (l : list A) :
  descending lt l -> descending lt (firstn n l).
Proof.
  unfold descending. intro H. revert n.
  induction H as [|x t Hx Ht IH]; intros [|n]; cbn [firstn]; try constructor.
  - apply Forall_forall. intros y Hy. rewrite Forall_forall in Hx.
    apply Hx. eapply in_firstn; eauto.
  - apply IH.
Qed.

Lemma descending_take {A} (lt : A -> A -> bool) (n : Z) (l : list A) :
  descending lt l -> descending lt (take n l).
Proof.
  intro H. unfold take. destruct (n <? 0)%Z; now apply descending_firstn.
Qed.

Lemma key_lt_asym {A} (key : A -> Q) (x y : A) :
  Qltb (key x) (key y) = true -> Qltb (key y) (key x) = false.
Proof.
  intro H. apply Qltb_true in H. apply Qltb_false. lra.
Qed.

Lemma key_lt_negtrans {A} (key : A -> Q) (x y z : A) :
  Qltb (key x) (key y) = false -> Qltb (key y) (key z) = false ->
  Qltb (key x) (key z) = false.
Proof.
  intros H1 H2. apply Qltb_false in H1, H2. apply Qltb_false. lra.
Qed.

(** The loop over the legs of a combination in [optimize_for_target_odds]
    and [maximize_ev]. *)
Lemma quad_loop (combo : list Leg) (p o e c : Q) :
  Forall (fun l => ~ odds l == 0) combo -> 0 < o ->
  exists p' o' e' c',
    foldM
      (fun '(combined_implied, combined_odds, total_ev, total_confidence) leg =>
         d <- american_to_decimal (odds leg) ;;
         Ok (combined_implied * implied_probability leg,
             combined_odds * d,
             total_ev + expected_value leg,
             total_confidence + confidence_score leg))
      combo (p, o, e, c) = Ok (p', o', e', c')
    /\ o <= o' /\ (combo <> [] -> o < o')
    /\ (Forall fairly_priced combo -> p' * o' == p * o)
    /\ e' == e + Qsum (map expected_value combo)
    /\ c' == c + Qsum (map confidence_score combo).
Proof.
  intro F. revert p o e c. induction F as [|l t NZ _ IH]; intros p o e c O.
  - exists p, o, e, c. cbn. repeat split; try lra; try congruence; ring.
  - cbn [foldM].
    destruct (PriceFacts.decimal_implied_product (odds l) NZ)
      as [d [ip [D [I [M [G _]]]]]].
    rewrite D. cbn [bind].
    destruct (IH (p * implied_probability l) (o * d)
                (e + expected_value l) (c + confidence_score l))
      as [p' [o' [e' [c' [E [H1 [H2 [H3 [H4 H5]]]]]]]]]; [nra|].
    exists p', o', e', c'. split; [exact E|].
    repeat split.
    + nra.
    + intros _. nra.
    + intro FP. inversion FP as [|? ? [_ El] Ft]. subst.
      rewrite (H3 Ft). rewrite El in I.
      assert (implied_probability l = ip) as -> by congruence.
      transitivity (p * o * (d * ip)); [ring|]. rewrite M. ring.
    + rewrite H4. cbn [map]. change (Qsum (?x :: ?t)) with (x + Qsum t). ring.
    + rewrite H5. cbn [map]. change (Qsum (?x :: ?t)) with (x + Qsum t). ring.
Qed.

(** The loop of [round_robin_generator]. *)
Lemma pair_loop (combo : list Leg) (p o : Q) :
  Forall (fun l => ~ odds l == 0) combo -> 0 < o ->
  exists p' o',
    foldM
      (fun '(combined_implied, combined_odds) leg =>
         d <- american_to_decimal (odds leg) ;;
         Ok (combined_implied * implied_probability leg, combined_odds * d))
      combo (p, o) = Ok (p', o')
    /\ o <= o' /\ (combo <> [] -> o < o').
Proof.
  intro F. revert p o. induction F as [|l t NZ _ IH]; intros p o O.
  - exists p, o. cbn. repeat split; try lra; congruence.
  - cbn [foldM].
    destruct (PriceFacts.decimal_implied_product (odds l) NZ)
      as [d [ip [D [I [M [G _]]]]]].
    rewrite D. cbn [bind].
    destruct (IH (p * implied_probability l) (o * d))
      as [p' [o' [E [H1 H2]]]]; [nra|].
    exists p', o'. split; [exact E|]. split; [nra|]. intros _. nra.
Qed.

Lemma round_robin_returns (group_size : Z) (combo : list Leg) :
  Forall (fun l => ~ odds l == 0) combo -> combo <> [] ->
  exists p,
    round_robin group_size combo = Ok p
    /\ RoundRobin.legs p = combo
    /\ RoundRobin.num_legs p = group_size.
Proof.
  intros F NE. unfold round_robin.
  destruct (pair_loop combo 1 1 F ltac:(lra)) as [p' [o' [-> [_ H]]]].
  specialize (H NE). cbn [bind].
  destruct (to_american_returns (o' - 1) ltac:(lra)) as [a [-> _]].
  cbn [bind]. eexists. repeat split.
Qed.

Lemma Forall2_map_eq {A B} (f : B -> A) (l : list A) (ys : list B) :
  Forall2 (fun x y => f y = x) l ys -> map f ys = l.
Proof.
  induction 1 as [|x y l ys H _ IH]; [reflexivity|].
  cbn [map]. now rewrite H, IH.
Qed.

(** X14.  On a pool of [n] legs with nonzero odds and a group size [k]
    between 1 and [n], [round_robin_generator] returns one parlay for each
    [k]-element combination of the pool, in the order of
    [itertools.combinations]: C(n, k) parlays of [k] legs each. *)
Theorem round_robin_covers_every_combination (legs : list Leg) (group_size : Z) :
  Forall (fun l => ~ odds l == 0) legs ->
  (1 <= group_size <= len legs)%Z ->
  exists out,
    round_robin_generator legs group_size = Ok out
    /\ map RoundRobin.legs out = combs legs (Z.to_nat group_size)
    /\ List.length out = choose (List.length legs) (Z.to_nat group_size)
    /\ Forall (fun p => RoundRobin.num_legs p = group_size
                        /\ len (RoundRobin.legs p) = group_size) out.
Proof.
  intros F K. unfold round_robin_generator.
  assert ((len legs <? group_size)%Z = false) as -> by (apply Z.ltb_ge; lia).
  unfold combinations.
  assert ((group_size <? 0)%Z = false) as -> by (apply Z.ltb_ge; lia).
  cbn [bind].
  destruct (AnalyticsFacts.mapM_Forall2 (round_robin group_size)
              (fun combo p => RoundRobin.legs p = combo
                              /\ RoundRobin.num_legs p = group_size)
              (combs legs (Z.to_nat group_size))) as [out [E S]].
  { intros combo Hc.
    destruct (round_robin_returns group_size combo) as [p [Hp [Hl Hn]]].
    - apply Forall_forall. intros x Hx. rewrite Forall_forall in F.
      apply F. eapply combs_in; eauto.
    - apply combs_length in Hc. destruct combo; [cbn in Hc; lia|discriminate].
    - exists p. auto. }
  exists out. split; [exact E|].
  assert (map RoundRobin.legs out = combs legs (Z.to_nat group_size)) as M.
  { apply Forall2_map_eq. eapply Forall2_impl; [|exact S].
    intros a b [H _]. exact H. }
  split; [exact M|]. split.
  - rewrite <- combs_count, <- M. now rewrite length_map.
  - apply Forall_forall. intros p Hp.
    destruct (mapM_in _ _ _ _ E Hp) as [combo [Hc Fc]].
    destruct (round_robin_returns group_size combo) as [q [Hq [Hl Hn]]].
    + apply Forall_forall. intros x Hx. rewrite Forall_forall in F.
      apply F. eapply combs_in; eauto.
    + apply combs_length in Hc. destruct combo; [cbn in Hc; lia|discriminate].
    + assert (p = q) by congruence. subst q. split; [exact Hn|].
      rewrite Hl. unfold len. rewrite (combs_length _ _ _ Hc). lia.
Qed.

Lemma round_robin_covers_every_combination_witness :
  exists out,
    round_robin_generator EnumerationSample.nine 3 = Ok out
    /\ map RoundRobin.legs out = combs EnumerationSample.nine (Z.to_nat 3)
    /\ List.length out = choose (List.length EnumerationSample.nine) (Z.to_nat 3)
    /\ Forall (fun p => RoundRobin.num_legs p = 3%Z
                        /\ len (RoundRobin.legs p) = 3%Z) out.
Proof.
  apply (round_robin_covers_every_combination EnumerationSample.nine 3).
  - repeat constructor; intro H; vm_compute in H; discriminate H.
  - vm_compute. split; discriminate.
Defined.

(** X15.  The edges of [round_robin_generator]: a pool smaller than the
    group size gives no parlay; a group size of 0 raises
    [ZeroDivisionError], since the one empty combination has profit
    multiplier 0; a negative group size raises the [ValueError] of
    [itertools.combinations]. *)
Theorem round_robin_edges (legs : list Leg) (group_size : Z) :
  ((len legs < group_size)%Z -> round_robin_generator legs group_size = Ok [])
  /\ (group_size = 0%Z ->
      round_robin_generator legs group_size = Raise ZeroDivisionError)
  /\ ((group_size < 0)%Z ->
      round_robin_generator legs group_size = Raise ValueError).
Proof.
  unfold round_robin_generator. split; [|split]; intro H.
  - assert ((len legs <? group_size)%Z = true) as -> by (apply Z.ltb_lt; lia).
    reflexivity.
  - subst group_size.
    assert ((len legs <? 0)%Z = false) as ->
      by (apply Z.ltb_ge; unfold len; lia).
    destruct legs; reflexivity.
  - assert ((len legs <? group_size)%Z = false) as ->
      by (apply Z.ltb_ge; unfold len; lia).
    unfold combinations.
    assert ((group_size <? 0)%Z = true) as -> by (apply Z.ltb_lt; lia).
    reflexivity.
Qed.

(** *** Target odds *)

Lemma returns_and {A} (m : result A) (P : A -> Prop) :
  returns m (fun _ => True) -> (forall a, m = Ok a -> P a) -> returns m P.
Proof.
  intros [a [E _]] H. exists a. split; [exact E|now apply H].
Qed.

Lemma target_candidate_returns (target_odds tolerance : Q) (num_legs : Z)
  (combo : list Leg) :
  Forall (fun l => ~ odds l == 0) combo -> combo <> [] ->
  ~ target_odds == 0 -> num_legs <> 0%Z ->
  returns (target_candidate target_odds tolerance num_legs combo)
    (fun _ => True).
Proof.
  intros F NE T N. unfold target_candidate.
  destruct (quad_loop combo 1 1 0 0 F ltac:(lra))
    as [p' [o' [e' [c' [-> [_ [H _]]]]]]].
  specialize (H NE). cbn [bind].
  destruct (to_american_returns (o' - 1) ltac:(lra)) as [a [-> _]].
  cbn [bind]. rewrite div_ok by exact T. cbn [bind].
  assert (~ inject_Z num_legs == 0) as NZ.
  { intro Z. apply N. unfold Qeq in Z. cbn in Z. lia. }
  split_if; [|now apply returns_ok].
  rewrite (div_ok _ _ NZ). cbn [bind].
  rewrite (div_ok _ _ NZ). cbn [bind]. now apply returns_ok.
Qed.

Lemma target_candidate_found (target_odds tolerance : Q) (num_legs : Z)
  (combo : list Leg) (found : list TargetParlay.t) (p : TargetParlay.t) :
  target_candidate target_odds tolerance num_legs combo = Ok found ->
  In p found ->
  TargetParlay.legs p = combo
  /\ TargetParlay.num_legs p = num_legs
  /\ TargetParlay.target_diff p <= tolerance
  /\ TargetParlay.target_diff p
     = Qabs (TargetParlay.combined_odds p - target_odds) / target_odds.
Proof.
  unfold target_candidate. intros H Hp.
  destruct (foldM _ combo (1, 1, 0, 0)) as [[[[ci co] ev] cf]|];
    cbn [bind] in H; [|discriminate H].
  destruct (to_american (co - 1)) as [a|]; cbn [bind] in H; [|discriminate H].
  destruct (div (Qabs (a - target_odds)) target_odds) as [diff|] eqn:D;
    cbn [bind] in H; [|discriminate H].
  destruct (Qle_bool diff tolerance) eqn:L.
  - bind_inv H. inversion H. subst found. destruct Hp as [<-|[]].
    cbn. apply Qle_bool_iff in L. apply ParlayFacts.div_inv in D.
    repeat split; try assumption. apply D.
  - inversion H. subst. contradiction.
Qed.

Lemma mapM_Forall2_inv {A B} (f : A -> result B) (l : list A) (ys : list B) :
  mapM f l = Ok ys -> Forall2 (fun x y => f x = Ok y) l ys.
Proof.
  revert ys. induction l as [|x t IH]; intros ys H; cbn [mapM] in H.
  - inversion H. constructor.
  - bind_inv H. inversion H. subst. constructor; [assumption|].
    apply IH. reflexivity.
Qed.

Lemma range_cons (a b : Z) : (a < b)%Z -> range a b = a :: range (a + 1) b.
Proof.
  intro H. unfold range.
  replace (Z.to_nat (b - a)) with (S (Z.to_nat (b - (a + 1)))) by lia.
  cbn [seq map]. f_equal; [lia|].
  rewrite <- seq_shift, map_map. apply map_ext. intro i. lia.
Qed.

Lemma priced_in_nonzero (cfg : Config) (games : list Game) (l : Leg) :
  priced_in cfg games l -> ~ odds l == 0.
Proof.
  intros [g [_ [_ [H _]]]]. exact H.
Qed.

Section Target.

Variable cfg : Config.
Variable env : Env.

Lemma pool_odds (games : list Game) :
  Forall (fun l => ~ odds l == 0) (pool_of cfg env games).
Proof.
  eapply Forall_impl; [|apply ParlayFacts.pool_priced].
  intro l. apply priced_in_nonzero.
Qed.

Lemma target_odds_unfold (games : list Game) (target_odds tolerance : Q)
  (min_legs max_legs : Z) :
  optimize_for_target_odds cfg env games target_odds tolerance min_legs max_legs
  = if (len (pool_of cfg env games) <? min_legs)%Z then Ok []
    else
      per_size <-
        mapM
          (fun num_legs =>
             combos <- combinations (pool_of cfg env games) num_legs ;;
             found <- mapM (target_candidate target_odds tolerance num_legs)
                        combos ;;
             Ok (List.concat found))
          (range min_legs (Z.min (max_legs + 1) (len (pool_of cfg env games) + 1))) ;;
      Ok (take 10 (sort_desc target_score_lt (List.concat per_size))).
Proof.
  unfold optimize_for_target_odds. rewrite (analyze_all cfg env games).
  cbn [bind]. now rewrite (pool_concat cfg env games).
Qed.

Lemma target_odds_returns (games : list Game) (target_odds tolerance : Q)
  (min_legs max_legs : Z) :
  ~ target_odds == 0 -> (1 <= min_legs)%Z ->
  returns
    (optimize_for_target_odds cfg env games target_odds tolerance
       min_legs max_legs)
    (fun _ => True).
Proof.
  intros T M. rewrite target_odds_unfold.
  split_if; [now apply returns_ok|].
  eapply returns_bind with (P := fun _ => True); [|intros; now apply returns_ok].
  eapply returns_weaken with (P := Forall (fun _ => True)); [|auto].
  apply returns_mapM_forall. intros n Hn. apply in_range in Hn.
  eapply returns_bind.
  { apply (combinations_returns (fun l => ~ odds l == 0)); [lia|].
    apply pool_odds. }
  intros combos Hc.
  eapply returns_bind with (P := fun _ => True); [|intros; now apply returns_ok].
  eapply returns_weaken with (P := Forall (fun _ => True)); [|auto].
  apply returns_mapM_forall. intros combo Hcombo.
  rewrite Forall_forall in Hc. destruct (Hc combo Hcombo) as [F L].
  apply target_candidate_returns; try assumption; try lia.
  destruct combo; [cbn in L; lia|discriminate].
Qed.

Lemma target_odds_found (games : list Game) (target_odds tolerance : Q)
  (min_legs max_legs : Z) (out : list TargetParlay.t) :
  optimize_for_target_odds cfg env games target_odds tolerance
    min_legs max_legs = Ok out ->
  (len out <= 10)%Z
  /\ descending target_score_lt out
  /\ Forall
       (fun p =>
          (min_legs <= TargetParlay.num_legs p <= max_legs)%Z
          /\ len (TargetParlay.legs p) = TargetParlay.num_legs p
          /\ Forall (priced_in cfg games) (TargetParlay.legs p)
          /\ TargetParlay.target_diff p <= tolerance
          /\ TargetParlay.target_diff p
             = Qabs (TargetParlay.combined_odds p - target_odds) / target_odds)
       out.
Proof.
  rewrite target_odds_unfold. intro H.
  match type of H with
  | (if ?c then _ else _) = _ => destruct c
  end.
  { inversion H. repeat split; try constructor. cbn. lia. }
  bind_inv H. inversion H. subst. clear H.
  split; [apply take_le; lia|].
  split.
  { apply descending_take. apply sort_desc_descending.
    - intros x y. apply key_lt_asym.
    - intros x y z. apply key_lt_negtrans. }
  apply Forall_forall. intros p Hp.
  apply in_take, in_sort_desc, in_concat in Hp as [ps [Hps Hp]].
  match goal with
  | K : mapM _ (range _ _) = Ok _ |- _ =>
      destruct (mapM_in _ _ _ _ K Hps) as [n [Hn Fn]]
  end.
  apply in_range in Hn. bind_inv Fn. inversion Fn. subst ps. clear Fn.
  apply in_concat in Hp as [found [Hfound Hp]].
  match goal with
  | K : mapM (target_candidate _ _ _) _ = Ok _ |- _ =>
      destruct (mapM_in _ _ _ _ K Hfound) as [combo [Hc Fc]]
  end.
  destruct (target_candidate_found _ _ _ _ _ _ Fc Hp) as [Hl [Hn' [Hd He]]].
  match goal with
  | K : combinations _ _ = Ok _ |- _ =>
      pose proof (combinations_length _ _ _ _ K Hc) as L;
      pose proof (ParlayFacts.combination_of _ _ _ _ _
                    (ParlayFacts.pool_priced cfg env games) K Hc) as F
  end.
  rewrite Hl, Hn'. repeat split; try assumption; lia.
Qed.

End Target.

(** X16.  For a nonzero target and [min_legs] of at least 1,
    [optimize_for_target_odds] never raises and returns at most ten
    candidates, best score first; each has between [min_legs] and [max_legs]
    legs, all from the analysed games, and a [target_diff], the distance of
    its American odds from the target divided by the target itself, of at
    most [tolerance]. *)
Theorem target_odds_results_are_within_tolerance (cfg : Config) (env : Env)
  (games : list Game) (target_odds tolerance : Q) (min_legs max_legs : Z) :
  ~ target_odds == 0 -> (1 <= min_legs)%Z ->
  returns
    (optimize_for_target_odds cfg env games target_odds tolerance
       min_legs max_legs)
    (fun out =>
       (len out <= 10)%Z
       /\ descending target_score_lt out
       /\ Forall
            (fun p =>
               (min_legs <= TargetParlay.num_legs p <= max_legs)%Z
               /\ len (TargetParlay.legs p) = TargetParlay.num_legs p
               /\ Forall (priced_in cfg games) (TargetParlay.legs p)
               /\ TargetParlay.target_diff p <= tolerance
               /\ TargetParlay.target_diff p
                  = Qabs (TargetParlay.combined_odds p - target_odds)
                    / target_odds)
            out).
Proof.
  intros T M. apply returns_and.
  - now apply target_odds_returns.
  - intros out. apply target_odds_found.
Qed.

Lemma target_odds_results_are_within_tolerance_witness :
  returns
    (optimize_for_target_odds default_config SlateSample.env
       [SlateSample.lakers_celtics] 600 (2 # 10) 2 3)
    (fun out =>
       (len out <= 10)%Z
       /\ descending target_score_lt out
       /\ Forall
            (fun p =>
               (2 <= TargetParlay.num_legs p <= 3)%Z
               /\ len (TargetParlay.legs p) = TargetParlay.num_legs p
               /\ Forall (priced_in default_config [SlateSample.lakers_celtics])
                    (TargetParlay.legs p)
               /\ TargetParlay.target_diff p <= 2 # 10
               /\ TargetParlay.target_diff p
                  = Qabs (TargetParlay.combined_odds p - 600) / 600)
            out).
Proof.
  apply (target_odds_results_are_within_tolerance default_config
           SlateSample.env [SlateSample.lakers_celtics] 600 (2 # 10) 2 3).
  - intro H. vm_compute in H. discriminate H.
  - vm_compute. discriminate.
Defined.

Lemma target_candidate_zero (target_odds tolerance : Q) (num_legs : Z)
  (combo : list Leg) :
  Forall (fun l => ~ odds l == 0) combo -> combo <> [] ->
  target_odds == 0 ->
  target_candidate target_odds tolerance num_legs combo
  = Raise ZeroDivisionError.
Proof.
  intros F NE T. unfold target_candidate.
  destruct (quad_loop combo 1 1 0 0 F ltac:(lra))
    as [p' [o' [e' [c' [-> [_ [H _]]]]]]].
  specialize (H NE). cbn [bind].
  destruct (to_american_returns (o' - 1) ltac:(lra)) as [a [-> _]].
  cbn [bind]. now rewrite div_zero.
Qed.

Lemma target_candidate_negative (target_odds tolerance : Q) (num_legs : Z)
  (combo : list Leg) :
  Forall (fun l => ~ odds l == 0) combo -> combo <> [] ->
  target_odds < 0 -> 0 <= tolerance -> num_legs <> 0%Z ->
  exists found,
    target_candidate target_odds tolerance num_legs combo = Ok found
    /\ List.length found = 1%nat.
Proof.
  intros F NE T Tol N. unfold target_candidate.
  destruct (quad_loop combo 1 1 0 0 F ltac:(lra))
    as [p' [o' [e' [c' [-> [_ [H _]]]]]]].
  specialize (H NE). cbn [bind].
  destruct (to_american_returns (o' - 1) ltac:(lra)) as [a [-> _]].
  cbn [bind]. rewrite div_ok by lra. cbn [bind].
  assert (Qabs (a - target_odds) / target_odds <= 0) as D.
  { pose proof (Qabs_nonneg (a - target_odds)) as A.
    assert (0 <= Qabs (a - target_odds) / - target_odds) as B
      by (apply Qle_shift_div_l; lra).
    assert (Qabs (a - target_odds) / target_odds
            == - (Qabs (a - target_odds) / - target_odds)) as E
      by (field; lra).
    rewrite E. lra. }
  assert (Qle_bool (Qabs (a - target_odds) / target_odds) tolerance = true)
    as -> by (apply Qle_bool_iff; lra).
  assert (~ inject_Z num_legs == 0) as NZ.
  { intro Z. apply N. unfold Qeq in Z. cbn in Z. lia. }
  rewrite (div_ok _ _ NZ). cbn [bind].
  rewrite (div_ok _ _ NZ). cbn [bind]. eexists. split; reflexivity.
Qed.

Lemma concat_singletons {A B} (l : list A) (ys : list (list B)) :
  Forall2 (fun _ y => List.length y = 1%nat) l ys ->
  List.length (List.concat ys) = List.length l.
Proof.
  induction 1 as [|x y l ys H _ IH]; [reflexivity|].
  cbn [List.concat]. rewrite length_app, H, IH. reflexivity.
Qed.

Lemma concat_lengths {A B C} (g : A -> list C) (l : list A)
  (ys : list (list B)) :
  Forall2 (fun x y => List.length y = List.length (g x)) l ys ->
  List.length (List.concat ys) = List.length (flat_map g l).
Proof.
  induction 1 as [|x y l ys H _ IH]; [reflexivity|].
  cbn [List.concat flat_map]. rewrite !length_app, H, IH. reflexivity.
Qed.

Lemma combs_not_nil {A} (l : list A) (r : nat) (c : list A) :
  (1 <= r)%nat -> In c (combs l r) -> c <> [].
Proof.
  intros R H. apply combs_length in H. destruct c; [cbn in H; lia|discriminate].
Qed.

(** X17.  A target of 0 makes [optimize_for_target_odds] raise
    [ZeroDivisionError] as soon as the pool has a combination to try: the
    distance to the target is divided by the target. *)
Theorem zero_target_raises (cfg : Config) (env : Env) (games : list Game)
  (target_odds tolerance : Q) (min_legs max_legs : Z) :
  target_odds == 0 ->
  (1 <= min_legs <= max_legs)%Z ->
  (min_legs <= len (pool_of cfg env games))%Z ->
  optimize_for_target_odds cfg env games target_odds tolerance min_legs max_legs
  = Raise ZeroDivisionError.
Proof.
  intros T M L. rewrite target_odds_unfold.
  assert ((len (pool_of cfg env games) <? min_legs)%Z = false) as ->
    by (apply Z.ltb_ge; lia).
  rewrite range_cons by lia. cbn [mapM].
  unfold combinations.
  assert ((min_legs <? 0)%Z = false) as -> by (apply Z.ltb_ge; lia).
  cbn [bind].
  destruct (combs (pool_of cfg env games) (Z.to_nat min_legs))
    as [|c0 rest] eqn:E.
  { destruct (ZeroOddsFacts.combs_nonempty (pool_of cfg env games) (Z.to_nat min_legs))
      as [c Hc]; [unfold len in L; lia|].
    rewrite E in Hc. contradiction. }
  cbn [mapM].
  assert (In c0 (combs (pool_of cfg env games) (Z.to_nat min_legs))) as Hc
    by (rewrite E; now left).
  rewrite (target_candidate_zero target_odds tolerance min_legs c0).
  - reflexivity.
  - apply Forall_forall. intros x Hx.
    pose proof (pool_odds cfg env games) as F. rewrite Forall_forall in F.
    apply F. eapply combs_in; eauto.
  - eapply combs_not_nil; [|exact Hc]. lia.
  - exact T.
Qed.

Lemma zero_target_raises_witness :
  optimize_for_target_odds default_config SlateSample.env
    [SlateSample.lakers_celtics] 0 (1 # 10) 2 8
  = Raise ZeroDivisionError.
Proof.
  apply (zero_target_raises default_config SlateSample.env
           [SlateSample.lakers_celtics] 0 (1 # 10) 2 8).
  - reflexivity.
  - lia.
  - vm_compute. discriminate.
Defined.

(** X18.  A negative target, such as the odds of a favourite, switches the
    tolerance filter of [optimize_for_target_odds] off: the relative distance
    is divided by the negative target and is never above a nonnegative
    tolerance, so every combination of every size becomes a candidate and the
    result has ten entries whenever there are ten combinations. *)
Theorem negative_target_keeps_every_combination (cfg : Config) (env : Env)
  (games : list Game) (target_odds tolerance : Q) (min_legs max_legs : Z) :
  target_odds < 0 -> 0 <= tolerance -> (1 <= min_legs)%Z ->
  returns
    (optimize_for_target_odds cfg env games target_odds tolerance
       min_legs max_legs)
    (fun out =>
       List.length out
       = Nat.min 10
           (List.length
              (flat_map
                 (fun num_legs =>
                    combs (pool_of cfg env games) (Z.to_nat num_legs))
                 (range min_legs
                    (Z.min (max_legs + 1) (len (pool_of cfg env games) + 1)))))).
Proof.
  intros T Tol M. rewrite target_odds_unfold.
  destruct (len (pool_of cfg env games) <? min_legs)%Z eqn:C.
  { apply returns_ok. apply Z.ltb_lt in C.
    replace (range min_legs
               (Z.min (max_legs + 1) (len (pool_of cfg env games) + 1)))
      with (@nil Z); [reflexivity|].
    unfold range.
    replace (Z.to_nat
               (Z.min (max_legs + 1) (len (pool_of cfg env games) + 1) - min_legs))
      with 0%nat by lia.
    reflexivity. }
  set (pool := pool_of cfg env games).
  destruct (AnalyticsFacts.mapM_Forall2
              (fun num_legs =>
                 combos <- combinations pool num_legs ;;
                 found <- mapM (target_candidate target_odds tolerance num_legs)
                            combos ;;
                 Ok (List.concat found))
              (fun num_legs ps =>
                 List.length ps = List.length (combs pool (Z.to_nat num_legs)))
              (range min_legs (Z.min (max_legs + 1) (len pool + 1))))
    as [per_size [E S]].
  { intros n Hn. apply in_range in Hn. unfold combinations.
    assert ((n <? 0)%Z = false) as -> by (apply Z.ltb_ge; lia).
    cbn [bind].
    destruct (AnalyticsFacts.mapM_Forall2
                (target_candidate target_odds tolerance n)
                (fun _ found => List.length found = 1%nat)
                (combs pool (Z.to_nat n))) as [found [Ef Sf]].
    { intros combo Hc.
      apply target_candidate_negative; try assumption; try lia.
      - apply Forall_forall. intros x Hx.
        pose proof (pool_odds cfg env games) as F. rewrite Forall_forall in F.
        apply F. eapply combs_in; eauto.
      - eapply combs_not_nil; [|exact Hc]. lia. }
    rewrite Ef. cbn [bind]. eexists. split; [reflexivity|].
    now apply concat_singletons. }
  rewrite E. cbn [bind]. apply returns_ok.
  unfold take. cbn [Z.ltb Z.compare]. rewrite length_firstn.
  rewrite (Permutation_length (sort_desc_perm target_score_lt _)).
  rewrite (concat_lengths (fun n => combs pool (Z.to_nat n)) _ _ S).
  reflexivity.
Qed.

Lemma negative_target_keeps_every_combination_witness :
  returns
    (optimize_for_target_odds default_config SlateSample.env
       [SlateSample.lakers_celtics] (- (150)) (1 # 10) 2 3)
    (fun out =>
       List.length out
       = Nat.min 10
           (List.length
              (flat_map
                 (fun num_legs =>
                    combs (pool_of default_config SlateSample.env
                             [SlateSample.lakers_celtics]) (Z.to_nat num_legs))
                 (range 2
                    (Z.min (3 + 1)
                       (len (pool_of default_config SlateSample.env
                               [SlateSample.lakers_celtics]) + 1)))))).
Proof.
  apply (negative_target_keeps_every_combination default_config SlateSample.env
           [SlateSample.lakers_celtics] (- (150)) (1 # 10) 2 3).
  - reflexivity.
  - discriminate.
  - lia.
Defined.

(** *** Maximum expected value *)



Section MaximizeEv.

Variable cfg : Config.
Variable env : Env.



End MaximizeEv.


End OptimizerFacts.

(** ** Diverse parlays *)

Module DiverseFacts.
Import ResearchEngine DiverseParlayGenerator LegFacts GenerationFacts.

Lemma metrics_loop_value (legs : list Leg) (co cc ev : Q) (bt : list string) :
  0 < co ->
  exists r,
    metrics_loop legs (co, cc, ev, bt) = Ok r
    /\ match r with
       | None => exists l, In l legs /\ odds l == 0
       | Some (co', cc', ev', _) =>
           Forall (fun l => ~ odds l == 0) legs
           /\ co <= co' /\ (legs <> [] -> co < co')
           /\ cc' == cc * Qprod (map confidence_score legs)
           /\ ev' == ev + Qsum (map expected_value legs)
       end.
Proof.
  revert co cc ev bt. induction legs as [|l t IH]; intros co cc ev bt O.
  - exists (Some (co, cc, ev, bt)). split; [reflexivity|].
    cbn. repeat split; try constructor; try lra; try congruence; ring.
  - cbn [metrics_loop]. destruct (Qeq_bool (odds l) 0) eqn:Z.
    + exists None. split; [reflexivity|]. exists l. split; [now left|].
      now apply Qeq_bool_iff.
    + assert (~ odds l == 0) as NZ by (now apply Qeq_bool_neq).
      destruct (OddsFacts.american_to_decimal_nonzero (odds l) NZ) as [d [-> G]].
      cbn [bind].
      destruct (IH (co * d) (cc * confidence_score l) (ev + expected_value l)
                  (add_str (bet_type l) bt)) as [r [E H]]; [nra|].
      exists r. split; [exact E|].
      destruct r as [[[[co' cc'] ev'] bt']|].
      * destruct H as [F [H1 [H2 [H3 H4]]]].
        repeat split.
        -- now constructor.
        -- nra.
        -- intros _. nra.
        -- rewrite H3. cbn [map].
           change (Qprod (?x :: ?t)) with (x * Qprod t). ring.
        -- rewrite H4. cbn [map].
           change (Qsum (?x :: ?t)) with (x + Qsum t). ring.
      * destruct H as [x [Hx Zx]]. exists x. split; [now right|exact Zx].
Qed.

Lemma inject_len_nonzero {A} (l : list A) : (1 <= len l)%Z -> ~ inject_Z (len l) == 0.
Proof.
  intros H Z. unfold Qeq in Z. cbn in Z. lia.
Qed.

Lemma parlay_metrics_value (legs : list Leg) (sport : string) :
  exists r,
    _calculate_parlay_metrics legs sport = Ok r
    /\ forall p, r = Some p -> accepted legs sport p.
Proof.
  unfold _calculate_parlay_metrics.
  destruct (len legs <? 2)%Z eqn:L.
  { exists None. split; [reflexivity|discriminate]. }
  apply Z.ltb_ge in L.
  set (game_ids := set_of (map (fun leg => id (game leg)) legs)).
  destruct (Qltb (inject_Z (len game_ids)) (Qmax 2 (inject_Z (len legs) * (5 # 10))))
    eqn:G.
  { exists None. split; [reflexivity|discriminate]. }
  apply Qltb_false in G.
  assert ((2 <= len game_ids)%Z /\ (len legs <= 2 * len game_ids)%Z) as [G1 G2].
  { pose proof (Q.le_max_l 2 (inject_Z (len legs) * (5 # 10))) as A.
    pose proof (Q.le_max_r 2 (inject_Z (len legs) * (5 # 10))) as B.
    split.
    - rewrite Zle_Qle. change (inject_Z 2) with 2. lra.
    - rewrite Zle_Qle. rewrite inject_Z_mult. change (inject_Z 2) with 2. lra. }
  destruct (metrics_loop_value legs 1 1 0 [] ltac:(lra)) as [r [-> H]].
  cbn [bind]. destruct r as [[[[co cc] ev] bt]|].
  - destruct H as [F [_ [H2 [H3 H4]]]].
    assert (1 < co) as C by (apply H2; destruct legs; [cbn in L; lia|discriminate]).
    destruct (PriceFacts.to_american_value (co - 1) ltac:(lra))
      as [a [d [-> [_ [D Ed]]]]].
    cbn [bind].
    pose proof (inject_len_nonzero legs ltac:(lia)) as NZ.
    rewrite (div_ok _ _ NZ). cbn [bind]. rewrite (div_ok _ _ NZ). cbn [bind].
    eexists. split; [reflexivity|].
    intros p Hp. inversion Hp. subst p. clear Hp. unfold accepted.
    cbn [DiverseParlay.picks DiverseParlay.legs DiverseParlay.sport
         DiverseParlay.num_legs DiverseParlay.num_games
         DiverseParlay.decimal_odds DiverseParlay.combined_odds
         DiverseParlay.combined_confidence DiverseParlay.avg_expected_value].
    fold game_ids.
    do 9 (split; [first [reflexivity | assumption | lia]|]).
    split; [lra|]. split; [|split].
    + exists d. split; [exact D|]. rewrite Ed. ring.
    + rewrite H3. ring.
    + rewrite H4. field. exact NZ.
  - exists None. split; [reflexivity|discriminate].
Qed.

(** X20.  [_calculate_parlay_metrics] never raises, whatever the legs: a
    leg with odds 0 makes it return [None] before any division.  A parlay it
    accepts has at least two legs on at least two games, no more than two
    legs per game on average, decimal odds above 1 that agree with its
    American odds, the product of the legs' confidences as its confidence
    and the mean of their expected values. *)
Theorem parlay_metrics_never_raise (legs : list Leg) (sport : string) :
  exists r,
    _calculate_parlay_metrics legs sport = Ok r
    /\ forall p, r = Some p ->
         DiverseParlay.picks p = legs
         /\ DiverseParlay.num_legs p = len legs
         /\ (2 <= len legs)%Z
         /\ DiverseParlay.num_games p
            = len (set_of (map (fun leg => id (game leg)) legs))
         /\ (2 <= DiverseParlay.num_games p)%Z
         /\ (DiverseParlay.num_legs p <= 2 * DiverseParlay.num_games p)%Z
         /\ Forall (fun l => ~ odds l == 0) legs
         /\ 1 < DiverseParlay.decimal_odds p
         /\ (exists d,
               american_to_decimal (DiverseParlay.combined_odds p) = Ok d
               /\ d == DiverseParlay.decimal_odds p)
         /\ DiverseParlay.combined_confidence p
            == Qprod (map confidence_score legs)
         /\ DiverseParlay.avg_expected_value p
            == Qsum (map expected_value legs) / inject_Z (len legs).
Proof.
  destruct (parlay_metrics_value legs sport) as [r [E H]].
  exists r. split; [exact E|]. intros p Hp.
  destruct (H p Hp) as [A [_ [_ K]]]. split; [exact A|]. intuition.
Qed.

Lemma metrics_returns (legs : list Leg) (sport : string) :
  returns (_calculate_parlay_metrics legs sport) (fun _ => True).
Proof.
  destruct (parlay_metrics_value legs sport) as [r [E _]]. now exists r.
Qed.

Lemma metrics_accepted (legs : list Leg) (sport : string) (p : DiverseParlay.t) :
  _calculate_parlay_metrics legs sport = Ok (Some p) -> accepted legs sport p.
Proof.
  intro H. destruct (parlay_metrics_value legs sport) as [r [E K]].
  apply K. congruence.
Qed.

Lemma collect_returns (combos : list (list Leg)) (sport : string)
  (acc : list DiverseParlay.t) :
  returns (collect combos sport acc) (fun _ => True).
Proof.
  revert acc. induction combos as [|c t IH]; intro acc; cbn [collect].
  - now apply returns_ok.
  - destruct (metrics_returns c sport) as [r [-> _]]. cbn [bind].
    destruct r as [q|]; [|apply IH].
    split_if; [now apply returns_ok|apply IH].
Qed.

Lemma collect_from (combos : list (list Leg)) (sport : string)
  (acc out : list DiverseParlay.t) (p : DiverseParlay.t) :
  collect combos sport acc = Ok out -> In p out ->
  In p acc
  \/ exists c, In c combos /\ _calculate_parlay_metrics c sport = Ok (Some p).
Proof.
  revert acc. induction combos as [|c t IH]; intros acc H Hp; cbn [collect] in H.
  - inversion H. subst. now left.
  - destruct (_calculate_parlay_metrics c sport) as [[q|]|] eqn:M;
      cbn [bind] in H; [| |discriminate H].
    + destruct (len (acc ++ [q]) >=? 5)%Z.
      * assert (Ho : out = acc ++ [q]) by (inversion H; reflexivity).
        subst out. apply in_app_or in Hp as [Hp|[<-|[]]];
          [now left|]. right. exists c. split; [now left|exact M].
      * destruct (IH _ H Hp) as [Hin|[c' [Hc' Hp']]].
        -- apply in_app_or in Hin as [Hin|[<-|[]]]; [now left|].
           right. exists c. split; [now left|exact M].
        -- right. exists c'. split; [now right|exact Hp'].
    + destruct (IH _ H Hp) as [Hin|[c' [Hc' Hp']]]; [now left|].
      right. exists c'. split; [now right|exact Hp'].
Qed.

Lemma fill_from (Q : Leg -> Prop) (fuel : nat) (all_legs selected : list Leg)
  (num_legs : Z) :
  Forall Q all_legs -> Forall Q selected ->
  Forall Q (fill fuel all_legs selected num_legs).
Proof.
  intro Ha. revert selected.
  induction fuel as [|fuel IH]; intros selected Hs; cbn [fill]; [exact Hs|].
  split_if; [|exact Hs].
  destruct (filter _ all_legs) as [|r rest] eqn:E; [exact Hs|].
  apply IH. apply Forall_app. split; [exact Hs|]. constructor; [|constructor].
  assert (In r (filter (fun l => negb (existsb (leg_eqb l) selected)) all_legs))
    as Hr by (rewrite E; now left).
  apply filter_In in Hr as [Hr _]. rewrite Forall_forall in Ha. now apply Ha.
Qed.

Lemma fold_left_from {A B} (P : B -> Prop) (f : B -> A -> B) (l : list A) (b : B) :
  (forall b a, P b -> P (f b a)) -> P b -> P (fold_left f l b).
Proof.
  intro H. revert b. induction l as [|x t IH]; intros b Hb; cbn [fold_left];
    [exact Hb|]. apply IH. now apply H.
Qed.

Lemma Forall_take {A} (P : A -> Prop) (n : Z) (l : list A) :
  Forall P l -> Forall P (take n l).
Proof.
  intro H. apply Forall_forall. intros x Hx. apply in_take in Hx.
  rewrite Forall_forall in H. now apply H.
Qed.

Lemma Forall_filter {A} (P : A -> Prop) (f : A -> bool) (l : list A) :
  Forall P l -> Forall P (filter f l).
Proof.
  intro H. apply Forall_forall. intros x Hx. apply filter_In in Hx as [Hx _].
  rewrite Forall_forall in H. now apply H.
Qed.

Lemma varied_from (Q : Leg -> Prop) (R : DiverseParlay.t -> Prop)
  (all_legs : list Leg) (target_legs : Z) (sport : string)
  (out : list DiverseParlay.t) :
  Forall Q all_legs ->
  (forall combo p,
     Forall Q combo -> _calculate_parlay_metrics combo sport = Ok (Some p) -> R p) ->
  _generate_varied_parlays all_legs target_legs sport = Ok out ->
  Forall R out.
Proof.
  intros Ha HR. unfold _generate_varied_parlays.
  apply foldM_invariant; [|constructor].
  intros acc type_combo b Hacc H.
  match type of H with
  | (if (len ?sel >=? _)%Z then _ else _) = _ =>
      assert (Forall Q sel) as Hsel;
      [|destruct (len sel >=? target_legs)%Z]
  end.
  { apply fill_from; [exact Ha|].
    apply fold_left_from; [|constructor].
    intros sel leg_type Hs. split_if; [exact Hs|].
    apply Forall_app. split; [exact Hs|].
    apply Forall_take. now apply Forall_filter. }
  - bind_inv H. apply Forall_forall. intros p Hp.
    destruct (collect_from _ _ _ _ _ H Hp) as [Hin|[c [Hc Hpc]]].
    + rewrite Forall_forall in Hacc. now apply Hacc.
    + eapply HR; [|exact Hpc].
      match goal with
      | K : combinations _ _ = Ok _ |- _ =>
          eapply (ParlayFacts.combination_of Q); [|exact K|exact Hc]
      end.
      now apply Forall_take.
  - inversion H. now subst.
Qed.

Lemma foldM_returns {A S} (f : S -> A -> result S) (l : list A) (s : S) :
  (forall a x, In x l -> returns (f a x) (fun _ => True)) ->
  returns (foldM f l s) (fun _ => True).
Proof.
  revert s. induction l as [|x t IH]; intros s H; cbn [foldM].
  - now apply returns_ok.
  - destruct (H s x (or_introl eq_refl)) as [b [-> _]]. cbn [bind].
    apply IH. intros a y Hy. apply H. now right.
Qed.

Lemma varied_returns (all_legs : list Leg) (target_legs : Z) (sport : string) :
  (0 <= target_legs)%Z ->
  returns (_generate_varied_parlays all_legs target_legs sport) (fun _ => True).
Proof.
  intro T. unfold _generate_varied_parlays. apply foldM_returns.
  intros acc type_combo _. split_if; [|now apply returns_ok].
  unfold combinations.
  assert ((target_legs <? 0)%Z = false) as -> by (apply Z.ltb_ge; lia).
  cbn [bind]. apply collect_returns.
Qed.

Section Diverse.

Variable cfg : Config.
Variable env : Env.

Lemma diverse_unfold (games : list Game) (sport : string) (max_parlays : Z)
  (ensure_variety : bool) :
  generate_diverse_sport_parlays cfg env games sport max_parlays ensure_variety
  = if is_nil games then Ok []
    else if (len (pool_of cfg env games) <? 2)%Z then Ok []
    else
      parlay_candidates <-
        (if ensure_variety
         then varied_candidates (pool_of cfg env games) sport
         else simple_candidates cfg (pool_of cfg env games) sport) ;;
      Ok (take max_parlays
            (_deduplicate_parlays (sort_desc quality_lt parlay_candidates))).
Proof.
  unfold generate_diverse_sport_parlays. destruct (is_nil games); [reflexivity|].
  rewrite (analyze_all cfg env games). cbn [bind].
  now rewrite (pool_concat cfg env games).
Qed.

Lemma candidates_from (R : DiverseParlay.t -> Prop) (games : list Game)
  (sport : string) (ensure_variety : bool) (cands : list DiverseParlay.t) :
  (forall combo p,
     Forall (priced_in cfg games) combo ->
     _calculate_parlay_metrics combo sport = Ok (Some p) -> R p) ->
  (if ensure_variety
   then varied_candidates (pool_of cfg env games) sport
   else simple_candidates cfg (pool_of cfg env games) sport) = Ok cands ->
  Forall R cands.
Proof.
  intros HR H. pose proof (ParlayFacts.pool_priced cfg env games) as Hpool.
  apply Forall_forall. intros p Hp. destruct ensure_variety.
  - unfold varied_candidates in H. bind_inv H. inversion H. subst. clear H.
    apply in_concat in Hp as [ps [Hps Hp]].
    match goal with
    | K : mapM _ leg_count_targets = Ok _ |- _ =>
        destruct (mapM_in _ _ _ _ K Hps) as [n [Hn Fn]]
    end.
    match type of Fn with
    | (if ?c then _ else _) = _ => destruct c
    end.
    + inversion Fn. subst. contradiction.
    + apply (varied_from (priced_in cfg games) R) in Fn; try assumption.
      rewrite Forall_forall in Fn. now apply Fn.
  - unfold simple_candidates in H. bind_inv H. inversion H. subst. clear H.
    apply in_concat in Hp as [ps [Hps Hp]].
    match goal with
    | K : mapM _ (range _ _) = Ok _ |- _ =>
        destruct (mapM_in _ _ _ _ K Hps) as [n [Hn Fn]]
    end.
    bind_inv Fn. inversion Fn. subst. clear Fn.
    unfold keep_some in Hp. apply in_flat_map in Hp as [o [Ho Hp]].
    destruct o as [q|]; [|contradiction]. destruct Hp as [<-|[]].
    match goal with
    | K : mapM _ _ = Ok _ |- _ =>
        destruct (mapM_in _ _ _ _ K Ho) as [combo [Hc Fc]]
    end.
    eapply HR; [|exact Fc].
    match goal with
    | K : combinations _ _ = Ok _ |- _ =>
        eapply (ParlayFacts.combination_of (priced_in cfg games)); [|exact K|exact Hc]
    end.
    now apply Forall_take.
Qed.

Lemma varied_candidates_return (all_legs : list Leg) (sport : string) :
  returns (varied_candidates all_legs sport) (fun _ => True).
Proof.
  unfold varied_candidates.
  eapply returns_bind with (P := fun _ => True); [|intros; now apply returns_ok].
  eapply returns_weaken with (P := Forall (fun _ => True)); [|auto].
  apply returns_mapM_forall. intros n Hn.
  split_if; [now apply returns_ok|].
  apply varied_returns.
  unfold leg_count_targets in Hn. cbn in Hn.
  repeat (destruct Hn as [<-|Hn]; [lia|]). contradiction.
Qed.

End Diverse.

Lemma descending_filter {A} (lt : A -> A -> bool) (f : A -> bool) (l : list A) :
  descending lt l -> descending lt (filter f l).
Proof.
  unfold descending. induction 1 as [|x t Hx Ht IH]; cbn [filter]; [constructor|].
  destruct (f x); [|exact IH]. constructor; [|exact IH].
  now apply Forall_filter.
Qed.

Lemma descending_first_of_each {A} (lt same : A -> A -> bool) (l : list A) :
  descending lt l -> descending lt (first_of_each same l).
Proof.
  unfold descending. induction 1 as [|x t Hx Ht IH]; cbn [first_of_each];
    [constructor|].
  constructor.
  - apply Forall_filter. apply Forall_forall. intros y Hy.
    apply DedupFacts.in_first_of_each in Hy. rewrite Forall_forall in Hx.
    now apply Hx.
  - now apply descending_filter.
Qed.

Lemma diverse_order (cands : list DiverseParlay.t) (max_parlays : Z) :
  let out := take max_parlays
               (_deduplicate_parlays (sort_desc quality_lt cands)) in
  ((0 <= max_parlays)%Z -> (len out <= max_parlays)%Z)
  /\ descending quality_lt out
  /\ descending same_signature out.
Proof.
  cbv zeta. split; [|split].
  - apply OptimizerFacts.take_le.
  - apply OptimizerFacts.descending_take.
    rewrite DedupFacts.deduplicate_first_of_each.
    apply descending_first_of_each.
    apply sort_desc_descending.
    + apply DedupFacts.quality_lt_asym.
    + apply DedupFacts.quality_lt_negtrans.
  - apply OptimizerFacts.descending_take.
    rewrite DedupFacts.deduplicate_first_of_each.
    rewrite (DedupFacts.first_of_each_ext same_pairs_as_bag same_signature).
    + apply DedupFacts.first_of_each_distinct.
    + intros x y. symmetry. apply DedupFacts.same_signature_bag.
Qed.

Lemma Qprod_unit (l : list Q) :
  Forall (fun q => 0 <= q <= 1) l -> 0 <= Qprod l <= 1.
Proof.
  induction 1 as [|x t Hx _ IH]; cbn [Qprod fold_right].
  - split; discriminate.
  - change (fold_right Qmult 1 t) with (Qprod t). nra.
Qed.

Lemma Qprod_of_two (l : list Q) :
  (2 <= len l)%Z ->
  Forall (fun q => 5 # 10 <= q <= 65 # 100) l ->
  0 <= Qprod l <= 4225 # 10000.
Proof.
  intros L F. destruct l as [|a [|b t]]; try (cbn in L; lia).
  inversion F as [|? ? Ha Fa]. inversion Fa as [|? ? Hb Ft]. subst.
  assert (0 <= Qprod t <= 1) as R.
  { apply Qprod_unit. eapply Forall_impl; [|exact Ft].
    intros q Hq. cbn beta in Hq. lra. }
  change (Qprod (a :: b :: t)) with (a * (b * Qprod t)).
  assert (0 <= b * Qprod t <= 65 # 100) by nra. nra.
Qed.

Lemma accepted_confidence (cfg : Config) (games : list Game) (legs : list Leg)
  (sport : string) (p : DiverseParlay.t) :
  Forall (priced_in cfg games) legs -> accepted legs sport p ->
  0 <= DiverseParlay.combined_confidence p <= 4225 # 10000.
Proof.
  intros F [_ [_ [_ [_ [L [_ [_ [_ [_ [_ [_ [C _]]]]]]]]]]]].
  rewrite C. apply Qprod_of_two.
  - unfold len in *. now rewrite length_map.
  - apply ParlayFacts.confidences_in_range.
    eapply Forall_impl; [|exact F]. intros l [g [_ H]].
    eapply ParlayFacts.priced_confidence; eauto.
Qed.

Lemma set_of_single (l : list Z) :
  (forall x y, In x l -> In y l -> x = y) -> (len (set_of l) <= 1)%Z.
Proof.
  induction l as [|x t IH]; intro H; [cbn; lia|].
  cbn [set_of]. destruct (mem x t) eqn:M.
  - apply IH. intros a b Ha Hb. apply H; now right.
  - destruct t as [|y t']; [cbn; lia|].
    assert (x = y) as -> by (apply H; [now left|right; now left]).
    unfold mem in M. cbn [existsb] in M. now rewrite Z.eqb_refl in M.
Qed.

Section Results.

Variable cfg : Config.
Variable env : Env.

(** What every parlay of [generate_diverse_sport_parlays] carries. *)
Lemma diverse_results (games : list Game) (sport : string) (max_parlays : Z)
  (ensure_variety : bool) (out : list DiverseParlay.t) :
  generate_diverse_sport_parlays cfg env games sport max_parlays ensure_variety
  = Ok out ->
  ((0 <= max_parlays)%Z -> (len out <= max_parlays)%Z)
  /\ descending quality_lt out
  /\ descending same_signature out
  /\ Forall
       (fun p =>
          Forall (priced_in cfg games) (DiverseParlay.picks p)
          /\ accepted (DiverseParlay.picks p) sport p
          /\ 0 <= DiverseParlay.combined_confidence p <= 4225 # 10000)
       out.
Proof.
  rewrite diverse_unfold. intro H.
  destruct (is_nil games).
  { inversion H. repeat split; try constructor. cbn. lia. }
  destruct (len (pool_of cfg env games) <? 2)%Z.
  { inversion H. repeat split; try constructor. cbn. lia. }
  destruct (if ensure_variety
            then varied_candidates (pool_of cfg env games) sport
            else simple_candidates cfg (pool_of cfg env games) sport)
    as [cands|] eqn:E; cbn [bind] in H; [|discriminate H].
  inversion H. subst out. clear H.
  destruct (diverse_order cands max_parlays) as [A [B C]].
  split; [exact A|]. split; [exact B|]. split; [exact C|].
  apply Forall_forall. intros p Hp.
  apply in_take, DedupFacts.in_deduplicate, in_sort_desc in Hp.
  pose proof (candidates_from cfg env
                (fun p =>
                   Forall (priced_in cfg games) (DiverseParlay.picks p)
                   /\ accepted (DiverseParlay.picks p) sport p
                   /\ 0 <= DiverseParlay.combined_confidence p <= 4225 # 10000)
                games sport ensure_variety cands) as K.
  rewrite Forall_forall in K. apply K; [|exact E|exact Hp].
  intros combo q F M. apply metrics_accepted in M.
  assert (DiverseParlay.picks q = combo) as -> by apply M.
  split; [exact F|]. split; [exact M|].
  eapply accepted_confidence; eauto.
Qed.

Lemma simple_candidates_return (all_legs : list Leg) (sport : string) :
  (0 <= MIN_PARLAY_LEGS cfg)%Z ->
  returns (simple_candidates cfg all_legs sport) (fun _ => True).
Proof.
  intro M. unfold simple_candidates.
  eapply returns_bind with (P := fun _ => True); [|intros; now apply returns_ok].
  eapply returns_weaken with (P := Forall (fun _ => True)); [|auto].
  apply returns_mapM_forall. intros n Hn. apply in_range in Hn.
  unfold combinations.
  assert ((n <? 0)%Z = false) as -> by (apply Z.ltb_ge; lia).
  cbn [bind].
  eapply returns_bind with (P := fun _ => True); [|intros; now apply returns_ok].
  eapply returns_weaken with (P := Forall (fun _ => True)); [|auto].
  apply returns_mapM_forall. intros combo _. apply metrics_returns.
Qed.

Lemma diverse_returns (games : list Game) (sport : string) (max_parlays : Z)
  (ensure_variety : bool) :
  (ensure_variety = false -> (0 <= MIN_PARLAY_LEGS cfg)%Z) ->
  returns
    (generate_diverse_sport_parlays cfg env games sport max_parlays
       ensure_variety)
    (fun _ => True).
Proof.
  intro M. rewrite diverse_unfold.
  split_if; [now apply returns_ok|]. split_if; [now apply returns_ok|].
  eapply returns_bind with (P := fun _ => True); [|intros; now apply returns_ok].
  destruct ensure_variety.
  - apply varied_candidates_return.
  - apply simple_candidates_return. now apply M.
Qed.

End Results.



(** X22.  A slate whose games all share one id, a single game in
    particular, gives no diverse parlay however many legs it has: every
    combination falls short of the two distinct games
    [_calculate_parlay_metrics] asks for. *)
Theorem one_game_gives_no_diverse_parlay (cfg : Config) (env : Env)
  (games : list Game) (sport : string) (max_parlays : Z)
  (ensure_variety : bool) :
  (ensure_variety = false -> (0 <= MIN_PARLAY_LEGS cfg)%Z) ->
  (forall g1 g2, In g1 games -> In g2 games -> id g1 = id g2) ->
  generate_diverse_sport_parlays cfg env games sport max_parlays ensure_variety
  = Ok [].
Proof.
  intros M Same.
  destruct (diverse_returns cfg env games sport max_parlays ensure_variety M)
    as [out [E _]].
  rewrite E. f_equal. destruct out as [|p rest]; [reflexivity|]. exfalso.
  apply diverse_results in E as [_ [_ [_ D]]].
  inversion D as [|? ? [F [Acc _]] _]. subst.
  destruct Acc as [_ [_ [_ [_ [_ [G [G2 _]]]]]]].
  assert (len (set_of (map (fun leg => id (game leg)) (DiverseParlay.picks p)))
          <= 1)%Z as L.
  { apply set_of_single. intros x y Hx Hy.
    apply in_map_iff in Hx as [lx [<- Hlx]].
    apply in_map_iff in Hy as [ly [<- Hly]].
    rewrite Forall_forall in F.
    destruct (F lx Hlx) as [gx [Hgx [Ex _]]].
    destruct (F ly Hly) as [gy [Hgy [Ey _]]].
    rewrite Ex, Ey. now apply Same. }
  lia.
Qed.

Lemma one_game_gives_no_diverse_parlay_witness :
  generate_diverse_sport_parlays default_config SlateSample.env
    [SlateSample.lakers_celtics] "NBA" 3 true = Ok [].
Proof.
  apply (one_game_gives_no_diverse_parlay default_config SlateSample.env
           [SlateSample.lakers_celtics] "NBA" 3 true).
  - discriminate.
  - intros g1 g2 [<-|[]] [<-|[]]. reflexivity.
Defined.



End DiverseFacts.

(** ** Portfolio, risk and metrics *)

Module PortfolioFacts.
Import PortfolioOptimizer LegFacts.

Lemma Qsum_scale (l : list Q) (r : Q) :
  Qsum (map (fun s => s * r) l) == Qsum l * r.
Proof.
  induction l as [|x t IH]; cbn [map].
  - cbn. ring.
  - change (Qsum (?a :: ?b)) with (a + Qsum b). rewrite IH. ring.
Qed.

Lemma Qsum_nonneg (l : list Q) : Forall (fun s => 0 <= s) l -> 0 <= Qsum l.
Proof.
  induction 1 as [|x t Hx _ IH]; [discriminate|].
  change (Qsum (x :: t)) with (x + Qsum t). lra.
Qed.

Lemma kelly_stakes (bankroll : Q) (parlays : list Parlay.t) :
  0 <= bankroll ->
  exists stakes,
    mapM
      (fun parlay =>
         let true_prob := Parlay.confidence_score parlay in
         kelly_fraction <-
           KellyCriterion.calculate_kelly_fraction true_prob
             (Parlay.combined_odds parlay) ;;
         let stake := bankroll * kelly_fraction in
         Ok stake)
      parlays = Ok stakes
    /\ List.length stakes = List.length parlays
    /\ Forall (fun s => 0 <= s <= bankroll * (5 # 100)) stakes.
Proof.
  intro B.
  destruct (AnalyticsFacts.mapM_Forall2
              (fun parlay =>
                 let true_prob := Parlay.confidence_score parlay in
                 kelly_fraction <-
                   KellyCriterion.calculate_kelly_fraction true_prob
                     (Parlay.combined_odds parlay) ;;
                 let stake := bankroll * kelly_fraction in
                 Ok stake)
              (fun _ s => 0 <= s <= bankroll * (5 # 100)) parlays)
    as [stakes [E S]].
  { intros p _. cbv zeta.
    destruct (KellyFacts.kelly_fraction_value (Parlay.confidence_score p)
                (Parlay.combined_odds p)) as [f [-> [R _]]].
    cbn [bind]. eexists. split; [reflexivity|]. nra. }
  exists stakes. split; [exact E|]. split.
  - symmetry. eapply Forall2_length; eauto.
  - clear E. induction S; constructor; auto.
Qed.

(** X24.  With a nonnegative bankroll and a nonnegative cap,
    [optimize_stakes] never raises and returns one stake per parlay, each
    between 0 and 5% of the bankroll, whose total is at most the cap: the
    given [max_total_stake], or a tenth of the bankroll. *)
Theorem stakes_respect_the_caps (bankroll : Q) (parlays : list Parlay.t)
  (max_total_stake : option Q) :
  0 <= bankroll ->
  0 <= stake_cap bankroll max_total_stake ->
  exists stakes,
    optimize_stakes bankroll parlays max_total_stake = Ok stakes
    /\ List.length stakes = List.length parlays
    /\ Forall (fun s => 0 <= s <= bankroll * (5 # 100)) stakes
    /\ Qsum stakes <= stake_cap bankroll max_total_stake.
Proof.
  intros B C. unfold optimize_stakes. fold (stake_cap bankroll max_total_stake).
  set (cap := stake_cap bankroll max_total_stake) in *.
  destruct (len parlays =? 0)%Z eqn:N.
  { apply Z.eqb_eq in N. destruct parlays; [|unfold len in N; cbn in N; lia].
    exists []. repeat split; try constructor. exact C. }
  destruct (kelly_stakes bankroll parlays B) as [stakes [E [L F]]].
  cbv zeta in E. rewrite E. cbn [bind].
  pose proof (AnalyticsFacts.fold_left_Qplus_sum stakes) as T.
  set (total := fold_left Qplus stakes 0) in *.
  assert (0 <= Qsum stakes) as P.
  { apply Qsum_nonneg. eapply Forall_impl; [|exact F]. intros s Hs. apply Hs. }
  destruct (Qltb cap total) eqn:Over.
  - apply Qltb_true in Over.
    assert (~ total == 0) as NZ by lra.
    rewrite (mapM_const _ stakes (fun s => s * (cap / total))).
    + eexists. split; [reflexivity|]. split; [now rewrite length_map|].
      assert (0 <= cap / total <= 1) as R.
      { split.
        - apply Qle_shift_div_l; lra.
        - apply Qle_shift_div_r; lra. }
      split.
      * apply Forall_forall. intros s Hs. apply in_map_iff in Hs as [s0 [<- Hs0]].
        rewrite Forall_forall in F. specialize (F s0 Hs0). cbn beta in F. nra.
      * rewrite Qsum_scale. rewrite <- T.
        assert (total * (cap / total) == cap) as -> by (field; exact NZ).
        lra.
    + intros s _. now rewrite (div_ok _ _ NZ).
  - apply Qltb_false in Over. exists stakes. repeat split; try assumption.
    rewrite <- T. exact Over.
Qed.

Lemma stakes_respect_the_caps_witness :
  exists stakes,
    optimize_stakes 1000 SelectionSample.pool None = Ok stakes
    /\ List.length stakes = List.length SelectionSample.pool
    /\ Forall (fun s => 0 <= s <= 1000 * (5 # 100)) stakes
    /\ Qsum stakes <= stake_cap 1000 None.
Proof.
  apply (stakes_respect_the_caps 1000 SelectionSample.pool None).
  - discriminate.
  - discriminate.
Defined.

End PortfolioFacts.

Module RiskFacts.
Import RiskManager.



End RiskFacts.

Module MetricsFacts.
Import AdvancedMetrics.

Lemma len_cons {A} (x : A) (l : list A) : len (x :: l) = (len l + 1)%Z.
Proof.
  unfold len. cbn [List.length]. lia.
Qed.

Lemma len_filter_cons {A} (f : A -> bool) (x : A) (l : list A) :
  len (filter f (x :: l)) = ((if f x then 1 else 0) + len (filter f l))%Z.
Proof.
  cbn [filter]. destruct (f x); rewrite ?len_cons; lia.
Qed.

(** One iteration of the loop over the parlays. *)
Lemma accuracy_step (p : ParlayRow.t) (wh th wm tm wl tl : Z) :
  (if negb (settled p)
   then [("High", (wh, th)); ("Moderate", (wm, tm)); ("Low", (wl, tl))]
   else
     match ParlayRow.confidence_rating p with
     | Some rating =>
         bump rating (won p)
           [("High", (wh, th)); ("Moderate", (wm, tm)); ("Low", (wl, tl))]
     | None => [("High", (wh, th)); ("Moderate", (wm, tm)); ("Low", (wl, tl))]
     end)
  = [("High",
      (wh + (if rated "High" p && won p then 1 else 0),
       th + (if rated "High" p then 1 else 0))%Z);
     ("Moderate",
      (wm + (if rated "Moderate" p && won p then 1 else 0),
       tm + (if rated "Moderate" p then 1 else 0))%Z);
     ("Low",
      (wl + (if rated "Low" p && won p then 1 else 0),
       tl + (if rated "Low" p then 1 else 0))%Z)].
Proof.
  unfold rated.
  destruct (settled p); cbn [negb andb]; [|now rewrite !Z.add_0_r].
  destruct (ParlayRow.confidence_rating p) as [rating|];
    [|now rewrite !Z.add_0_r].
  cbn [bump].
  destruct (String.eqb "High" rating) eqn:H.
  { apply String.eqb_eq in H. subst rating.
    change (String.eqb "Moderate" "High") with false.
    change (String.eqb "Low" "High") with false.
    destruct (won p); cbn [andb]; now rewrite !Z.add_0_r. }
  destruct (String.eqb "Moderate" rating) eqn:M.
  { apply String.eqb_eq in M. subst rating.
    change (String.eqb "Low" "Moderate") with false.
    destruct (won p); cbn [andb]; now rewrite !Z.add_0_r. }
  destruct (String.eqb "Low" rating) eqn:L.
  { destruct (won p); cbn [andb]; now rewrite !Z.add_0_r. }
  cbn [andb]. now rewrite !Z.add_0_r.
Qed.

(** The counters after the loop over the parlays. *)
Lemma accuracy_loop (parlays : list ParlayRow.t) (wh th wm tm wl tl : Z) :
  fold_left
    (fun confidence_stats parlay =>
       if negb (settled parlay) then confidence_stats
       else
         match ParlayRow.confidence_rating parlay with
         | Some rating => bump rating (won parlay) confidence_stats
         | None => confidence_stats
         end)
    parlays
    [("High", (wh, th)); ("Moderate", (wm, tm)); ("Low", (wl, tl))]
  = [("High",
      (wh + len (filter (fun p => rated "High" p && won p) parlays),
       th + len (filter (rated "High") parlays))%Z);
     ("Moderate",
      (wm + len (filter (fun p => rated "Moderate" p && won p) parlays),
       tm + len (filter (rated "Moderate") parlays))%Z);
     ("Low",
      (wl + len (filter (fun p => rated "Low" p && won p) parlays),
       tl + len (filter (rated "Low") parlays))%Z)].
Proof.
  revert wh th wm tm wl tl.
  induction parlays as [|p t IH]; intros wh th wm tm wl tl.
  - cbn. now rewrite !Z.add_0_r.
  - cbn [fold_left]. rewrite accuracy_step, IH.
    rewrite !len_filter_cons, !Z.add_assoc. reflexivity.
Qed.

Lemma filter_le {A} (f g : A -> bool) (l : list A) :
  (len (filter (fun x => f x && g x) l) <= len (filter f l))%Z.
Proof.
  induction l as [|x t IH]; [cbn; lia|]. cbn [filter].
  destruct (f x); cbn [andb]; [|exact IH].
  destruct (g x); rewrite ?len_cons; lia.
Qed.

Lemma accuracy_range (r : string) (parlays : list ParlayRow.t) :
  0 <= accuracy_of r parlays <= 1.
Proof.
  unfold accuracy_of. cbv zeta.
  destruct (0 <? len (filter (rated r) parlays))%Z eqn:T; [|split; discriminate].
  apply Z.ltb_lt in T.
  pose proof (filter_le (rated r) won parlays) as W.
  assert (0 < inject_Z (len (filter (rated r) parlays))) as P.
  { change 0 with (inject_Z 0). now rewrite <- Zlt_Qlt. }
  assert (0 <= inject_Z (len (filter (fun p => rated r p && won p) parlays))) as N.
  { change 0 with (inject_Z 0). rewrite <- Zle_Qle. unfold len. lia. }
  assert (inject_Z (len (filter (fun p => rated r p && won p) parlays))
          <= inject_Z (len (filter (rated r) parlays))) as L
    by (now rewrite <- Zle_Qle).
  split.
  - apply Qle_shift_div_l; lra.
  - apply Qle_shift_div_r; lra.
Qed.

(** X26.  [calculate_confidence_accuracy] never raises and reports, for
    each of the ratings High, Moderate and Low in that order, the share of
    wins among the settled parlays that carry the rating, or 0 when there is
    none; parlays that are not settled, or carry another rating or none, are
    ignored, and every share lies between 0 and 1. *)
Theorem confidence_accuracy_counts_settled_parlays (parlays : list ParlayRow.t) :
  calculate_confidence_accuracy parlays
  = Ok [("High", accuracy_of "High" parlays);
        ("Moderate", accuracy_of "Moderate" parlays);
        ("Low", accuracy_of "Low" parlays)]
  /\ (forall r, 0 <= accuracy_of r parlays <= 1)
  /\ (forall p,
        settled p = false ->
        calculate_confidence_accuracy (p :: parlays)
        = calculate_confidence_accuracy parlays).
Proof.
  assert (forall ps,
            calculate_confidence_accuracy ps
            = Ok [("High", accuracy_of "High" ps);
                  ("Moderate", accuracy_of "Moderate" ps);
                  ("Low", accuracy_of "Low" ps)]) as K.
  { intro ps. unfold calculate_confidence_accuracy. rewrite accuracy_loop.
    cbn [mapM Z.add]. unfold accuracy_of. cbv zeta.
    repeat match goal with
    | |- context [(0 <? ?t)%Z] =>
        let T := fresh "T" in
        destruct (0 <? t)%Z eqn:T;
        [rewrite div_ok
           by (apply Z.ltb_lt in T; intro Z; unfold Qeq in Z; cbn in Z; lia)|]
    end; reflexivity. }
  split; [apply K|]. split; [intro r; apply accuracy_range|].
  intros p S. rewrite !K. unfold accuracy_of, rated. cbn [filter].
  rewrite S. reflexivity.
Qed.

End MetricsFacts.

(** ** Order and limits of the generators *)

Module OrderFacts.
Import ResearchEngine LegFacts GenerationFacts.

Lemma score_lt_asym (x y : Parlay.t) : score_lt x y = true -> score_lt y x = false.
Proof.
  apply OptimizerFacts.key_lt_asym.
Qed.

Lemma score_lt_negtrans (x y z : Parlay.t) :
  score_lt x y = false -> score_lt y z = false -> score_lt x z = false.
Proof.
  apply OptimizerFacts.key_lt_negtrans.
Qed.

Ltac by_scores :=
  repeat match goal with
         | H : score_lt _ _ = true |- _ => apply Qltb_true in H
         | H : score_lt _ _ = false |- _ => apply Qltb_false in H
         | H : Qltb _ _ = true |- _ => apply Qltb_true in H
         | H : Qltb _ _ = false |- _ => apply Qltb_false in H
         end;
  first [discriminate | reflexivity | apply Qltb_false; lra | apply Qltb_true; lra].

Lemma final_lt_asym (x y : Parlay.t) : final_lt x y = true -> final_lt y x = false.
Proof.
  unfold final_lt, props_score_lt, bool_lt, score_lt.
  destruct (Parlay.is_sgp x), (Parlay.is_sgp y), (Parlay.has_props x),
    (Parlay.has_props y); cbn; intro H; by_scores.
Qed.

Lemma final_lt_negtrans (x y z : Parlay.t) :
  final_lt x y = false -> final_lt y z = false -> final_lt x z = false.
Proof.
  unfold final_lt, props_score_lt, bool_lt, score_lt.
  destruct (Parlay.is_sgp x), (Parlay.is_sgp y), (Parlay.is_sgp z),
    (Parlay.has_props x), (Parlay.has_props y), (Parlay.has_props z);
    cbn; intros H1 H2; by_scores.
Qed.

Lemma sgp_candidate_fields (cfg : Config) (weights : Weights) (g : Game)
  (combo : list Leg) (p : Parlay.t) :
  sgp_candidate cfg weights g combo = Ok p ->
  Parlay.legs p = combo
  /\ Parlay.is_sgp p = true
  /\ Parlay.game p = Some g
  /\ Parlay.prop_count p = Some (count_props combo)
  /\ Parlay.has_props p = (0 <? count_props combo)%Z.
Proof.
  unfold sgp_candidate. intro H. bind_inv H. inversion H. repeat split.
Qed.

(** X27.  [generate_same_game_parlays] returns at most [max_parlays]
    parlays, highest score first, each flagged as a same-game parlay of the
    analysed game and built only from legs of that game whose bet type is
    prop, moneyline, spread or total; [has_props] is set exactly when one of
    the legs is a prop. *)
Theorem same_game_parlays_stay_on_the_game (cfg : Config) (weights : Weights)
  (env : Env) (g : Game) (max_parlays : Z) :
  MAX_PARLAY_LEGS cfg <> 0%Z ->
  returns (generate_same_game_parlays cfg weights env g max_parlays)
    (fun out =>
       ((0 <= max_parlays)%Z -> (len out <= max_parlays)%Z)
       /\ descending score_lt out
       /\ Forall
            (fun p =>
               Parlay.is_sgp p = true
               /\ Parlay.game p = Some g
               /\ Forall (fun l => game l = g /\ is_sgp_type l = true)
                    (Parlay.legs p)
               /\ Parlay.prop_count p = Some (count_props (Parlay.legs p))
               /\ Parlay.has_props p = (0 <? count_props (Parlay.legs p))%Z)
            out).
Proof.
  intro M. apply OptimizerFacts.returns_and.
  - now apply same_game_parlays_return.
  - intros out H. split; [|split].
    + unfold generate_same_game_parlays in H. bind_inv H.
      match type of H with
      | (if ?c then _ else _) = _ => destruct c
      end; [inversion H; cbn; lia|].
      bind_inv H. inversion H. apply OptimizerFacts.take_le.
    + unfold generate_same_game_parlays in H. bind_inv H.
      match type of H with
      | (if ?c then _ else _) = _ => destruct c
      end; [inversion H; constructor|].
      bind_inv H. inversion H. apply OptimizerFacts.descending_take.
      apply sort_desc_descending.
      * apply score_lt_asym.
      * apply score_lt_negtrans.
    + revert H. apply ParlayFacts.same_game_parlays_from.
      intros combo c F _ H. apply sgp_candidate_fields in H
        as [-> [S [G [C P]]]].
      repeat split; try assumption.
      eapply Forall_impl; [|exact F]. intros l [[E _] T]. now split.
Qed.

Lemma same_game_parlays_stay_on_the_game_witness :
  returns (generate_same_game_parlays SlateSample.two_to_four default_weights
             SlateSample.env SlateSample.lakers_celtics 5)
    (fun out =>
       ((0 <= 5)%Z -> (len out <= 5)%Z)
       /\ descending score_lt out
       /\ Forall
            (fun p =>
               Parlay.is_sgp p = true
               /\ Parlay.game p = Some SlateSample.lakers_celtics
               /\ Forall (fun l => game l = SlateSample.lakers_celtics
                                   /\ is_sgp_type l = true)
                    (Parlay.legs p)
               /\ Parlay.prop_count p = Some (count_props (Parlay.legs p))
               /\ Parlay.has_props p = (0 <? count_props (Parlay.legs p))%Z)
            out).
Proof.
  apply (same_game_parlays_stay_on_the_game SlateSample.two_to_four
           default_weights SlateSample.env SlateSample.lakers_celtics 5).
  vm_compute. discriminate.
Defined.

(** X28.  [generate_parlays] returns at most [max_parlays] parlays; when
    the pool reaches [MIN_PARLAY_LEGS] they are ordered with same-game
    parlays first, then parlays with props, then by score, highest first. *)
Theorem generated_parlays_are_limited_and_ordered (cfg : Config)
  (weights : Weights) (env : Env) (games : list Game) (max_parlays : Z)
  (include_sgp : bool) :
  (2 <= MIN_PARLAY_LEGS cfg)%Z ->
  MAX_PARLAY_LEGS cfg <> 0%Z ->
  (0 <= max_parlays)%Z ->
  returns (generate_parlays cfg weights env games max_parlays include_sgp)
    (fun out =>
       (len out <= max_parlays)%Z
       /\ ((MIN_PARLAY_LEGS cfg <= len (pool_of cfg env games))%Z ->
           descending final_lt out)).
Proof.
  intros Hmin Hmax K. apply OptimizerFacts.returns_and.
  - eapply returns_weaken; [now apply generate_parlays_returns|auto].
  - intros out H. unfold generate_parlays in H.
    match type of H with
    | bind ?m _ = _ => destruct m as [all_parlays|] eqn:Esgp
    end; cbn [bind] in H; [|discriminate H].
    rewrite (analyze_all cfg env games) in H. cbn [bind] in H.
    rewrite (pool_concat cfg env games) in H.
    destruct (len (pool_of cfg env games) <? MIN_PARLAY_LEGS cfg)%Z eqn:C.
    + apply Z.ltb_lt in C. inversion H. split; [|lia].
      destruct (is_nil all_parlays); [cbn; lia|now apply OptimizerFacts.take_le].
    + bind_inv H. inversion H. split; [now apply OptimizerFacts.take_le|].
      intros _. apply OptimizerFacts.descending_take.
      apply sort_desc_descending.
      * apply final_lt_asym.
      * apply final_lt_negtrans.
Qed.

Lemma generated_parlays_are_limited_and_ordered_witness :
  returns (generate_parlays SlateSample.two_to_four default_weights
             SlateSample.env [SlateSample.lakers_celtics] 10 true)
    (fun out =>
       (len out <= 10)%Z
       /\ ((MIN_PARLAY_LEGS SlateSample.two_to_four
            <= len (pool_of SlateSample.two_to_four SlateSample.env
                      [SlateSample.lakers_celtics]))%Z ->
           descending final_lt out)).
Proof.
  apply (generated_parlays_are_limited_and_ordered SlateSample.two_to_four
           default_weights SlateSample.env [SlateSample.lakers_celtics] 10 true).
  - vm_compute. discriminate.
  - vm_compute. discriminate.
  - lia.
Defined.

End OrderFacts.

(** ** Player props *)

Module PropFacts.
Import ResearchEngine LegFacts.

Section Props.

Variable cfg : Config.
Variable env : Env.
Variable g : Game.

Hypothesis prop_model :
  predict_prop_probability (ml_predictor env) = Untrained.predict_prop_probability.

Lemma boosted_leg (csel esel sel : string) (o : Q) (prop : PlayerProp)
  (extra : Q -> list (string * PyVal)) :
  ~ o == 0 ->
  estimate_true_probability env g "prop" esel (Some prop) = Ok (boosted o) ->
  returns (market_leg cfg env g "prop" csel esel sel o prop extra)
    (Forall boosted_prop).
Proof.
  intros NZ E. unfold market_leg.
  eapply returns_bind; [apply confidence_score_returns|]. intros c _.
  split_if; [|apply returns_ok; constructor].
  rewrite OddsFacts.american_to_implied_prob_total. cbn [bind].
  rewrite E. cbn [bind].
  match goal with
  | |- returns (bind (calculate_expected_value ?ip ?tp _) _) _ =>
      destruct (PriceFacts.expected_value_edge ip tp o NZ)
        as [d [p [ev [D [P [-> [V G]]]]]]]
  end.
  cbn [bind]. split_if; [|apply returns_ok; constructor].
  apply returns_ok. constructor; [|constructor]. unfold boosted_prop.
  cbn [bet_type true_probability implied_probability expected_value].
  rewrite OddsFacts.american_to_implied_prob_total in P.
  assert (p = (if Qltb 0 o then 100 / (o + 100) else Qabs o / (Qabs o + 100)))
    as Ep by congruence.
  rewrite <- Ep in *.
  assert (boosted o = Qmin (p * (105 # 100)) (95 # 100)) as Eb
    by (unfold boosted, Untrained._american_to_implied_prob; now rewrite Ep).
  rewrite Eb in V |- *.
  destruct (PriceFacts.decimal_implied_product o NZ)
    as [d' [p' [D' [P' [M [_ R]]]]]].
  rewrite OddsFacts.american_to_implied_prob_total in P'.
  assert (d' = d) by congruence. assert (p' = p) by congruence. subst d' p'.
  split; [reflexivity|]. split; [reflexivity|].
  pose proof (Q.le_min_l (p * (105 # 100)) (95 # 100)) as L.
  assert (ev <= 5 # 100) as Hev.
  { rewrite V. assert (d * (p * (105 # 100) - p) == 5 # 100) as K.
    { transitivity (d * p * (5 # 100)); [ring|]. rewrite M. ring. }
    nra. }
  split.
  - apply Q.max_lub; [exact Hev|discriminate].
  - intro Small.
    assert (Qmin (p * (105 # 100)) (95 # 100) == p * (105 # 100)) as Emin.
    { apply Q.min_l. lra. }
    assert (ev == 5 # 100) as ->.
    { rewrite V, Emin. transitivity (d * p * (5 # 100)); [ring|].
      rewrite M. ring. }
    apply Q.max_l. discriminate.
Qed.

Lemma estimate_over (prop : PlayerProp) (s : string) :
  truthy (pp_over_odds prop) = true ->
  estimate_true_probability env g "prop" ("over " ++ s) (Some prop)
  = Ok (boosted (the (pp_over_odds prop))).
Proof.
  intro T. unfold estimate_true_probability. cbn. rewrite prop_model.
  unfold Untrained.predict_prop_probability. cbn. rewrite T. reflexivity.
Qed.

Lemma estimate_under (prop : PlayerProp) (s : string) :
  contains "over" (lower s) = false ->
  truthy (pp_under_odds prop) = true ->
  estimate_true_probability env g "prop" ("under " ++ s) (Some prop)
  = Ok (boosted (the (pp_under_odds prop))).
Proof.
  intros C T. unfold estimate_true_probability. cbn.
  cbn in C. rewrite C. rewrite prop_model.
  unfold Untrained.predict_prop_probability. cbn. rewrite T. reflexivity.
Qed.

Lemma estimate_yes (prop : PlayerProp) :
  truthy (yes_odds prop) = true ->
  estimate_true_probability env g "prop" "yes" (Some prop)
  = Ok (boosted (the (yes_odds prop))).
Proof.
  intro T. unfold estimate_true_probability. cbn. rewrite prop_model.
  unfold Untrained.predict_prop_probability. cbn. rewrite T. reflexivity.
Qed.

Lemma player_prop_legs_boosted (prop : PlayerProp) :
  (forall v, prop_value prop = Some v ->
             contains "over" (lower (str_float env v)) = false) ->
  returns (player_prop_legs cfg env g prop)
    (Forall boosted_prop).
Proof.
  intro Hstr. unfold player_prop_legs.
  eapply returns_bind with (P := Forall boosted_prop).
  { destruct (prop_value prop) as [v|]; [|apply returns_ok; constructor].
    destruct (truthy (pp_over_odds prop)) eqn:T; [|apply returns_ok; constructor].
    apply boosted_leg; [now apply truthy_nonzero|now apply estimate_over]. }
  intros over Hover.
  eapply returns_bind with (P := Forall boosted_prop).
  { destruct (prop_value prop) as [v|] eqn:V; [|apply returns_ok; constructor].
    destruct (truthy (pp_under_odds prop)) eqn:T; [|apply returns_ok; constructor].
    apply boosted_leg; [now apply truthy_nonzero|].
    apply estimate_under; [now apply Hstr|exact T]. }
  intros under Hunder.
  eapply returns_bind with (P := Forall boosted_prop).
  { destruct (truthy (yes_odds prop)) eqn:T; [|apply returns_ok; constructor].
    apply boosted_leg; [now apply truthy_nonzero|now apply estimate_yes]. }
  intros yes Hyes. apply returns_ok.
  repeat (apply Forall_app; split); assumption.
Qed.

End Props.

(** X29.  With the prop predictor of [ml_models.py], which raises the
    implied probability by 5% and caps it at 0.95, every leg
    [analyze_game] builds from a player prop row is estimated at that
    probability; its expected value is never above 5%, and is exactly 5%
    whenever the implied probability is at most 0.95 / 1.05. *)
Theorem player_props_carry_five_percent (cfg : Config) (env : Env) (g : Game)
  (prop : PlayerProp) :
  predict_prop_probability (ml_predictor env)
  = Untrained.predict_prop_probability ->
  (forall v, prop_value prop = Some v ->
             contains "over" (lower (str_float env v)) = false) ->
  returns (player_prop_legs cfg env g prop)
    (Forall boosted_prop).
Proof.
  intros M S. now apply player_prop_legs_boosted.
Qed.

Lemma player_props_carry_five_percent_witness :
  returns
    (player_prop_legs default_config SlateSample.env SlateSample.lakers_celtics
       (SlateSample.over_prop "James" (255 # 10) (- (110))))
    (Forall boosted_prop).
Proof.
  apply (player_props_carry_five_percent default_config SlateSample.env
           SlateSample.lakers_celtics
           (SlateSample.over_prop "James" (255 # 10) (- (110)))).
  - reflexivity.
  - intros v E. inversion E. subst v. vm_compute. reflexivity.
Defined.

End PropFacts.

(** ** Return on investment by sport *)

Module RoiFacts.
Import AdvancedMetrics.









End RoiFacts.
